(** * HF-API polling core: deduplication store, paginator, TTL cache, watcher

    A shallow embedding of the change-detection engine of the HackForums API
    client: [HFEventStore.py], [HFPaginator.py], [HFCache.py] and the poll
    routines of [HFWatcher.py].  Every Python method is a function on an
    explicit state; exceptions are an [outcome]; clocks are arguments. *)

From Stdlib Require Import ZArith QArith String DecimalString Floats Lia.
From stdpp Require Import gmap strings list sorting.

Open Scope Z_scope.

(** ** Python scalars and [str()] *)

(** The ids and keys handed to the store are typed [int | str] in the source. *)
Inductive scalar : Type :=
  | SInt (n : Z)
  | SStr (s : string).

#[global] Instance scalar_eq_dec : EqDecision scalar.
Proof. solve_decision. Defined.

(** [str(n)] on an integer: decimal digits, a leading minus sign when negative. *)
Definition str_of_int (n : Z) : string := NilZero.string_of_int (Z.to_int n).

(** [str(x)]: the identity on strings. *)
Definition str (x : scalar) : string :=
  match x with
  | SInt n => str_of_int n
  | SStr s => s
  end.

(** Exceptions that the modelled code can raise. *)
Inductive exn : Type :=
  | IntegrityError
  | OperationalError
  | ValueError
  | AttributeError
  | TypeError
  | CallbackError.

Inductive outcome (A : Type) : Type :=
  | Ret (a : A)
  | Raise (e : exn).
Arguments Ret {A} a.
Arguments Raise {A} e.

(** Clock readings ([time.time()], [time.monotonic()]) and delays are
    rationals; the comparisons the code makes on them are decidable. *)
#[global] Instance Qlt_dec (x y : Q) : Decision (x < y)%Q :=
  match Qlt_le_dec x y with
  | left H => left H
  | right H => right (Qle_not_lt _ _ H)
  end.

#[global] Instance Qle_dec (x y : Q) : Decision (x <= y)%Q :=
  match Qlt_le_dec y x with
  | left H => right (Qlt_not_le _ _ H)
  | right H => left H
  end.

(** ** HFEventStore.py *)

Module EventStore.

(** The [events] table: primary key (namespace, key, event_id), one
    [seen_at] per key. *)
Abbreviation pk := (string * string * string)%type.
Abbreviation table := (gmap pk Z).

(** A store is its path, the durable content of the database file and the
    content seen through the open connection (which includes statements not
    yet committed). *)
Record HFEventStore : Type := mkStore {
  db_path : string;
  disk : table;
  conn : table
}.

Definition memory_path : string := ":memory:".

(** The paths that name a database file.  [sqlite3.connect(":memory:")] is
    a database in memory and [sqlite3.connect("")] a private temporary one;
    both are dropped when the connection closes. *)
Definition persistent (path : string) : Prop :=
  path ≠ memory_path ∧ path ≠ "".

#[global] Instance persistent_dec path : Decision (persistent path).
Proof. unfold persistent. apply _. Defined.

(** [HFEventStore(db_path)] on a database whose file holds [file]: a
    database in memory and a temporary one start empty each time;
    [CREATE TABLE IF NOT EXISTS] leaves existing rows alone. *)
Definition open (path : string) (file : table) : HFEventStore :=
  if decide (persistent path)
  then mkStore path file file
  else mkStore path ∅ ∅.

(** The process stops and a new one, started in the same directory, opens
    the same path: what was not committed is gone. *)
Definition restart (s : HFEventStore) : HFEventStore :=
  open (db_path s) (disk s).

(** [SELECT 1 FROM events WHERE namespace=? AND key=? AND event_id=? LIMIT 1],
    then [fetchone()]. *)
Definition select_one (t : table) (ns k e : string) : option Z :=
  t !! (ns, k, e).

(** [INSERT INTO events ... VALUES (?,?,?,?)]: a primary-key conflict raises. *)
Definition insert (t : table) (ns k e : string) (seen_at : Z) : outcome table :=
  match t !! (ns, k, e) with
  | Some _ => Raise IntegrityError
  | None => Ret (<[(ns, k, e) := seen_at]> t)
  end.

(** [INSERT OR IGNORE INTO events ...]: a conflicting row is skipped. *)
Definition insert_or_ignore (t : table) (ns k e : string) (seen_at : Z) : table :=
  match t !! (ns, k, e) with
  | Some _ => t
  | None => <[(ns, k, e) := seen_at]> t
  end.

(** [SELECT event_id FROM events WHERE namespace=? AND key=? AND event_id IN (...)],
    then [fetchall()]. *)
Definition select_in (t : table) (ns k : string) (ids : list string) : list string :=
  omap (λ row : pk * Z,
          let '(ns', k', e') := row.1 in
          if decide (ns' = ns ∧ k' = k ∧ e' ∈ ids) then Some e' else None)
       (map_to_list t).

Definition commit (s : HFEventStore) (t : table) : HFEventStore :=
  mkStore (db_path s) t t.

(** [has(namespace, key, event_id)] *)
Definition has (s : HFEventStore) (namespace : string) (key event_id : scalar) : bool :=
  match select_one (conn s) namespace (str key) (str event_id) with
  | Some _ => true
  | None => false
  end.

(** [add(namespace, key, event_id)] at wall-clock time [now]. *)
Definition add (s : HFEventStore) (namespace : string) (key event_id : scalar)
    (now : Z) : HFEventStore :=
  commit s (insert_or_ignore (conn s) namespace (str key) (str event_id) now).

(** [add_if_new(namespace, key, event_id)] at wall-clock time [now]: the
    early [return False] leaves the store as it is. *)
Definition add_if_new (s : HFEventStore) (namespace : string) (key event_id : scalar)
    (now : Z) : outcome bool * HFEventStore :=
  match select_one (conn s) namespace (str key) (str event_id) with
  | Some _ => (Ret false, s)
  | None =>
      match insert (conn s) namespace (str key) (str event_id) now with
      | Raise e => (Raise e, s)
      | Ret t => (Ret true, commit s t)
      end
  end.

(** [filter_new(namespace, key, event_ids)] on an engine that accepts at
    most [max_variables] host parameters in one statement (SQLite's
    [SQLITE_MAX_VARIABLE_NUMBER]: 999 before version 3.32, 32766 since, unless
    the build sets another).  The one [IN] query binds the namespace, the key
    and one parameter per id; past the limit [execute] raises
    [sqlite3.OperationalError]. *)
Definition filter_new (max_variables : nat) (s : HFEventStore) (namespace : string)
    (key : scalar) (event_ids : list scalar) : outcome (list scalar) :=
  match event_ids with
  | [] => Ret []
  | _ =>
      let str_ids := str <$> event_ids in
      if decide (2 + length str_ids ≤ max_variables)%nat then
        let rows := select_in (conn s) namespace (str key) str_ids in
        let seen : gset string := list_to_set rows in
        Ret (filter (λ e, str e ∉ seen) event_ids)
      else Raise OperationalError
  end.

(** The lists that [filter_new] can put into one statement. *)
Definition fits (max_variables : nat) (event_ids : list scalar) : Prop :=
  event_ids = [] ∨ (2 + length event_ids ≤ max_variables)%nat.

(** A client session against one (namespace, key, id): calls of
    [add_if_new], each at its own clock reading, with process restarts in
    between. *)
Inductive step : Type :=
  | CallAddIfNew (now : Z)
  | Restart.

Fixpoint run (namespace : string) (key event_id : scalar) (steps : list step)
    (s : HFEventStore) : list (outcome bool) * HFEventStore :=
  match steps with
  | [] => ([], s)
  | CallAddIfNew now :: rest =>
      let '(r, s1) := add_if_new s namespace key event_id now in
      let '(rs, s2) := run namespace key event_id rest s1 in
      (r :: rs, s2)
  | Restart :: rest => run namespace key event_id rest (restart s)
  end.

(** What the claim expects of the answers: [True] once, then [False]. *)
Definition first_only (calls : nat) : list (outcome bool) :=
  match calls with
  | O => []
  | S n => Ret true :: replicate n (Ret false)
  end.

Fixpoint calls_of (steps : list step) : nat :=
  match steps with
  | [] => O
  | CallAddIfNew _ :: rest => S (calls_of rest)
  | Restart :: rest => calls_of rest
  end.

(** Every public operation leaves the connection with nothing pending. *)
Definition durable (s : HFEventStore) : Prop := conn s = disk s.

(** *** Facts about the store *)

Lemma has_true_iff s ns k e :
  has s ns k e = true ↔ is_Some (conn s !! (ns, str k, str e)).
Proof.
  unfold has, select_one. destruct (conn s !! _) eqn:E; split; intros H; eauto.
  - discriminate.
  - by destruct H.
Qed.

Lemma has_false_iff s ns k e :
  has s ns k e = false ↔ conn s !! (ns, str k, str e) = None.
Proof.
  unfold has, select_one. destruct (conn s !! _) eqn:E; split; intros H; eauto;
    discriminate.
Qed.

Lemma add_if_new_seen s ns k e now :
  has s ns k e = true → add_if_new s ns k e now = (Ret false, s).
Proof.
  unfold has, add_if_new. destruct (select_one _ _ _ _); [done | discriminate].
Qed.

Lemma add_if_new_unseen s ns k e now :
  has s ns k e = false →
  ∃ s', add_if_new s ns k e now = (Ret true, s') ∧ has s' ns k e = true
        ∧ durable s' ∧ db_path s' = db_path s.
Proof.
  intros H. apply has_false_iff in H.
  unfold add_if_new, insert, select_one. rewrite H.
  eexists; split; [reflexivity |]. split; [| done].
  apply has_true_iff. simpl. rewrite lookup_insert_eq. eauto.
Qed.

Lemma restart_keeps s ns k e :
  persistent (db_path s) → durable s →
  has (restart s) ns k e = has s ns k e
  ∧ durable (restart s) ∧ db_path (restart s) = db_path s.
Proof.
  intros Hp Hd. unfold restart, open. rewrite decide_True by done.
  unfold has, durable in *. simpl. by rewrite Hd.
Qed.

(** A store on a path that names no file has seen nothing after a restart. *)
Lemma restart_forgets s ns k e :
  ¬ persistent (db_path s) → has (restart s) ns k e = false.
Proof.
  intros Hp. unfold restart, open. rewrite decide_False by done.
  apply has_false_iff. simpl. apply lookup_empty.
Qed.

Lemma run_seen ns k e steps : ∀ s,
  persistent (db_path s) → durable s → has s ns k e = true →
  (run ns k e steps s).1 = replicate (calls_of steps) (Ret false).
Proof.
  induction steps as [| [now|] rest IH]; intros s Hp Hd Hs; [done | |].
  - simpl. rewrite (add_if_new_seen _ _ _ _ _ Hs).
    specialize (IH s Hp Hd Hs). destruct (run ns k e rest s) as [rs s2].
    simpl in *. by rewrite IH.
  - simpl. destruct (restart_keeps s ns k e Hp Hd) as (Hh & Hd' & Hp').
    rewrite IH; [done | congruence | done | congruence].
Qed.

Lemma select_in_spec (t : table) ns k ids e :
  e ∈ select_in t ns k ids ↔ is_Some (t !! (ns, k, e)) ∧ e ∈ ids.
Proof.
  unfold select_in. rewrite list_elem_of_omap. split.
  - intros ([[[ns' k'] e'] v] & Hin & Hf). simpl in Hf.
    destruct (decide _) as [(-> & -> & Hi)|]; [| discriminate].
    injection Hf as ->. apply elem_of_map_to_list in Hin. eauto.
  - intros ([v Hv] & Hi). exists ((ns, k, e), v). split.
    + by apply elem_of_map_to_list.
    + simpl. by rewrite decide_True.
Qed.

Lemma filter_ext_in {A} (P Q : A → Prop) `{!∀ x, Decision (P x), !∀ x, Decision (Q x)}
    (l : list A) :
  (∀ x, x ∈ l → P x ↔ Q x) → filter P l = filter Q l.
Proof.
  induction l as [| a l IH]; intros Hpq; [done |].
  rewrite !filter_cons. rewrite IH by (intros x Hx; apply Hpq; by right).
  assert (P a ↔ Q a) as Ha by (apply Hpq; by left).
  destruct (decide (P a)), (decide (Q a)); tauto.
Qed.

Lemma filter_new_has max_variables s ns k ids :
  fits max_variables ids →
  filter_new max_variables s ns k ids = Ret (filter (λ e, has s ns k e = false) ids).
Proof.
  unfold filter_new, fits. destruct ids as [| i0 ids0]; [done |].
  intros [| Hfits]; [done |].
  set (ids := i0 :: ids0) in *. rewrite length_fmap, decide_True by done.
  f_equal. apply filter_ext_in. intros e He.
  rewrite elem_of_list_to_set, select_in_spec, has_false_iff.
  rewrite eq_None_not_Some. split.
  - intros Hn Hs. apply Hn. split; [done |].
    apply list_elem_of_fmap. eauto.
  - intros Hn [Hs _]. done.
Qed.

Lemma add_has s ns k e e' now :
  str e' = str e → has (add s ns k e now) ns k e' = true.
Proof.
  intros He. apply has_true_iff. rewrite He. unfold add, insert_or_ignore. simpl.
  destruct (conn s !! _) eqn:E; [by rewrite E |].
  rewrite lookup_insert_eq. eauto.
Qed.

Lemma filter_new_raises max_variables s ns k ids :
  ¬ fits max_variables ids →
  filter_new max_variables s ns k ids = Raise OperationalError.
Proof.
  unfold filter_new, fits. destruct ids as [| i0 ids0]; [tauto |].
  intros Hover. rewrite length_fmap, decide_False; [done | tauto].
Qed.


(** C1: from a store on a database file (a path other than [":memory:"]
    and the empty path) that has not seen (namespace, key, id), the answers of
    any session of [add_if_new] calls on that triple, restarts included, are
    [True] for the first call and [False] for every later one; no call
    raises. *)
Theorem add_if_new_first_call_only ns k e steps s :
  persistent (db_path s) → durable s → has s ns k e = false →
  (run ns k e steps s).1 = first_only (calls_of steps).
Proof.
  revert s. induction steps as [| [now|] rest IH]; intros s Hp Hd Hs; [done | |].
  - simpl. destruct (add_if_new_unseen s ns k e now Hs) as (s1 & -> & Hs1 & Hd1 & Hp1).
    pose proof (run_seen ns k e rest s1) as Hr.
    destruct (run ns k e rest s1) as [rs s2]. simpl in *.
    rewrite Hr; [done | congruence | done | done].
  - simpl. destruct (restart_keeps s ns k e Hp Hd) as (Hh & Hd' & Hp').
    apply IH; congruence.
Qed.

Lemma add_if_new_first_call_only_witness :
  (run "thread_replies" (SStr "tid_6083735") (SInt 59852445)
       [CallAddIfNew 100; Restart; CallAddIfNew 160; CallAddIfNew 161;
        Restart; CallAddIfNew 900]
       (open "events.db" ∅)).1
  = [Ret true; Ret false; Ret false; Ret false].
Proof.
  apply (add_if_new_first_call_only "thread_replies" (SStr "tid_6083735")
           (SInt 59852445)
           [CallAddIfNew 100; Restart; CallAddIfNew 160; CallAddIfNew 161;
            Restart; CallAddIfNew 900]
           (open "events.db" ∅)).
  - vm_compute. split; discriminate.
  - reflexivity.
  - reflexivity.
Defined.

(** A list of [n] ids. *)
Definition many_ids (n : nat) : list scalar := SInt <$> seqZ 1 (Z.of_nat n).

(** C3 (the code departs from the claim): on a list that fits into one
    statement, the empty list included, [filter_new] returns the ids for which
    [has] answers [False], in their original order, a subsequence of the list.
    On every other list it raises [OperationalError]; with a limit of 999
    host parameters, 998 ids are enough. *)
Theorem filter_new_raises_past_variable_limit max_variables s ns k ids :
  (fits max_variables ids →
     filter_new max_variables s ns k ids = Ret (filter (λ e, has s ns k e = false) ids)
     ∧ sublist (filter (λ e, has s ns k e = false) ids) ids)
  ∧ (¬ fits max_variables ids →
     filter_new max_variables s ns k ids = Raise OperationalError)
  ∧ filter_new 999 s ns k (many_ids 998) = Raise OperationalError.
Proof.
  split; [| split].
  - intros Hfits. split; [by apply filter_new_has | apply sublist_filter].
  - apply filter_new_raises.
  - apply filter_new_raises. unfold fits, many_ids.
    rewrite length_fmap, length_seqZ. intros [Hnil | Hle]; [discriminate | lia].
Qed.

Lemma filter_new_raises_past_variable_limit_witness :
  filter_new 999 (open "events.db" ∅) "thread_replies" (SStr "tid_6083735")
             [SInt 100; SInt 200; SInt 300]
  = Ret (filter (λ e, has (open "events.db" ∅) "thread_replies" (SStr "tid_6083735") e
                      = false)
                [SInt 100; SInt 200; SInt 300]).
Proof.
  apply (filter_new_raises_past_variable_limit 999 (open "events.db" ∅) "thread_replies"
           (SStr "tid_6083735") [SInt 100; SInt 200; SInt 300]).
  right. simpl. lia.
Defined.


End EventStore.

(** ** HFPaginator.py *)

Module Paginator.

Definition DEFAULT_PERPAGE : Z := 20.
Definition DEFAULT_MAX_PAGES : Z := 50.
Definition PAGE_DELAY : Q := 3 # 10.

(** What a walk does to the outside world, in order. *)
Inductive effect : Type :=
  | Sleep (delay : Q)
  | Fetch (page : Z).

Section Paginate.
Context {Item : Type}.

(** The local state of [_paginate]: the accumulated items and the effects
    performed so far. *)
Record walk : Type := mkWalk {
  all_items : list Item;
  effects : list effect
}.

(** [stop_condition and stop_condition(item)] *)
Definition stop_hit (stop_condition : option (Item → bool)) (item : Item) : bool :=
  match stop_condition with
  | Some cond => cond item
  | None => false
  end.

(** The inner [for item in items] loop; the flag is [stop]. *)
Fixpoint collect (stop_condition : option (Item → bool)) (items acc : list Item)
    : list Item * bool :=
  match items with
  | [] => (acc, false)
  | item :: rest =>
      if stop_hit stop_condition item then (acc, true)
      else collect stop_condition rest (acc ++ [item])
  end.

(** The body of [for page in range(1, max_pages + 1)], over the pages left. *)
Fixpoint loop (fetch_fn : Z → list Item) (perpage : Z)
    (stop_condition : option (Item → bool)) (delay : Q)
    (pages : list Z) (w : walk) : walk :=
  match pages with
  | [] => w
  | page :: more =>
      let slept :=
        if bool_decide (1 < page) && bool_decide (0 < delay)%Q
        then effects w ++ [Sleep delay] else effects w in
      let items := fetch_fn page in
      let done := slept ++ [Fetch page] in
      match items with
      | [] => mkWalk (all_items w) done
      | _ =>
          let '(acc, stop) := collect stop_condition items (all_items w) in
          if stop then mkWalk acc done
          else if Z.of_nat (length items) <? perpage then mkWalk acc done
          else loop fetch_fn perpage stop_condition delay more (mkWalk acc done)
      end
  end.

(** [_paginate(fetch_fn, max_pages, perpage, stop_condition, delay)] *)
Definition _paginate (fetch_fn : Z → list Item) (max_pages perpage : Z)
    (stop_condition : option (Item → bool)) (delay : Q) : walk :=
  loop fetch_fn perpage stop_condition delay (seqZ 1 max_pages) (mkWalk [] []).

(** The page numbers handed to [fetch_fn], in call order. *)
Definition fetched (es : list effect) : list Z :=
  omap (λ e, match e with Fetch p => Some p | Sleep _ => None end) es.

(** A page after which the walk does not go on. *)
Definition final_page (fetch_fn : Z → list Item) (perpage : Z)
    (stop_condition : option (Item → bool)) (page : Z) : Prop :=
  fetch_fn page = []
  ∨ Z.of_nat (length (fetch_fn page)) < perpage
  ∨ ∃ item, item ∈ fetch_fn page ∧ stop_hit stop_condition item = true.

Lemma fetched_app es1 es2 : fetched (es1 ++ es2) = fetched es1 ++ fetched es2.
Proof. unfold fetched. apply omap_app. Qed.

Lemma collect_no_stop items : ∀ acc,
  collect None items acc = (acc ++ items, false).
Proof.
  induction items as [| i items IH]; intros acc; simpl.
  - by rewrite app_nil_r.
  - rewrite IH. by rewrite <- app_assoc.
Qed.

Lemma collect_stop_hit stop_condition items : ∀ acc acc',
  collect stop_condition items acc = (acc', true) →
  ∃ item, item ∈ items ∧ stop_hit stop_condition item = true.
Proof.
  induction items as [| i items IH]; intros acc acc'; simpl; [discriminate |].
  destruct (stop_hit stop_condition i) eqn:Hi.
  - intros _. exists i. split; [by left | done].
  - intros H. destruct (IH _ _ H) as (x & Hx & Hs). exists x. split; [by right | done].
Qed.

(** The walk fetches a prefix of the pages it was given; every page before
    the last fetched one was full, non-empty and free of stop items; it gives
    up before the end of the list only at a final page. *)
Lemma loop_fetches fetch_fn perpage stop_condition delay pages : ∀ w,
  ∃ k : nat,
    fetched (effects (loop fetch_fn perpage stop_condition delay pages w))
      = fetched (effects w) ++ take k pages
    ∧ (k ≤ length pages)%nat
    ∧ (∀ (i : nat) p, pages !! i = Some p → (S i < k)%nat →
         ¬ final_page fetch_fn perpage stop_condition p)
    ∧ ((k < length pages)%nat →
         ∃ p, pages !! (pred k) = Some p ∧ (0 < k)%nat
              ∧ final_page fetch_fn perpage stop_condition p).
Proof.
  induction pages as [| page more IH]; intros w.
  - exists O. simpl. rewrite app_nil_r. repeat split; try done; lia.
  - simpl.
    set (slept := if _ && _ then _ else _).
    assert (fetched slept = fetched (effects w)) as Hslept.
    { unfold slept. destruct (_ && _); [| done].
      rewrite fetched_app. simpl. by rewrite app_nil_r. }
    assert (fetched (slept ++ [Fetch page]) = fetched (effects w) ++ [page]) as Hdone.
    { by rewrite fetched_app, Hslept. }
    assert (∀ acc, ∃ k : nat,
      fetched (effects (mkWalk acc (slept ++ [Fetch page])))
        = fetched (effects w) ++ take k (page :: more)
      ∧ (k ≤ length (page :: more))%nat
      ∧ (∀ (i : nat) p, (page :: more) !! i = Some p → (S i < k)%nat →
           ¬ final_page fetch_fn perpage stop_condition p)
      ∧ (final_page fetch_fn perpage stop_condition page →
         (k < length (page :: more))%nat →
           ∃ p, (page :: more) !! (pred k) = Some p ∧ (0 < k)%nat
                ∧ final_page fetch_fn perpage stop_condition p)) as Hstop.
    { intros acc. exists 1%nat. simpl. rewrite Hdone. split; [done |].
      split; [lia |]. split; [intros; lia |]. intros Hf _. eauto. }
    destruct (fetch_fn page) as [| i0 items0] eqn:Hitems.
    { destruct (Hstop (all_items w)) as (k & H1 & H2 & H3 & H4).
      exists k. repeat split; try done. apply H4. by left. }
    destruct (collect stop_condition (i0 :: items0) (all_items w)) as [acc stop] eqn:Hc.
    destruct stop.
    { destruct (Hstop acc) as (k & H1 & H2 & H3 & H4).
      exists k. repeat split; try done. apply H4. right; right.
      rewrite Hitems. by apply collect_stop_hit in Hc. }
    destruct (Z.ltb_spec (Z.of_nat (length (i0 :: items0))) perpage) as [Hlt|Hge].
    { destruct (Hstop acc) as (k & H1 & H2 & H3 & H4).
      exists k. repeat split; try done. apply H4. right; left. by rewrite Hitems. }
    destruct (IH (mkWalk acc (slept ++ [Fetch page]))) as (k & H1 & H2 & H3 & H4).
    exists (S k). simpl in *. rewrite H1, Hdone, <- app_assoc. simpl.
    split; [done |]. split; [lia |]. split.
    + intros [| i] p Hp Hi.
      * injection Hp as <-. intros [Hf | [Hf | (x & Hx & Hs)]].
        -- congruence.
        -- rewrite Hitems in Hf. simpl in *. lia.
        -- rewrite Hitems in Hx.
           assert (∀ its a, (∀ x, x ∈ its → stop_hit stop_condition x = true → False)
                     ∨ ∃ a', collect stop_condition its a = (a', true)) as Hall.
           { clear. induction its as [| y its IHi]; intros a.
             - left. intros x Hx. by apply elem_of_nil in Hx.
             - simpl. destruct (stop_hit stop_condition y) eqn:Hy; [right; eauto |].
               destruct (IHi (a ++ [y])) as [Hno | Hyes]; [left | right; done].
               intros x Hx Hsx. apply elem_of_cons in Hx as [-> | Hx]; [congruence |].
               eauto. }
           destruct (Hall (i0 :: items0) (all_items w)) as [Hno | [a' Ha']]; [eauto |].
           simpl in Ha'. congruence.
      * apply (H3 i p Hp). lia.
    + intros Hk. destruct H4 as (p & Hp & Hpos & Hf); [lia |].
      exists p. split; [| split; [lia | done]].
      destruct k; [lia | done].
Qed.

Lemma take_seqZ (k : nat) m n :
  (k ≤ Z.to_nat n)%nat → take k (seqZ m n) = seqZ m (Z.of_nat k).
Proof.
  intros Hk. destruct k as [| k']; [done |].
  replace n with (Z.of_nat (S k') + (n - Z.of_nat (S k'))) by lia.
  rewrite seqZ_app by lia.
  rewrite take_app_length'; [done |]. rewrite length_seqZ. lia.
Qed.

(** Without a stop condition, a non-empty page is appended whole. *)
Lemma loop_page_full fetch_fn perpage delay page more acc es :
  fetch_fn page ≠ [] → perpage ≤ Z.of_nat (length (fetch_fn page)) →
  ∃ es', fetched es' = fetched es ++ [page]
    ∧ loop fetch_fn perpage None delay (page :: more) (mkWalk acc es)
      = loop fetch_fn perpage None delay more (mkWalk (acc ++ fetch_fn page) es').
Proof.
  intros Hne Hlen. simpl. set (slept := if _ && _ then _ else _).
  exists (slept ++ [Fetch page]). split.
  - rewrite fetched_app. unfold slept. destruct (_ && _); [| done].
    rewrite fetched_app. simpl. by rewrite app_nil_r.
  - destruct (fetch_fn page) as [| i0 items0] eqn:Hitems; [done |].
    rewrite collect_no_stop.
    destruct (Z.ltb_spec (Z.of_nat (length (i0 :: items0))) perpage); [lia | done].
Qed.

Lemma loop_page_partial fetch_fn perpage delay page more acc es :
  fetch_fn page ≠ [] → Z.of_nat (length (fetch_fn page)) < perpage →
  ∃ es', fetched es' = fetched es ++ [page]
    ∧ loop fetch_fn perpage None delay (page :: more) (mkWalk acc es)
      = mkWalk (acc ++ fetch_fn page) es'.
Proof.
  intros Hne Hlen. simpl. set (slept := if _ && _ then _ else _).
  exists (slept ++ [Fetch page]). split.
  - rewrite fetched_app. unfold slept. destruct (_ && _); [| done].
    rewrite fetched_app. simpl. by rewrite app_nil_r.
  - destruct (fetch_fn page) as [| i0 items0] eqn:Hitems; [done |].
    rewrite collect_no_stop.
    destruct (Z.ltb_spec (Z.of_nat (length (i0 :: items0))) perpage); [done | lia].
Qed.

End Paginate.

(** The fetch function of the example: three pages of 20, 20 and 7
    consecutively numbered items, nothing after them. *)
Definition three_pages (page : Z) : list Z :=
  if decide (page = 1) then seqZ 1 20
  else if decide (page = 2) then seqZ 21 20
  else if decide (page = 3) then seqZ 41 7
  else [].

(** C4: the walk asks for pages 1, 2, ... in order and never for more than
    [max_pages]; the pages before the last one asked for were all non-empty,
    full and free of stop items, and when it ends short of [max_pages] the
    last page asked for was empty, partial or held a stop item.  With pages
    of 20, 20 and 7 items, page size 20 and no stop condition, it returns the
    47 items in page order after exactly the calls for pages 1, 2 and 3. *)
Theorem paginate_stops_at_last_page {Item : Type} (fetch_fn : Z → list Item)
    (max_pages perpage : Z) (stop_condition : option (Item → bool)) (delay : Q) :
  (∃ n : nat,
     fetched (effects (_paginate fetch_fn max_pages perpage stop_condition delay))
       = seqZ 1 (Z.of_nat n)
     ∧ Z.of_nat n ≤ Z.max 0 max_pages
     ∧ (∀ p, 1 ≤ p < Z.of_nat n → ¬ final_page fetch_fn perpage stop_condition p)
     ∧ (Z.of_nat n < max_pages →
          (0 < n)%nat ∧ final_page fetch_fn perpage stop_condition (Z.of_nat n)))
  ∧ (stop_condition = None → perpage = 20 → 3 ≤ max_pages →
     length (fetch_fn 1) = 20%nat → length (fetch_fn 2) = 20%nat →
     length (fetch_fn 3) = 7%nat →
     let w := _paginate fetch_fn max_pages perpage stop_condition delay in
     all_items w = fetch_fn 1 ++ fetch_fn 2 ++ fetch_fn 3
     ∧ length (all_items w) = 47%nat
     ∧ fetched (effects w) = [1; 2; 3]).
Proof.
  split.
  - unfold _paginate.
    destruct (loop_fetches fetch_fn perpage stop_condition delay
                (seqZ 1 max_pages) (mkWalk [] [])) as (k & H1 & H2 & H3 & H4).
    rewrite length_seqZ in H2, H4. exists k. simpl in H1. rewrite H1.
    split; [by apply take_seqZ |]. split; [lia |]. split.
    + intros p Hp. apply (H3 (Z.to_nat (p - 1))); [| lia].
      apply lookup_seqZ. lia.
    + intros Hk. destruct H4 as (p & Hp & Hpos & Hf); [lia |].
      split; [done |]. apply lookup_seqZ in Hp.
      replace (Z.of_nat k) with p by lia. done.
  - intros -> -> Hmax L1 L2 L3 w. subst w. unfold _paginate.
    rewrite (seqZ_cons 1), (seqZ_cons (Z.succ 1)), (seqZ_cons (Z.succ (Z.succ 1))) by lia.
    change (Z.succ 1) with 2. change (Z.succ 2) with 3.
    set (more := seqZ _ _).
    assert (∀ p (n : nat), length (fetch_fn p) = S n → fetch_fn p ≠ []) as Hne.
    { intros p n Hl E. by rewrite E in Hl. }
    destruct (loop_page_full fetch_fn 20 delay 1 (2 :: 3 :: more) [] [])
      as (es1 & He1 & ->); [by eapply Hne | rewrite L1; lia |].
    destruct (loop_page_full fetch_fn 20 delay 2 (3 :: more) ([] ++ fetch_fn 1) es1)
      as (es2 & He2 & ->); [by eapply Hne | rewrite L2; lia |].
    destruct (loop_page_partial fetch_fn 20 delay 3 more
                (([] ++ fetch_fn 1) ++ fetch_fn 2) es2)
      as (es3 & He3 & ->); [by eapply Hne | rewrite L3; lia |].
    simpl in *. rewrite He3, He2, He1. simpl.
    rewrite <- app_assoc. split; [done |]. split; [| done].
    rewrite !length_app, L1, L2, L3. done.
Qed.

Lemma paginate_stops_at_last_page_witness :
  all_items (_paginate three_pages DEFAULT_MAX_PAGES DEFAULT_PERPAGE None PAGE_DELAY)
    = seqZ 1 47
  ∧ fetched (effects (_paginate three_pages DEFAULT_MAX_PAGES DEFAULT_PERPAGE
                        None PAGE_DELAY)) = [1; 2; 3].
Proof.
  destruct (paginate_stops_at_last_page three_pages DEFAULT_MAX_PAGES
              DEFAULT_PERPAGE None PAGE_DELAY) as [_ H].
  destruct H as (Hitems & _ & Hcalls);
    [reflexivity | reflexivity | vm_compute; discriminate
    | reflexivity | reflexivity | reflexivity |].
  split; [| exact Hcalls].
  rewrite Hitems. reflexivity.
Defined.

End Paginator.

(** ** HFCache.py *)

Module Cache.

(** Cache keys as the callers build them: a scalar, a list or a tuple of
    scalars.  (Dict keys, whose hashable form sorts their items with Python's
    ordering on arbitrary values, are outside this key type.) *)
Inductive pykey : Type :=
  | KAtom (a : scalar)
  | KList (l : list scalar)
  | KTuple (l : list scalar).

#[global] Instance pykey_eq_dec : EqDecision pykey.
Proof. solve_decision. Defined.

(** [_make_hashable(key)] *)
Definition _make_hashable (key : pykey) : pykey :=
  match key with
  | KList l => KTuple l
  | _ => key
  end.

Abbreviation cache_key := (string * pykey)%type.

(** The clock, [time.monotonic()], reads binary64 numbers.  [exact x] is the
    rational that the finite binary64 number [x] stands for. *)
Definition exact (x : float) : Q :=
  match Prim2SF x with
  | S754_finite s m e =>
      let v := (inject_Z (Z.pos m) * Qpower 2 e)%Q in if s then (- v)%Q else v
  | _ => 0%Q
  end.


Section Values.
Context {V : Type}.

(** The objects that travel through the cache: [None], the two module-level
    marker objects, and any other value. *)
Inductive pyobj : Type :=
  | PyNone
  | _SENTINEL
  | _NONE_CACHED
  | Obj (v : V).

(** An entry of [_store]: (value, expire_at). *)
Abbreviation entry := (pyobj * Q)%type.

(** A Python dict: keys are unique and iterate in insertion order. *)
Abbreviation dict := (list (cache_key * entry)).

Fixpoint dict_get (d : dict) (k : cache_key) : option entry :=
  match d with
  | [] => None
  | (k', e) :: rest => if decide (k' = k) then Some e else dict_get rest k
  end.

(** [d[k] = e]: an existing key keeps its position, a new one goes last. *)
Fixpoint dict_set (d : dict) (k : cache_key) (e : entry) : dict :=
  match d with
  | [] => [(k, e)]
  | (k', e') :: rest =>
      if decide (k' = k) then (k, e) :: rest else (k', e') :: dict_set rest k e
  end.

(** [del d[k]] *)
Fixpoint dict_del (d : dict) (k : cache_key) : dict :=
  match d with
  | [] => []
  | (k', e') :: rest =>
      if decide (k' = k) then rest else (k', e') :: dict_del rest k
  end.

Definition dict_keys (d : dict) : list cache_key := fst <$> d.

(** [min(d, key=lambda k: d[k][1])]: the first key, in iteration order, whose
    expire_at is smallest; [None] stands for the [ValueError] on an empty
    dict. *)
Definition min_expire_at (d : dict) : option cache_key :=
  match d with
  | [] => None
  | first :: rest =>
      Some (fold_left (λ best cand : cache_key * entry,
                         if decide (cand.2.2 < best.2.2)%Q then cand else best)
                      rest first).1
  end.

Record HFCache : Type := mkCache {
  _default_ttl : Z;
  _maxsize : Z;
  _store : dict;
  _hits : nat;
  _misses : nat
}.

(** [HFCache(ttl, maxsize)] *)
Definition init (ttl maxsize : Z) : HFCache := mkCache ttl maxsize [] 0 0.

Definition with_store (c : HFCache) (d : dict) : HFCache :=
  mkCache (_default_ttl c) (_maxsize c) d (_hits c) (_misses c).

(** [get(namespace, key, default)] when [time.monotonic()] reads [now]. *)
Definition get (c : HFCache) (namespace : string) (key : pykey) (default : pyobj)
    (now : Q) : pyobj * HFCache :=
  let cache_key := (namespace, _make_hashable key) in
  match dict_get (_store c) cache_key with
  | None =>
      (default,
       mkCache (_default_ttl c) (_maxsize c) (_store c) (_hits c) (S (_misses c)))
  | Some (value, expire_at) =>
      if decide (expire_at < now)%Q
      then (default,
            mkCache (_default_ttl c) (_maxsize c) (dict_del (_store c) cache_key)
                    (_hits c) (S (_misses c)))
      else ((match value with _NONE_CACHED => PyNone | _ => value end),
            mkCache (_default_ttl c) (_maxsize c) (_store c) (S (_hits c)) (_misses c))
  end.

(** [set(namespace, key, value, ttl)] from the point where [expire_at] has
    been computed. *)
Definition set_until (c : HFCache) (namespace : string) (key : pykey) (value : pyobj)
    (expire_at : Q) : outcome HFCache :=
  let cache_key := (namespace, _make_hashable key) in
  let stored := match value with PyNone => _NONE_CACHED | _ => value end in
  if bool_decide (_maxsize c ≠ 0)
     && bool_decide (_maxsize c ≤ Z.of_nat (length (_store c)))
  then
    match min_expire_at (_store c) with
    | None => Raise ValueError
    | Some oldest_key =>
        Ret (with_store c (dict_set (dict_del (_store c) oldest_key)
                                    cache_key (stored, expire_at)))
    end
  else Ret (with_store c (dict_set (_store c) cache_key (stored, expire_at))).

(** [set(namespace, key, value, ttl)] when [time.monotonic()] reads [now];
    [ttl = None] takes the default.  Here the expiry is the exact sum of the
    reading and the ttl.  The code adds them as binary64 numbers
    ([set_binary64] below), which can put the stored expiry one rounding step
    away from the exact sum; what depends on the order of a clock reading
    and a stored expiry is therefore stated of the stored value. *)
Definition set (c : HFCache) (namespace : string) (key : pykey) (value : pyobj)
    (ttl : option Z) (now : Q) : outcome HFCache :=
  set_until c namespace key value (now + inject_Z (default (_default_ttl c) ttl))%Q.


(** [size] *)
Definition size (c : HFCache) : nat := length (_store c).

(** *** Facts about dicts and the cache *)

Lemma dict_get_set_eq d k e : dict_get (dict_set d k e) k = Some e.
Proof.
  induction d as [| [k' e'] d IH]; simpl.
  - by rewrite decide_True.
  - destruct (decide (k' = k)); simpl.
    + by rewrite decide_True.
    + by rewrite decide_False.
Qed.

Lemma set_until_then_lookup c ns k v expire_at c1 :
  set_until c ns k v expire_at = Ret c1 →
  dict_get (_store c1) (ns, _make_hashable k)
  = Some ((match v with PyNone => _NONE_CACHED | _ => v end), expire_at).
Proof.
  unfold set_until. destruct (_ && _).
  - destruct (min_expire_at _); [| discriminate].
    intros [= <-]. simpl. apply dict_get_set_eq.
  - intros [= <-]. simpl. apply dict_get_set_eq.
Qed.

Lemma set_then_lookup c ns k v ttl now c1 :
  set c ns k v ttl now = Ret c1 →
  dict_get (_store c1) (ns, _make_hashable k)
  = Some ((match v with PyNone => _NONE_CACHED | _ => v end),
          (now + inject_Z (default (_default_ttl c) ttl))%Q).
Proof. apply set_until_then_lookup. Qed.

Lemma set_until_returns c ns k v expire_at :
  0 ≤ _maxsize c → ∃ c1, set_until c ns k v expire_at = Ret c1.
Proof.
  intros Hm. unfold set_until.
  destruct (bool_decide (_maxsize c ≠ 0)) eqn:E1; simpl; [| eauto].
  destruct (bool_decide (_maxsize c ≤ _)) eqn:E2; simpl; [| eauto].
  apply bool_decide_eq_true in E1, E2.
  destruct (_store c) as [| first rest]; simpl in *; [lia | eauto].
Qed.

Lemma set_returns c ns k v ttl now :
  0 ≤ _maxsize c → ∃ c1, set c ns k v ttl now = Ret c1.
Proof. apply set_until_returns. Qed.


End Values.
Arguments pyobj V : clear implicits.
Arguments HFCache V : clear implicits.




(** C8 (the code departs from the claim): in a cache bounded to two entries
    that holds keys a and b, a [set] that only overwrites b removes a, the
    entry nearest to expiry, although the entry count would not have
    exceeded the bound. *)
Theorem set_overwrite_at_capacity_evicts :
  ∃ c1 c2 c3 : HFCache Z,
    set (init 300 2) "ns" (KAtom (SStr "a")) (Obj 1) (Some 10) 0 = Ret c1
    ∧ set c1 "ns" (KAtom (SStr "b")) (Obj 2) (Some 20) 0 = Ret c2
    ∧ set c2 "ns" (KAtom (SStr "b")) (Obj 3) (Some 20) 1 = Ret c3
    ∧ dict_keys (_store c2) = [("ns", KAtom (SStr "a")); ("ns", KAtom (SStr "b"))]
    ∧ dict_keys (_store c3) = [("ns", KAtom (SStr "b"))]
    ∧ size c3 = 1%nat.
Proof.
  do 3 eexists. repeat split; reflexivity.
Qed.

End Cache.

(** ** HFWatcher.py *)

Module Watcher.

(** *** Rows returned by the API *)

(** What a row holds under a key whose value the code reads as it is: no
    such key, JSON null (Python's [None]) or a value. *)
Inductive field (A : Type) : Type :=
  | Missing
  | Null
  | Val (a : A).
Arguments Missing {A}.
Arguments Null {A}.
Arguments Val {A} a.

(** [row.get(k, d)]: the default for a missing key only; [None] is Python's
    [None]. *)
Definition get_or {A} (f : field A) (d : A) : option A :=
  match f with
  | Missing => Some d
  | Null => None
  | Val a => Some a
  end.

(** The numeric fields are read through [int(row.get(k) or 0)] (the amount
    through [float]), which takes a missing key, null, zero and the empty
    text alike: for them [None] stands for all four, and a value is held as
    the number read (a text on which [int()] raises is outside this model).
    The other fields hold a text or an id, or null. *)
Record thread_row : Type := mkThread {
  t_tid : option Z;
  t_uid : field scalar;
  t_subject : field string;
  t_dateline : option Z;
  t_lastpost : option Z;
  t_numreplies : option Z
}.

Record post_row : Type := mkPost {
  p_pid : option Z;
  p_tid : option Z;
  p_uid : field scalar;
  p_subject : field string;
  p_message : field string;
  p_dateline : option Z
}.

(** [x_from_username] is what [from_data.get("username", "")] finds under
    the [from] field; it is [Missing] when there is no such field or it holds
    no dict. *)
Record tx_row : Type := mkTx {
  x_id : field scalar;
  x_amount : option Q;
  x_dateline : option Z;
  x_reason : field string;
  x_from_username : field string
}.

Record me_row : Type := mkMe {
  m_uid : option Z
}.

(** The value under a key of a reply: JSON null, one object or a list. *)
Inductive rows (A : Type) : Type :=
  | RNull
  | ROne (r : A)
  | RMany (l : list A).
Arguments RNull {A}.
Arguments ROne {A} r.
Arguments RMany {A} l.

(** The outcome of [await self._hf.read(...)] followed by the guard
    [if not data or key not in data]: [None] when the guard fires. *)
Abbreviation response A := (option (rows A)).

(** [if isinstance(x, dict): x = [x]], then [x or []]. *)
Definition or_empty {A} (r : rows A) : list A :=
  match r with
  | RNull => []
  | ROne x => [x]
  | RMany l => l
  end.

(** [int(row.get(field) or 0)] *)
Definition int_or_0 (x : option Z) : Z := default 0 x.

(** [str(row.get(k, ""))]: [str(None)] is the text ["None"]. *)
Definition str_or_empty (f : field scalar) : string :=
  match f with
  | Missing => ""
  | Null => "None"
  | Val x => str x
  end.

(** The forum API as the poll routines query it. *)
Record HFClient : Type := mkClient {
  threads_by_tid : Z → response thread_row;
  threads_by_fid : Z → response thread_row;
  threads_by_uid : Z → Z → Z → response thread_row;
  posts_by_tid : Z → Z → Z → response post_row;
  posts_by_uid : Z → Z → Z → response post_row;
  me : response me_row;
  bytes_to : Z → Z → response tx_row
}.

(** *** Events *)

(** The dict handed to the callback.  A payload of type [option string] is
    a text or Python's [None].  A text is the sequence of its characters, one
    [ascii] for each (texts are taken within the 256 characters this type
    has), so that [substring 0 200 s] is the slice [s[:200]]. *)
Inductive event : Type :=
  | thread_reply (tid : Z) (pid : option Z) (uid : option string)
      (subject : option string) (snippet : string) (dateline : Z)
  | new_thread (fid tid : Z) (uid : string) (subject : option string) (dateline : Z)
  | user_thread (uid tid : Z) (subject : option string) (dateline : Z)
  | user_post (uid tid pid : Z) (subject : option string) (snippet : string)
      (dateline : Z)
  | keyword_match (keyword : string) (fid tid : Z) (pid : option Z)
      (subject snippet : string) (dateline : Z)
  | bytes_received (id : string) (amount : Q) (reason from_user : option string)
      (dateline : Z).

Definition dateline_of (ev : event) : Z :=
  match ev with
  | thread_reply _ _ _ _ _ d
  | new_thread _ _ _ _ d
  | user_thread _ _ _ d
  | user_post _ _ _ _ _ d
  | keyword_match _ _ _ _ _ _ d
  | bytes_received _ _ _ _ d => d
  end.

(** *** Python sets *)

(** A set is kept as its distinct elements in the order they were added.
    Python does not promise any iteration order; [list(s)] is a parameter of
    the poll routines that trim a set. *)
Section PySet.
Context {A : Type} `{EqDecision A}.

(** [s.add(x)] *)
Definition set_add (s : list A) (x : A) : list A :=
  if decide (x ∈ s) then s else s ++ [x].

(** [set(l)] *)
Definition set_of_list (l : list A) : list A := foldl set_add [] l.

(** [if len(s) > cap: s = set(list(s)[-keep:])] *)
Definition trim (list_of_set : list A → list A) (cap keep : nat) (s : list A)
    : list A :=
  if decide (cap < length s)%nat
  then let l := list_of_set s in set_of_list (drop (length l - keep) l)
  else s.

End PySet.

(** [sorted(l, key=key)]: stable, ascending. *)
Section Sorted.
Context {A : Type} (key : A → Z).

Fixpoint insert_by (x : A) (l : list A) : list A :=
  match l with
  | [] => [x]
  | y :: rest => if decide (key x ≤ key y) then x :: y :: rest
                 else y :: insert_by x rest
  end.

Fixpoint sorted (l : list A) : list A :=
  match l with
  | [] => []
  | x :: rest => insert_by x (sorted rest)
  end.

End Sorted.

(** *** One poll as a computation *)

(** What a poll does that the outside can see: a callback invoked with an
    event (with the watch object as it is at that moment), a post body tested
    against the pattern. *)
Inductive action (W : Type) : Type :=
  | Called (ev : event) (now_w : W)
  | Tested (tid pid : Z).
Arguments Called {W} ev now_w.
Arguments Tested {W} tid pid.

Section Poll.
Context {W : Type}.

(** A poll step runs on the watch object and the actions so far. *)
Definition poll (A : Type) : Type :=
  W → list (action W) → outcome A * W * list (action W).

Definition ret {A} (a : A) : poll A := λ w log, (Ret a, w, log).

Definition bind {A B} (m : poll A) (k : A → poll B) : poll B :=
  λ w log,
    match m w log with
    | (Ret a, w', log') => k a w' log'
    | (Raise e, w', log') => (Raise e, w', log')
    end.

Definition raise {A} (e : exn) : poll A := λ w log, (Raise e, w, log).

Definition this : poll W := λ w log, (Ret w, w, log).

Definition update (f : W → W) : poll unit := λ w log, (Ret tt, f w, log).

(** [await w.callback(ev)]: [callback ev = false] stands for a callback that
    raises. *)
Definition await_callback (callback : event → bool) (ev : event) : poll unit :=
  λ w log,
    if callback ev then (Ret tt, w, log ++ [Called ev w])
    else (Raise CallbackError, w, log ++ [Called ev w]).

(** [w.pattern.search(message)] on the body of post [pid] of thread [tid]. *)
Definition search_post (search : string → bool) (tid pid : Z) (message : string)
    : poll bool :=
  λ w log, (Ret (search message), w, log ++ [Tested tid pid]).

Fixpoint for_each {A} (l : list A) (body : A → poll unit) : poll unit :=
  match l with
  | [] => ret tt
  | x :: rest => bind (body x) (λ _, for_each rest body)
  end.

(** The events handed to the callback, in order. *)
Definition events (log : list (action W)) : list event :=
  omap (λ a, match a with Called ev _ => Some ev | Tested _ _ => None end) log.

End Poll.
Arguments poll W A : clear implicits.

(** The thread id an event is about (0 for a transfer, which has none). *)
Definition tid_of (ev : event) : Z :=
  match ev with
  | thread_reply tid _ _ _ _ _ => tid
  | new_thread _ tid _ _ _ => tid
  | user_thread _ tid _ _ => tid
  | user_post _ tid _ _ _ _ => tid
  | keyword_match _ _ tid _ _ _ _ => tid
  | bytes_received _ _ _ _ _ => 0
  end.

Notation "'let*' x := m 'in' k" := (bind m (λ x, k))
  (at level 10, x name, m at level 100, k at level 200).

(** The result of running a poll on a watch object with an empty log. *)
Definition run_poll {W A} (m : poll W A) (w : W) : outcome A * W * list (action W) :=
  m w [].
Definition status {W A} (r : outcome A * W * list (action W)) : outcome A := r.1.1.
Definition watch {W A} (r : outcome A * W * list (action W)) : W := r.1.2.
Definition actions {W A} (r : outcome A * W * list (action W)) : list (action W) := r.2.

(** *** Facts about sets, sorting and loops *)

Lemma events_cons_called {W} ev (w : W) log :
  events (Called ev w :: log) = ev :: events log.
Proof. reflexivity. Qed.

Lemma events_cons_tested {W} tid pid (log : list (action W)) :
  events (Tested tid pid :: log) = events log.
Proof. reflexivity. Qed.

Lemma events_app {W} (log1 log2 : list (action W)) :
  events (log1 ++ log2) = events log1 ++ events log2.
Proof. apply omap_app. Qed.

Lemma for_each_nil {W A} (body : A → poll W unit) w log :
  for_each [] body w log = (Ret tt, w, log).
Proof. reflexivity. Qed.

Lemma for_each_cons {W A} (body : A → poll W unit) x l w log :
  for_each (x :: l) body w log
  = match body x w log with
    | (Ret _, w', log') => for_each l body w' log'
    | (Raise e, w', log') => (Raise e, w', log')
    end.
Proof. reflexivity. Qed.

Section SetFacts.
Context {A : Type} `{EqDecision A}.

Lemma elem_of_set_add (s : list A) x y : y ∈ set_add s x ↔ y ∈ s ∨ y = x.
Proof.
  unfold set_add. destruct (decide (x ∈ s)).
  - split; [auto | intros [? | ->]; done].
  - rewrite elem_of_app, list_elem_of_singleton. done.
Qed.

Lemma NoDup_set_add (s : list A) x : NoDup s → NoDup (set_add s x).
Proof.
  intros Hs. unfold set_add. destruct (decide (x ∈ s)); [done |].
  apply NoDup_app. split; [done |]. split; [| apply NoDup_singleton].
  intros y Hy Hx. apply list_elem_of_singleton in Hx. by subst.
Qed.

Lemma set_add_new (s : list A) x : x ∉ s → set_add s x = s ++ [x].
Proof. intros Hx. unfold set_add. by rewrite decide_False. Qed.

Lemma foldl_set_add_spec (l : list A) : ∀ s,
  NoDup s →
  NoDup (foldl set_add s l) ∧ ∀ y, y ∈ foldl set_add s l ↔ y ∈ s ∨ y ∈ l.
Proof.
  induction l as [| x l IH]; intros s Hs; simpl.
  - split; [done |]. intros y. rewrite elem_of_nil. tauto.
  - destruct (IH (set_add s x) (NoDup_set_add s x Hs)) as [Hn He].
    split; [done |]. intros y. rewrite He, elem_of_set_add, elem_of_cons. tauto.
Qed.

Lemma foldl_set_add_fresh (l : list A) : ∀ s,
  NoDup l → (∀ x, x ∈ l → x ∉ s) → foldl set_add s l = s ++ l.
Proof.
  induction l as [| x l IH]; intros s Hl Hs; simpl.
  - by rewrite app_nil_r.
  - apply NoDup_cons in Hl as [Hx Hl].
    rewrite set_add_new by (apply Hs; by left).
    rewrite IH, <- app_assoc; [done | done |].
    intros y Hy. rewrite elem_of_app, list_elem_of_singleton.
    intros [Hys | ->]; [| done]. apply (Hs y); [by right | done].
Qed.

(** Building a set from a duplicate-free list keeps the list. *)
Lemma set_of_list_NoDup (l : list A) : NoDup l → set_of_list l = l.
Proof.
  intros Hl. unfold set_of_list. rewrite foldl_set_add_fresh; [done | done |].
  intros x _. apply not_elem_of_nil.
Qed.

(** Whatever the iteration order, a trimmed set is within its cap. *)
Lemma trim_length (list_of_set : list A → list A) (cap keep : nat) (s : list A) :
  (∀ s', list_of_set s' ≡ₚ s') → NoDup s → (keep ≤ cap)%nat →
  (length (trim list_of_set cap keep s) ≤ cap)%nat.
Proof.
  intros Hperm Hs Hk. unfold trim. destruct (decide _) as [Hover |]; [| lia].
  assert (NoDup (list_of_set s)) as Hl by (by rewrite Hperm).
  rewrite set_of_list_NoDup.
  - rewrite length_drop, Hperm. lia.
  - apply (sublist_NoDup _ (list_of_set s)); [done | apply sublist_drop].
Qed.

(** Only when a set is listed in insertion order does trimming keep the
    most recently added elements. *)
Lemma trim_insertion_order (cap keep : nat) (s : list A) :
  NoDup s → (cap < length s)%nat →
  trim (λ s', s') cap keep s = drop (length s - keep) s.
Proof.
  intros Hs Hover. unfold trim. rewrite decide_True by done.
  apply set_of_list_NoDup. apply (sublist_NoDup _ s); [done | apply sublist_drop].
Qed.

End SetFacts.

Section SortedFacts.
Context {A : Type} (key : A → Z).

Definition by_key (x y : A) : Prop := key x ≤ key y.

Lemma insert_by_perm x l : insert_by key x l ≡ₚ x :: l.
Proof.
  induction l as [| y l IH]; simpl; [done |].
  destruct (decide _); [done |]. rewrite IH. apply Permutation_swap.
Qed.

Lemma sorted_perm l : sorted key l ≡ₚ l.
Proof.
  induction l as [| x l IH]; simpl; [done |].
  by rewrite insert_by_perm, IH.
Qed.

Lemma insert_by_sorted x l :
  StronglySorted by_key l → StronglySorted by_key (insert_by key x l).
Proof.
  induction l as [| y l IH]; intros Hl; simpl.
  - repeat constructor.
  - apply StronglySorted_inv in Hl as [Hl Hy].
    destruct (decide (key x ≤ key y)) as [Hxy | Hxy].
    + constructor; [by constructor |]. constructor; [done |].
      eapply Forall_impl; [exact Hy |]. unfold by_key. simpl. intros; lia.
    + constructor; [by apply IH |].
      rewrite insert_by_perm. constructor; [unfold by_key; lia | done].
Qed.

Lemma sorted_sorted l : StronglySorted by_key (sorted key l).
Proof.
  induction l as [| x l IH]; simpl; [constructor | by apply insert_by_sorted].
Qed.

Lemma sorted_keys_nondecreasing l : StronglySorted Z.le (key <$> sorted key l).
Proof.
  pose proof (sorted_sorted l) as Hs. induction Hs as [| x l' Hl IH Hx]; simpl.
  - constructor.
  - constructor; [done |]. apply Forall_fmap. done.
Qed.

End SortedFacts.

Lemma StronglySorted_sublist_le (l1 l2 : list Z) :
  sublist l1 l2 → StronglySorted Z.le l2 → StronglySorted Z.le l1.
Proof.
  intros Hsub Hs. revert l1 Hsub.
  induction Hs as [| x l2 Hl IH Hx]; intros l1 Hsub.
  - apply sublist_nil_r in Hsub as ->. constructor.
  - apply sublist_cons_r in Hsub as [Hsub | (l' & -> & Hsub)]; [by apply IH |].
    constructor; [by apply IH |].
    apply Forall_forall. intros y Hy. rewrite Forall_forall in Hx.
    apply Hx. by eapply elem_of_sublist.
Qed.

(** A property of watch object and log that every round of a loop keeps is
    kept by the loop. *)
Lemma for_each_invariant {W A} (I : W → list (action W) → Prop)
    (body : A → poll W unit) (l : list A) :
  (∀ x w log, x ∈ l → I w log → I (body x w log).1.2 (body x w log).2) →
  ∀ w log, I w log → I (for_each l body w log).1.2 (for_each l body w log).2.
Proof.
  induction l as [| x l IH]; intros Hbody w log Hi; [done |].
  rewrite for_each_cons.
  pose proof (Hbody x w log ltac:(by left) Hi) as H1.
  destruct (body x w log) as [[[[] | e] w1] log1]; simpl in *; [| done].
  apply IH; [| done]. intros y w' log' Hy. apply Hbody. by right.
Qed.

(** The creation times of the events of a log, in delivery order. *)
Definition datelines {W} (log : list (action W)) : list Z :=
  dateline_of <$> events log.

Lemma datelines_app {W} (log1 log2 : list (action W)) :
  datelines (log1 ++ log2) = datelines log1 ++ datelines log2.
Proof. unfold datelines. by rewrite events_app, fmap_app. Qed.

(** A loop whose body hands the callback at most one event, stamped with
    the key of the row at hand, delivers stamps that follow the row order. *)
Lemma for_each_datelines {W A} (key : A → Z) (body : A → poll W unit) :
  (∀ x w log, ∃ added, (body x w log).2 = log ++ added
                ∧ (datelines added = [] ∨ datelines added = [key x])) →
  ∀ l w log, ∃ added, (for_each l body w log).2 = log ++ added
               ∧ sublist (datelines added) (key <$> l).
Proof.
  intros Hbody. induction l as [| x l IH]; intros w log.
  - exists []. rewrite for_each_nil. simpl. by rewrite app_nil_r.
  - rewrite for_each_cons. destruct (Hbody x w log) as (added1 & H1 & Hd).
    destruct (body x w log) as [[st w1] log1]. simpl in H1. subst log1.
    assert (sublist (datelines added1) [key x]) as Hs1.
    { destruct Hd as [-> | ->]; [apply sublist_nil_l | done]. }
    destruct st as [[] | e].
    + destruct (IH w1 (log ++ added1)) as (added2 & -> & Hs2).
      exists (added1 ++ added2). rewrite app_assoc. split; [done |].
      rewrite datelines_app, fmap_cons.
      change (key x :: (key <$> l)) with ([key x] ++ (key <$> l)).
      by apply sublist_app.
    + exists added1. split; [done |]. rewrite fmap_cons.
      change (key x :: (key <$> l)) with ([key x] ++ (key <$> l)).
      by apply sublist_inserts_r.
Qed.

Lemma sorted_loop_nondecreasing {W A} (key : A → Z) (body : A → poll W unit) l w :
  (∀ x w log, ∃ added, (body x w log).2 = log ++ added
                ∧ (datelines added = [] ∨ datelines added = [key x])) →
  StronglySorted Z.le (datelines (for_each (sorted key l) body w []).2).
Proof.
  intros Hbody.
  destruct (for_each_datelines key body Hbody (sorted key l) w []) as (added & -> & Hs).
  simpl. eapply StronglySorted_sublist_le; [exact Hs |].
  apply sorted_keys_nondecreasing.
Qed.

(** A loop whose body leaves the log alone leaves the log alone. *)
Lemma for_each_silent {W A} (body : A → poll W unit) (l : list A) w log :
  (∀ x w' log', (body x w' log').2 = log') → (for_each l body w log).2 = log.
Proof.
  intros Hbody.
  apply (for_each_invariant (λ _ log', log' = log) body l); [| done].
  intros x w' log' _ ->. apply Hbody.
Qed.

Lemma sorted_loop_extends {W A} (key : A → Z) (body : A → poll W unit) l w log :
  (∀ x w log, ∃ added, (body x w log).2 = log ++ added
                ∧ (datelines added = [] ∨ datelines added = [key x])) →
  ∃ added, (for_each (sorted key l) body w log).2 = log ++ added
    ∧ StronglySorted Z.le (datelines added).
Proof.
  intros Hbody.
  destruct (for_each_datelines key body Hbody (sorted key l) w log) as (added & -> & Hs).
  exists added. split; [done |].
  eapply StronglySorted_sublist_le; [exact Hs |]. apply sorted_keys_nondecreasing.
Qed.

Lemma bind_silent {W A B} (m : poll W A) (k : A → poll W B) w log :
  (∀ a w' log', (k a w' log').2 = log') → (bind m k w log).2 = (m w log).2.
Proof.
  intros Hk. unfold bind. destruct (m w log) as [[[a | e] w'] log']; [| done].
  apply Hk.
Qed.

(** The order in which a hash table of 2048 slots with the identity hash
    lists integer ids that do not collide: by id modulo 2048.  This is one
    of the iteration orders a Python set can have. *)
Definition slot_order (s : list Z) : list Z := sorted (λ x, x mod 2048) s.

(** *** Thread watch *)

Module Thread.

Record _ThreadWatch : Type := mkThreadWatch {
  tid : Z;
  interval : Z;
  _last_post : Z;
  _seen_pids : list Z
}.

(** [watch_thread(tid, callback, interval)] *)
Definition watch_thread (tid interval : Z) : _ThreadWatch :=
  mkThreadWatch tid interval 0 [].

Definition see (pid : Z) (w : _ThreadWatch) : _ThreadWatch :=
  mkThreadWatch (tid w) (interval w) (_last_post w) (set_add (_seen_pids w) pid).

Definition set_last_post (lastpost : Z) (w : _ThreadWatch) : _ThreadWatch :=
  mkThreadWatch (tid w) (interval w) lastpost (_seen_pids w).

Section PollThread.
Variable list_of_set : list Z → list Z.
Variable _strip_bbcode : string → string.
Variable hf : HFClient.
Variable callback : event → bool.

Definition bound (w : _ThreadWatch) : _ThreadWatch :=
  mkThreadWatch (tid w) (interval w) (_last_post w)
                (trim list_of_set 500 250 (_seen_pids w)).

(** The body of [for post in posts]; [_strip_bbcode(None)] raises
    [TypeError] while the dict for the callback is being built. *)
Definition reply_row (subject : option string) (post : post_row)
    : poll _ThreadWatch unit :=
  let pid := int_or_0 (p_pid post) in
  let dateline := int_or_0 (p_dateline post) in
  let* w := this in
  if decide (dateline ≤ _last_post w) then ret tt
  else if decide (pid ∈ _seen_pids w) then ret tt
  else
    let* _ := update (see pid) in
    match get_or (p_message post) "" with
    | None => raise TypeError
    | Some message =>
        await_callback callback
          (thread_reply (tid w) (Some pid) (Some (str_or_empty (p_uid post))) subject
             (substring 0 200 (_strip_bbcode message)) dateline)
    end.

(** [_poll_thread(w)] *)
Definition _poll_thread : poll _ThreadWatch unit :=
  let* w := this in
  match threads_by_tid hf (tid w) with
  | None => ret tt
  | Some threads =>
      match or_empty threads with
      | [] => ret tt
      | t :: _ =>
          let lastpost := int_or_0 (t_lastpost t) in
          let numreplies := int_or_0 (t_numreplies t) in
          let subject := get_or (t_subject t) "Thread" in
          if decide (_last_post w = 0) then update (set_last_post lastpost)
          else if decide (lastpost ≤ _last_post w) then ret tt
          else
            let last_page := Z.max 1 ((numreplies + 1 + 9) / 10) in
            match posts_by_tid hf (tid w) last_page 10 with
            | None =>
                let* _ := await_callback callback
                            (thread_reply (tid w) None None subject "" lastpost) in
                update (set_last_post lastpost)
            | Some RNull => raise AttributeError
            | Some posts =>
                let* _ := for_each (sorted (λ p, int_or_0 (p_dateline p)) (or_empty posts))
                                   (reply_row subject) in
                let* _ := update (set_last_post lastpost) in
                update bound
            end
      end
  end.

End PollThread.

(** A thread of the forum with one more reply than the watch has seen. *)
Definition busy_thread (lastpost : Z) (newest : post_row) : HFClient :=
  mkClient (λ _, Some (ROne (mkThread None Missing (Val "Thread") None (Some lastpost)
                                      (Some 3))))
           (λ _, None) (λ _ _ _, None)
           (λ _ _ _, Some (RMany [newest])) (λ _ _ _, None) None (λ _ _, None).

Definition reply (pid dateline : Z) : post_row :=
  mkPost (Some pid) None Missing Missing Missing (Some dateline).

(** A watch that has announced the 500 replies 59852445 ... 59852944, in
    that order, the last of them at time 100. *)
Definition full_watch : _ThreadWatch :=
  mkThreadWatch 6083735 60 100 (seqZ 59852445 500).

Section ThreadFacts.
Variable list_of_set : list Z → list Z.
Variable _strip_bbcode : string → string.
Variable hf : HFClient.
Variable callback : event → bool.

Lemma reply_row_eq subject post w log :
  reply_row _strip_bbcode callback subject post w log
  = let pid := int_or_0 (p_pid post) in
    let dateline := int_or_0 (p_dateline post) in
    if decide (dateline ≤ _last_post w) then (Ret tt, w, log)
    else if decide (pid ∈ _seen_pids w) then (Ret tt, w, log)
    else
      match get_or (p_message post) "" with
      | None => (Raise TypeError, see pid w, log)
      | Some message =>
          let ev := thread_reply (tid w) (Some pid) (Some (str_or_empty (p_uid post)))
                      subject (substring 0 200 (_strip_bbcode message)) dateline in
          ((if callback ev then Ret tt else Raise CallbackError),
           see pid w, log ++ [Called ev (see pid w)])
      end.
Proof.
  unfold reply_row, bind, this. simpl. repeat (destruct (decide _); [done |]).
  unfold update, await_callback, raise. destruct (get_or _ _); [| done].
  by destruct (callback _).
Qed.

Lemma reply_row_stamps subject post w log :
  ∃ added, (reply_row _strip_bbcode callback subject post w log).2 = log ++ added
    ∧ (datelines added = [] ∨ datelines added = [int_or_0 (p_dateline post)]).
Proof.
  rewrite reply_row_eq. simpl.
  destruct (decide _); [exists []; rewrite app_nil_r; auto |].
  destruct (decide _); [exists []; rewrite app_nil_r; auto |].
  destruct (get_or _ _); [| exists []; rewrite app_nil_r; auto].
  eexists. split; [reflexivity |]. by right.
Qed.

(** The callbacks of one thread poll come in non-decreasing time order. *)
Lemma poll_thread_nondecreasing w :
  StronglySorted Z.le
    (datelines (actions (run_poll (_poll_thread list_of_set _strip_bbcode hf callback) w))).
Proof.
  unfold run_poll, _poll_thread, bind at 1, this.
  destruct (threads_by_tid hf (tid w)) as [threads |]; [| constructor].
  destruct (or_empty threads) as [| t _]; [constructor |].
  destruct (decide (_last_post w = 0)); [constructor |].
  destruct (decide _); [constructor |].
  destruct (posts_by_tid hf _ _ _) as [posts |].
  - assert (∀ l, StronglySorted Z.le (datelines (actions (
        (let* _ := for_each (sorted (λ p, int_or_0 (p_dateline p)) l)
                     (reply_row _strip_bbcode callback (get_or (t_subject t) "Thread")) in
         let* _ := update (set_last_post (int_or_0 (t_lastpost t))) in
         update (bound list_of_set)) w [])))) as Hloop.
    { intros l. unfold bind at 1.
      pose proof (sorted_loop_nondecreasing (λ p, int_or_0 (p_dateline p))
                    (reply_row _strip_bbcode callback (get_or (t_subject t) "Thread"))
                    l w (reply_row_stamps _)) as Hs.
      destruct (for_each _ _ _ _) as [[[[] | e] w1] log1]; exact Hs. }
    destruct posts as [| p | l]; [constructor | apply Hloop | apply Hloop].
  - unfold bind, await_callback, actions, datelines.
    destruct (callback _); simpl; repeat constructor.
Qed.

End ThreadFacts.

(** C9 (the code departs from the claim): the poll that announces reply
    59852945 brings the seen-set of [full_watch] to 501 ids and trims it to
    250.  Were a set listed in insertion order, the 250 most recent ids
    59852696 ... 59852945 would remain; listed in hash-slot order, the ids
    59852550 ... 59852799 remain and the 146 most recent ones, the reply just
    announced among them, are dropped.  When the callback raises, the poll
    ends before the trim and leaves 501 ids in the set. *)
Theorem thread_trim_drops_recent_pids :
  _seen_pids (watch (run_poll (_poll_thread (λ s, s) (λ m, m)
                                 (busy_thread 200 (reply 59852945 150)) (λ _, true))
                              full_watch))
  = seqZ 59852696 250
  ∧ _seen_pids (watch (run_poll (_poll_thread slot_order (λ m, m)
                                   (busy_thread 200 (reply 59852945 150)) (λ _, true))
                                full_watch))
    = seqZ 59852550 250
  ∧ (59852945 ∉ _seen_pids (watch (run_poll (_poll_thread slot_order (λ m, m)
                                   (busy_thread 200 (reply 59852945 150)) (λ _, true))
                                full_watch)))
  ∧ length (_seen_pids (watch (run_poll (_poll_thread slot_order (λ m, m)
                                   (busy_thread 200 (reply 59852945 150)) (λ _, false))
                                full_watch))) = 501%nat.
Proof.
  assert (_seen_pids (watch (run_poll (_poll_thread slot_order (λ m, m)
                                   (busy_thread 200 (reply 59852945 150)) (λ _, true))
                                full_watch))
          = seqZ 59852550 250) as Hslot by (vm_compute; reflexivity).
  split; [vm_compute; reflexivity |]. split; [exact Hslot |].
  split; [| vm_compute; reflexivity].
  rewrite Hslot, elem_of_seqZ. lia.
Qed.

End Thread.

(** *** Forum watch *)

Module Forum.

Record _ForumWatch : Type := mkForumWatch {
  fid : Z;
  interval : Z;
  _seen_tids : list Z;
  _initialized : bool
}.

(** [watch_forum(fid, callback, interval)] *)
Definition watch_forum (fid interval : Z) : _ForumWatch :=
  mkForumWatch fid interval [] false.

Definition see (tid : Z) (w : _ForumWatch) : _ForumWatch :=
  mkForumWatch (fid w) (interval w) (set_add (_seen_tids w) tid) (_initialized w).

Definition initialized (w : _ForumWatch) : _ForumWatch :=
  mkForumWatch (fid w) (interval w) (_seen_tids w) true.

Section PollForum.
Variable list_of_set : list Z → list Z.
Variable hf : HFClient.
Variable callback : event → bool.

Definition bound (w : _ForumWatch) : _ForumWatch :=
  mkForumWatch (fid w) (interval w) (trim list_of_set 1000 500 (_seen_tids w))
               (_initialized w).

(** The body of the seeding loop of the first poll. *)
Definition seed_row (t : thread_row) : poll _ForumWatch unit :=
  let tid := int_or_0 (t_tid t) in
  if decide (tid ≠ 0) then update (see tid) else ret tt.

(** The body of the loop of the later polls. *)
Definition emit_row (t : thread_row) : poll _ForumWatch unit :=
  let tid := int_or_0 (t_tid t) in
  let dateline := int_or_0 (t_dateline t) in
  let* w := this in
  if decide (tid = 0 ∨ tid ∈ _seen_tids w) then ret tt
  else
    let* _ := update (see tid) in
    await_callback callback
      (new_thread (fid w) tid (str_or_empty (t_uid t)) (get_or (t_subject t) "")
                  dateline).

(** [_poll_forum(w)] *)
Definition _poll_forum : poll _ForumWatch unit :=
  let* w := this in
  match threads_by_fid hf (fid w) with
  | None => ret tt
  | Some threads =>
      if negb (_initialized w) then
        let* _ := for_each (or_empty threads) seed_row in
        update initialized
      else
        let* _ :=
          for_each (sorted (λ x, int_or_0 (t_dateline x)) (or_empty threads)) emit_row in
        update bound
  end.

End PollForum.

(** The ids a run of the emitting loop announces when no callback raises:
    the non-zero ids not seen before, each at its first occurrence. *)
Fixpoint fresh (seen ids : list Z) : list Z :=
  match ids with
  | [] => []
  | x :: rest =>
      if decide (x = 0 ∨ x ∈ seen) then fresh seen rest
      else x :: fresh (seen ++ [x]) rest
  end.

Definition tids (ts : list thread_row) : list Z := (λ t, int_or_0 (t_tid t)) <$> ts.

(** A thread row that carries only an id and a creation time. *)
Definition thread (tid dateline : Z) : thread_row :=
  mkThread (Some tid) Missing Missing (Some dateline) None None.

(** A client that answers every forum query with the given thread list and
    every other query with nothing. *)
Definition forum_client (threads : list thread_row) : HFClient :=
  mkClient (λ _, None) (λ _, Some (RMany threads)) (λ _ _ _, None)
           (λ _ _ _, None) (λ _ _ _, None) None (λ _ _, None).

Definition five_threads : list thread_row :=
  [thread 101 10; thread 102 20; thread 103 30; thread 104 40; thread 105 50].

Lemma fresh_spec ids : ∀ seen x,
  x ∈ fresh seen ids ↔ x ≠ 0 ∧ (x ∉ seen) ∧ x ∈ ids.
Proof.
  induction ids as [| y ids IH]; intros seen x; simpl.
  - rewrite elem_of_nil. tauto.
  - destruct (decide (y = 0 ∨ y ∈ seen)) as [Hy | Hy].
    + rewrite IH, elem_of_cons. split; [tauto |].
      intros (H0 & Hs & [-> | Hx]); tauto.
    + rewrite elem_of_cons, IH, elem_of_app, list_elem_of_singleton, elem_of_cons.
      destruct (decide (x = y)) as [-> | Hne]; tauto.
Qed.

Lemma NoDup_fresh ids : ∀ seen, NoDup (fresh seen ids).
Proof.
  induction ids as [| y ids IH]; intros seen; simpl; [constructor |].
  destruct (decide _); [apply IH |].
  constructor; [| apply IH].
  rewrite fresh_spec, elem_of_app, list_elem_of_singleton. tauto.
Qed.

Section ForumFacts.

Lemma seed_row_eq t w log :
  seed_row t w log
  = (Ret tt, (if decide (int_or_0 (t_tid t) ≠ 0) then see (int_or_0 (t_tid t)) w else w),
     log).
Proof. unfold seed_row. by destruct (decide _). Qed.

Lemma seed_rows_spec ts : ∀ w log,
  ∃ seen', for_each ts seed_row w log
           = (Ret tt, mkForumWatch (fid w) (interval w) seen' (_initialized w), log)
    ∧ ∀ x, x ∈ seen' ↔ x ∈ _seen_tids w ∨ (x ≠ 0 ∧ x ∈ tids ts).
Proof.
  induction ts as [| t ts IH]; intros [f i seen ini] log.
  - exists seen. split; [done |]. intros x. simpl. rewrite elem_of_nil. tauto.
  - rewrite for_each_cons, seed_row_eq.
    destruct (decide (int_or_0 (t_tid t) ≠ 0)) as [Hne | Heq].
    + destruct (IH (see (int_or_0 (t_tid t)) (mkForumWatch f i seen ini)) log)
        as (seen' & -> & Hs).
      exists seen'. split; [done |]. intros x. rewrite Hs. simpl.
      rewrite elem_of_set_add, elem_of_cons.
      destruct (decide (x = int_or_0 (t_tid t))) as [-> | ?]; tauto.
    + destruct (IH (mkForumWatch f i seen ini) log) as (seen' & -> & Hs).
      exists seen'. split; [done |]. intros x. rewrite Hs. simpl.
      rewrite elem_of_cons. split; [tauto |].
      intros [? | [? [-> | ?]]]; tauto.
Qed.

Variable callback : event → bool.

Lemma emit_row_eq t w log :
  emit_row callback t w log
  = let tid := int_or_0 (t_tid t) in
    let ev := new_thread (fid w) tid (str_or_empty (t_uid t)) (get_or (t_subject t) "")
                         (int_or_0 (t_dateline t)) in
    if decide (tid = 0 ∨ tid ∈ _seen_tids w) then (Ret tt, w, log)
    else ((if callback ev then Ret tt else Raise CallbackError),
          see tid w, log ++ [Called ev (see tid w)]).
Proof.
  unfold emit_row, bind, this. simpl. destruct (decide _); [done |].
  unfold update, await_callback. by destruct (callback _).
Qed.

(** One run of the emitting loop: the ids announced are a prefix of [fresh],
    all of it unless a callback raised; every callback sees its id already
    in the seen-set. *)
Lemma emit_rows_spec ts : ∀ w log,
  ∃ st new added,
    for_each ts (emit_row callback) w log
    = (st, mkForumWatch (fid w) (interval w) (_seen_tids w ++ new) (_initialized w),
       log ++ added)
    ∧ new `prefix_of` fresh (_seen_tids w) (tids ts)
    ∧ Forall2 (λ a x, ∃ uid subj d w',
                 a = Called (new_thread (fid w) x uid subj d) w'
                 ∧ x ∈ _seen_tids w') added new
    ∧ (st = Ret tt ∧ new = fresh (_seen_tids w) (tids ts)
       ∨ st = Raise CallbackError
         ∧ ∃ ev w', last added = Some (Called ev w') ∧ callback ev = false).
Proof.
  induction ts as [| t ts IH]; intros [f i seen ini] log.
  - exists (Ret tt), [], []. rewrite !app_nil_r. simpl. repeat split; auto.
  - rewrite for_each_cons, emit_row_eq. simpl.
    destruct (decide (int_or_0 (t_tid t) = 0 ∨ int_or_0 (t_tid t) ∈ seen))
      as [Hskip | Hnew].
    { destruct (IH (mkForumWatch f i seen ini) log) as (st & new & added & H). eauto. }
    unfold see. simpl. rewrite set_add_new by tauto.
    set (tid := int_or_0 (t_tid t)) in *.
    set (ev := new_thread f tid _ _ _).
    set (w1 := mkForumWatch f i (seen ++ [tid]) ini).
    destruct (callback ev) eqn:Hcb.
    + destruct (IH w1 (log ++ [Called ev w1])) as (st & new & added & -> & Hp & Hf & Hst).
      exists st, (tid :: new), (Called ev w1 :: added). simpl in *.
      rewrite <- !app_assoc. simpl. split; [done |].
      split; [by apply prefix_cons |]. split.
      * constructor; [| done]. do 4 eexists. split; [reflexivity |].
        simpl. rewrite elem_of_app, list_elem_of_singleton. tauto.
      * destruct Hst as [[-> ->] | [-> (ev' & w' & Hl & Hc)]]; [by left | right].
        split; [done |]. exists ev', w'. split; [| done].
        destruct added; [done | done].
    + exists (Raise CallbackError), [tid], [Called ev w1]. simpl.
      split; [done |]. split; [apply prefix_cons, prefix_nil |]. split.
      * constructor; [| constructor]. do 4 eexists. split; [reflexivity |].
        simpl. rewrite elem_of_app, list_elem_of_singleton. tauto.
      * right. eauto.
Qed.

Lemma events_announced {W} (added : list (action W)) (new : list Z) (P : W → Z → Prop) f :
  Forall2 (λ a x, ∃ uid subj d w',
             a = Called (new_thread f x uid subj d) w' ∧ P w' x) added new →
  tid_of <$> events added = new.
Proof.
  induction 1 as [| a x added new (uid & subj & d & w' & -> & _) _ IH]; [done |].
  by rewrite events_cons_called, fmap_cons, IH.
Qed.

Lemma emit_row_stamps t w log :
  ∃ added, (emit_row callback t w log).2 = log ++ added
    ∧ (datelines added = [] ∨ datelines added = [int_or_0 (t_dateline t)]).
Proof.
  rewrite emit_row_eq. simpl.
  destruct (decide _); [exists []; rewrite app_nil_r; auto |].
  eexists. split; [reflexivity |]. by right.
Qed.

Variable list_of_set : list Z → list Z.

(** Whatever the API answers and the callback does, a poll announces no id
    that is in the seen-set when it starts. *)
Lemma poll_skips_seen hf w x :
  x ∈ _seen_tids w →
  x ∉ tid_of <$> events (actions (run_poll (_poll_forum list_of_set hf callback) w)).
Proof.
  intros Hx. unfold run_poll, _poll_forum, bind at 1, this.
  destruct (threads_by_fid hf (fid w)) as [threads |]; [| apply not_elem_of_nil].
  destruct (_initialized w); simpl.
  - unfold bind at 1.
    destruct (emit_rows_spec (sorted (λ x, int_or_0 (t_dateline x)) (or_empty threads))
                w []) as (st & new & added & -> & Hp & Hf & Hst).
    pose proof (events_announced added new (λ w' x, x ∈ _seen_tids w') (fid w) Hf) as Hev.
    assert (x ∉ new) as Hn.
    { intros Hin. destruct Hp as [k Hk].
      assert (x ∈ fresh (_seen_tids w) (tids (sorted (λ x, int_or_0 (t_dateline x))
                                                (or_empty threads)))) as Hfr.
      { rewrite Hk, elem_of_app. by left. }
      apply fresh_spec in Hfr. tauto. }
    destruct st; unfold update, actions; simpl; by rewrite Hev.
  - unfold bind at 1.
    destruct (seed_rows_spec (or_empty threads) w []) as (seen' & -> & _).
    simpl. apply not_elem_of_nil.
Qed.

Lemma poll_forum_first hf w threads :
  threads_by_fid hf (fid w) = Some threads → _initialized w = false →
  run_poll (_poll_forum list_of_set hf callback) w
  = match for_each (or_empty threads) seed_row w [] with
    | (Ret _, w', log') => (Ret tt, initialized w', log')
    | (Raise e, w', log') => (Raise e, w', log')
    end.
Proof.
  intros Ht Hi. unfold run_poll, _poll_forum, bind, this. rewrite Ht, Hi. simpl.
  by destruct (for_each _ _ _ _) as [[[] ?] ?].
Qed.

Lemma poll_forum_later hf w threads :
  threads_by_fid hf (fid w) = Some threads → _initialized w = true →
  run_poll (_poll_forum list_of_set hf callback) w
  = match for_each (sorted (λ x, int_or_0 (t_dateline x)) (or_empty threads))
                   (emit_row callback) w [] with
    | (Ret _, w', log') => (Ret tt, bound list_of_set w', log')
    | (Raise e, w', log') => (Raise e, w', log')
    end.
Proof.
  intros Ht Hi. unfold run_poll, _poll_forum, bind at 1, this. rewrite Ht, Hi. simpl.
  unfold bind at 1. by destruct (for_each _ _ _ _) as [[[] ?] ?].
Qed.

Lemma announced_sound w ts new x :
  new `prefix_of` fresh (_seen_tids w) (tids (sorted (λ t, int_or_0 (t_dateline t)) ts)) →
  x ∈ new → x ≠ 0 ∧ (x ∉ _seen_tids w) ∧ x ∈ tids ts.
Proof.
  intros [k Hk] Hx.
  assert (x ∈ fresh (_seen_tids w) (tids (sorted (λ t, int_or_0 (t_dateline t)) ts)))
    as Hfr by (rewrite Hk, elem_of_app; by left).
  apply fresh_spec in Hfr as (H0 & Hs & Hin). split; [done |]. split; [done |].
  unfold tids in *. by rewrite sorted_perm in Hin.
Qed.

(** The callbacks of one forum poll come in non-decreasing time order. *)
Lemma poll_forum_nondecreasing hf w :
  StronglySorted Z.le
    (datelines (actions (run_poll (_poll_forum list_of_set hf callback) w))).
Proof.
  destruct (threads_by_fid hf (fid w)) as [threads |] eqn:Ht.
  - destruct (_initialized w) eqn:Hi.
    + rewrite (poll_forum_later _ _ _ Ht Hi).
      pose proof (sorted_loop_nondecreasing (λ x, int_or_0 (t_dateline x))
                    (emit_row callback) (or_empty threads) w emit_row_stamps) as Hs.
      by destruct (for_each _ _ _ _) as [[[[] | e] w1] log1].
    + rewrite (poll_forum_first _ _ _ Ht Hi).
      destruct (seed_rows_spec (or_empty threads) w []) as (seen' & -> & _). constructor.
  - unfold run_poll, _poll_forum, bind, this. rewrite Ht. constructor.
Qed.

End ForumFacts.

(** A poll that gets the thread list of the forum.  On the first poll
    every id the rows carry (a missing or zero [tid] is no id) joins the
    seen-set and no callback is invoked.  On a later poll the callback gets
    [new_thread] events only, at most one per id and only for fetched ids
    outside the seen-set, each id being in the seen-set by the time its
    callback runs; when no callback raises, every fetched unseen id gets its
    event.  When a callback raises, its id stays in the seen-set and the next
    poll, whatever it fetches, does not announce it. *)
Lemma poll_forum_spec (list_of_set : list Z → list Z)
    (hf : HFClient) (callback : event → bool) (w : _ForumWatch)
    (threads : rows thread_row) :
  threads_by_fid hf (fid w) = Some threads →
  let r := run_poll (_poll_forum list_of_set hf callback) w in
  let fetched := tids (or_empty threads) in
  let announced := tid_of <$> events (actions r) in
  (_initialized w = false →
     status r = Ret tt ∧ actions r = [] ∧ _initialized (watch r) = true
     ∧ ∀ x, x ∈ _seen_tids (watch r) ↔ x ∈ _seen_tids w ∨ (x ≠ 0 ∧ x ∈ fetched))
  ∧ (_initialized w = true →
     Forall (λ a, ∃ x uid subj d w',
               a = Called (new_thread (fid w) x uid subj d) w' ∧ x ∈ _seen_tids w')
            (actions r)
     ∧ NoDup announced
     ∧ (∀ x, x ∈ announced → x ≠ 0 ∧ (x ∉ _seen_tids w) ∧ x ∈ fetched)
     ∧ ((∀ ev, callback ev = true) →
          status r = Ret tt
          ∧ ∀ x, x ≠ 0 → x ∉ _seen_tids w → x ∈ fetched → x ∈ announced)
     ∧ (∀ e, status r = Raise e →
          ∃ ev w', last (actions r) = Some (Called ev w') ∧ callback ev = false
            ∧ tid_of ev ∈ _seen_tids (watch r)
            ∧ ∀ hf' callback',
                tid_of ev ∉ tid_of <$> events (actions
                  (run_poll (_poll_forum list_of_set hf' callback') (watch r))))).
Proof.
  intros Hthreads r fetched announced. subst r fetched announced.
  split; intros Hini.
  - rewrite (poll_forum_first _ _ _ _ _ Hthreads Hini).
    destruct (seed_rows_spec (or_empty threads) w []) as (seen' & -> & Hs).
    unfold status, actions, watch. simpl. done.
  - rewrite (poll_forum_later _ _ _ _ _ Hthreads Hini).
    destruct (emit_rows_spec callback
                (sorted (λ x, int_or_0 (t_dateline x)) (or_empty threads)) w [])
      as (st & new & added & -> & Hp & Hf & Hst).
    pose proof (events_announced added new (λ w' x, x ∈ _seen_tids w') (fid w) Hf) as Hev.
    set (w' := mkForumWatch _ _ _ _) in *.
    assert (∀ res : outcome unit * _ForumWatch * list (action _ForumWatch),
              actions res = added → status res = st →
              (st ≠ Ret tt → watch res = w') →
      Forall (λ a, ∃ x uid subj d w',
                a = Called (new_thread (fid w) x uid subj d) w' ∧ x ∈ _seen_tids w')
             (actions res)
      ∧ NoDup (tid_of <$> events (actions res))
      ∧ (∀ x, x ∈ tid_of <$> events (actions res) →
           x ≠ 0 ∧ (x ∉ _seen_tids w) ∧ x ∈ tids (or_empty threads))
      ∧ ((∀ ev, callback ev = true) →
           status res = Ret tt
           ∧ ∀ x, x ≠ 0 → x ∉ _seen_tids w → x ∈ tids (or_empty threads) →
                  x ∈ tid_of <$> events (actions res))
      ∧ (∀ e, status res = Raise e →
           ∃ ev w', last (actions res) = Some (Called ev w') ∧ callback ev = false
             ∧ tid_of ev ∈ _seen_tids (watch res)
             ∧ ∀ hf' callback',
                 tid_of ev ∉ tid_of <$> events (actions
                   (run_poll (_poll_forum list_of_set hf' callback') (watch res)))))
      as Hall.
    { intros res -> -> Hw. rewrite Hev. split; [| split; [| split; [| split]]].
      - clear -Hf. induction Hf as [| a x added new (u & sj & d & w1 & -> & Hx) _ IH];
          constructor; eauto 10.
      - destruct Hp as [k Hk]. pose proof (NoDup_fresh
          (tids (sorted (λ x, int_or_0 (t_dateline x)) (or_empty threads)))
          (_seen_tids w)) as Hnd.
        rewrite Hk in Hnd. by apply NoDup_app in Hnd as [? _].
      - intros x. by apply announced_sound.
      - intros Hcb. destruct Hst as [[Hst ->] | [_ (ev & w1 & _ & Hc)]];
          [| rewrite Hcb in Hc; discriminate].
        split; [done |]. intros x H0 Hs Hin. apply fresh_spec.
        split; [done |]. split; [done |]. unfold tids in *. by rewrite sorted_perm.
      - intros e He. destruct Hst as [[Hst _] | [Hst (ev & w1 & Hl & Hc)]];
          [congruence |].
        exists ev, w1. split; [done |]. split; [done |].
        assert (tid_of ev ∈ new) as Hin.
        { apply last_Some_elem_of in Hl. clear -Hf Hl.
          induction Hf as [| a x added new (u & sj & d & w2 & -> & Hx) _ IH].
          - by apply elem_of_nil in Hl.
          - apply elem_of_cons in Hl as [Heq | Hl].
            + injection Heq as -> _. simpl. by left.
            + right. by apply IH. }
        assert (tid_of ev ∈ _seen_tids (watch res)) as Hseen.
        { rewrite Hw by congruence. subst w'. simpl. rewrite elem_of_app. by right. }
        split; [done |]. intros hf' callback'. by apply poll_skips_seen. }
    destruct st as [[] | e]; apply Hall; try done.
Qed.

(** The scenario of the specification: five threads on the first poll give
    no event; a sixth one appearing later gives exactly one. *)
Example sixth_thread_fires_once :
  let first := run_poll (_poll_forum (λ s, s) (forum_client five_threads) (λ _, true))
                        (watch_forum 25 120) in
  let second := run_poll (_poll_forum (λ s, s)
                            (forum_client (thread 106 60 :: five_threads)) (λ _, true))
                         (watch first) in
  events (actions first) = []
  ∧ events (actions second) = [new_thread 25 106 "" (Some "") 60].
Proof. vm_compute. done. Qed.

End Forum.

(** *** Keyword watch *)

Module Keyword.

(** A compiled pattern: its source text and its [search], as a test. *)
Record Pattern : Type := mkPattern {
  pattern_src : string;
  search : string → bool
}.

Record _KeywordWatch : Type := mkKeywordWatch {
  pattern : Pattern;
  interval : Z;
  fids : list Z;
  _seen_tids : list Z;
  _seen_pids : list Z;
  _last_check : Q
}.

Definition see_tid (tid : Z) (w : _KeywordWatch) : _KeywordWatch :=
  mkKeywordWatch (pattern w) (interval w) (fids w) (set_add (_seen_tids w) tid)
                 (_seen_pids w) (_last_check w).

Definition see_pid (pid : Z) (w : _KeywordWatch) : _KeywordWatch :=
  mkKeywordWatch (pattern w) (interval w) (fids w) (_seen_tids w)
                 (set_add (_seen_pids w) pid) (_last_check w).

Section PollKeyword.
Variable list_of_set : list Z → list Z.
Variable _strip_bbcode : string → string.
Variable hf : HFClient.
Variable callback : event → bool.
(** The reading of [time.time()] during the poll. *)
Variable now : Q.

Definition bound (w : _KeywordWatch) : _KeywordWatch :=
  mkKeywordWatch (pattern w) (interval w) (fids w)
                 (trim list_of_set 2000 1000 (_seen_tids w))
                 (trim list_of_set 2000 1000 (_seen_pids w)) (_last_check w).

(** The body of [for post in (posts or [])]; [pattern.search(None)] raises
    [TypeError]. *)
Definition scan_post (fid tid : Z) (subject : string) (post : post_row)
    : poll _KeywordWatch unit :=
  let pid := int_or_0 (p_pid post) in
  let* w := this in
  if decide (pid ∈ _seen_pids w) then ret tt
  else
    match get_or (p_message post) "" with
    | None => raise TypeError
    | Some message =>
        let* hit := search_post (search (pattern w)) tid pid message in
        if hit then
          let* _ := update (see_pid pid) in
          await_callback callback
            (keyword_match (pattern_src (pattern w)) fid tid (Some pid) subject
               (substring 0 200 (_strip_bbcode message)) (int_or_0 (p_dateline post)))
        else ret tt
    end.

(** The body of [for t in (threads or [])]. *)
Definition scan_thread (fid : Z) (t : thread_row) : poll _KeywordWatch unit :=
  let tid := int_or_0 (t_tid t) in
  let dateline := int_or_0 (t_dateline t) in
  let* w := this in
  if decide (tid = 0 ∨ tid ∈ _seen_tids w) then ret tt
  else
    match get_or (t_subject t) "" with
    | None => raise TypeError
    | Some subject =>
        if search (pattern w) subject then
          let* _ := update (see_tid tid) in
          await_callback callback
            (keyword_match (pattern_src (pattern w)) fid tid None subject subject dateline)
        else if decide (3600 < now - inject_Z dateline)%Q then update (see_tid tid)
        else
          match posts_by_tid hf tid 1 5 with
          | None => ret tt
          | Some posts =>
              let* _ := for_each (or_empty posts) (scan_post fid tid subject) in
              update (see_tid tid)
          end
    end.

(** The body of [for fid in fids]. *)
Definition scan_forum (fid : Z) : poll _KeywordWatch unit :=
  match threads_by_fid hf fid with
  | None => ret tt
  | Some threads => for_each (or_empty threads) (scan_thread fid)
  end.

(** [_poll_keyword(w)] *)
Definition _poll_keyword : poll _KeywordWatch unit :=
  let* w := this in
  match fids w with
  | [] => ret tt
  | _ =>
      let* _ := for_each (fids w) scan_forum in
      update bound
  end.

End PollKeyword.

(** The pattern that [watch_keyword(keyword, ..., case_sensitive=True)]
    compiles from a keyword of letters and digits: the keyword, found
    anywhere in the text. *)
Fixpoint contains (keyword text : string) : bool :=
  String.prefix keyword text
  || match text with
     | EmptyString => false
     | String _ rest => contains keyword rest
     end.

Definition literal (keyword : string) : Pattern :=
  mkPattern keyword (contains keyword).

(** A client with one forum and the posts of its threads. *)
Definition keyword_client (threads : list thread_row) (posts : list post_row)
    : HFClient :=
  mkClient (λ _, None) (λ _, Some (RMany threads)) (λ _ _ _, None)
           (λ _ _ _, Some (RMany posts)) (λ _ _ _, None) None (λ _ _, None).

Definition titled (tid : Z) (subject : string) (dateline : Z) : thread_row :=
  mkThread (Some tid) Missing (Val subject) (Some dateline) None None.


Definition keyword_watch (keyword : string) (fids : list Z) : _KeywordWatch :=
  mkKeywordWatch (literal keyword) 120 fids [] [] 0.


Section KeywordFacts.
Variable _strip_bbcode : string → string.
Variable hf : HFClient.
Variable callback : event → bool.
Variable now : Q.

Lemma scan_post_eq fid tid subject post w log :
  scan_post _strip_bbcode callback fid tid subject post w log
  = let pid := int_or_0 (p_pid post) in
    if decide (pid ∈ _seen_pids w) then (Ret tt, w, log)
    else
      match get_or (p_message post) "" with
      | None => (Raise TypeError, w, log)
      | Some message =>
          let ev := keyword_match (pattern_src (pattern w)) fid tid (Some pid) subject
                      (substring 0 200 (_strip_bbcode message))
                      (int_or_0 (p_dateline post)) in
          if search (pattern w) message
          then ((if callback ev then Ret tt else Raise CallbackError),
                see_pid pid w, (log ++ [Tested tid pid]) ++ [Called ev (see_pid pid w)])
          else (Ret tt, w, log ++ [Tested tid pid])
      end.
Proof.
  unfold scan_post, bind at 1, this. simpl. destruct (decide _); [done |].
  destruct (get_or _ _) as [message |]; [| done].
  unfold bind at 1, search_post. destruct (search _ _); [| done].
  unfold bind, update, await_callback. by destruct (callback _).
Qed.









Variable list_of_set : list Z → list Z.


End KeywordFacts.




End Keyword.

(** *** User watch *)

Module User.

Record _UserWatch : Type := mkUserWatch {
  uid : Z;
  interval : Z;
  mode : string;
  _seen_tids : list Z;
  _seen_pids : list Z;
  _initialized : bool
}.

(** [watch_user(uid, callback, interval, mode)] *)
Definition watch_user (uid interval : Z) (mode : string) : _UserWatch :=
  mkUserWatch uid interval mode [] [] false.

Definition see_tid (tid : Z) (w : _UserWatch) : _UserWatch :=
  mkUserWatch (uid w) (interval w) (mode w) (set_add (_seen_tids w) tid)
              (_seen_pids w) (_initialized w).

Definition see_pid (pid : Z) (w : _UserWatch) : _UserWatch :=
  mkUserWatch (uid w) (interval w) (mode w) (_seen_tids w)
              (set_add (_seen_pids w) pid) (_initialized w).

Definition initialized (w : _UserWatch) : _UserWatch :=
  mkUserWatch (uid w) (interval w) (mode w) (_seen_tids w) (_seen_pids w) true.

Section PollUser.
Variable list_of_set : list Z → list Z.
Variable _strip_bbcode : string → string.
Variable hf : HFClient.
Variable callback : event → bool.

Definition bound (w : _UserWatch) : _UserWatch :=
  mkUserWatch (uid w) (interval w) (mode w)
              (trim list_of_set 500 250 (_seen_tids w))
              (trim list_of_set 500 250 (_seen_pids w)) (_initialized w).

Definition seed_thread (t : thread_row) : poll _UserWatch unit :=
  let tid := int_or_0 (t_tid t) in
  if decide (tid ≠ 0) then update (see_tid tid) else ret tt.

Definition emit_thread (t : thread_row) : poll _UserWatch unit :=
  let tid := int_or_0 (t_tid t) in
  let dateline := int_or_0 (t_dateline t) in
  let* w := this in
  if decide (tid = 0 ∨ tid ∈ _seen_tids w) then ret tt
  else
    let* _ := update (see_tid tid) in
    await_callback callback
      (user_thread (uid w) tid (get_or (t_subject t) "") dateline).

(** The body of [for p in posts_sorted]; [_strip_bbcode(None)] raises
    [TypeError] while the dict for the callback is being built. *)
Definition check_post (p : post_row) : poll _UserWatch unit :=
  let pid := int_or_0 (p_pid p) in
  let dateline := int_or_0 (p_dateline p) in
  let* w := this in
  if decide (pid = 0) then ret tt
  else if negb (_initialized w) then update (see_pid pid)
  else if decide (pid ∈ _seen_pids w) then ret tt
  else
    let* _ := update (see_pid pid) in
    match get_or (p_message p) "" with
    | None => raise TypeError
    | Some message =>
        await_callback callback
          (user_post (uid w) (int_or_0 (p_tid p)) pid (get_or (p_subject p) "")
             (substring 0 200 (_strip_bbcode message)) dateline)
    end.

(** The thread sub-check. *)
Definition check_threads : poll _UserWatch unit :=
  let* w := this in
  match threads_by_uid hf (uid w) 1 20 with
  | None => ret tt
  | Some rows =>
      if negb (_initialized w) then for_each (or_empty rows) seed_thread
      else for_each (sorted (λ x, int_or_0 (t_dateline x)) (or_empty rows)) emit_thread
  end.

(** The post sub-check, run when [w.mode == "all"]. *)
Definition check_posts : poll _UserWatch unit :=
  let* w := this in
  if decide (mode w = "all") then
    match posts_by_uid hf (uid w) 1 20 with
    | None => ret tt
    | Some posts =>
        for_each (sorted (λ p, int_or_0 (p_dateline p)) (or_empty posts)) check_post
    end
  else ret tt.

(** [_poll_user(w)] *)
Definition _poll_user : poll _UserWatch unit :=
  let* _ := check_threads in
  let* _ := check_posts in
  let* _ := update initialized in
  update bound.

End PollUser.

(** A client that lists the threads and the posts of one user. *)
Definition user_client (threads : list thread_row) (posts : list post_row) : HFClient :=
  mkClient (λ _, None) (λ _, None) (λ _ _ _, Some (RMany threads))
           (λ _ _ _, None) (λ _ _ _, Some (RMany posts)) None (λ _ _, None).

Section UserFacts.
Variable list_of_set : list Z → list Z.
Variable _strip_bbcode : string → string.
Variable hf : HFClient.
Variable callback : event → bool.

Lemma seed_thread_eq t w log :
  seed_thread t w log
  = (Ret tt, (if decide (int_or_0 (t_tid t) ≠ 0) then see_tid (int_or_0 (t_tid t)) w else w),
     log).
Proof. unfold seed_thread. by destruct (decide _). Qed.

Lemma emit_thread_eq t w log :
  emit_thread callback t w log
  = let tid := int_or_0 (t_tid t) in
    let ev := user_thread (uid w) tid (get_or (t_subject t) "")
                          (int_or_0 (t_dateline t)) in
    if decide (tid = 0 ∨ tid ∈ _seen_tids w) then (Ret tt, w, log)
    else ((if callback ev then Ret tt else Raise CallbackError),
          see_tid tid w, log ++ [Called ev (see_tid tid w)]).
Proof.
  unfold emit_thread, bind, this. simpl. destruct (decide _); [done |].
  unfold update, await_callback. by destruct (callback _).
Qed.

Lemma check_post_eq p w log :
  check_post _strip_bbcode callback p w log
  = let pid := int_or_0 (p_pid p) in
    if decide (pid = 0) then (Ret tt, w, log)
    else if negb (_initialized w) then (Ret tt, see_pid pid w, log)
    else if decide (pid ∈ _seen_pids w) then (Ret tt, w, log)
    else
      match get_or (p_message p) "" with
      | None => (Raise TypeError, see_pid pid w, log)
      | Some message =>
          let ev := user_post (uid w) (int_or_0 (p_tid p)) pid (get_or (p_subject p) "")
                      (substring 0 200 (_strip_bbcode message))
                      (int_or_0 (p_dateline p)) in
          ((if callback ev then Ret tt else Raise CallbackError),
           see_pid pid w, log ++ [Called ev (see_pid pid w)])
      end.
Proof.
  unfold check_post, bind, this. simpl. destruct (decide _); [done |].
  destruct (negb _); [done |]. destruct (decide _); [done |].
  unfold update, await_callback, raise. destruct (get_or _ _); [| done].
  by destruct (callback _).
Qed.

Lemma emit_thread_stamps t w log :
  ∃ added, (emit_thread callback t w log).2 = log ++ added
    ∧ (datelines added = [] ∨ datelines added = [int_or_0 (t_dateline t)]).
Proof.
  rewrite emit_thread_eq. simpl.
  destruct (decide _); [exists []; rewrite app_nil_r; auto |].
  eexists. split; [reflexivity |]. by right.
Qed.

Lemma check_post_stamps p w log :
  ∃ added, (check_post _strip_bbcode callback p w log).2 = log ++ added
    ∧ (datelines added = [] ∨ datelines added = [int_or_0 (p_dateline p)]).
Proof.
  rewrite check_post_eq. simpl.
  destruct (decide _); [exists []; rewrite app_nil_r; auto |].
  destruct (negb _); [exists []; rewrite app_nil_r; auto |].
  destruct (decide _); [exists []; rewrite app_nil_r; auto |].
  destruct (get_or _ _); [| exists []; rewrite app_nil_r; auto].
  eexists. split; [reflexivity |]. by right.
Qed.

Lemma check_threads_extends w log :
  ∃ added, (check_threads hf callback w log).2 = log ++ added
    ∧ StronglySorted Z.le (datelines added).
Proof.
  unfold check_threads, bind, this. simpl.
  destruct (threads_by_uid hf (uid w) 1 20) as [rows |];
    [| exists []; rewrite app_nil_r; split; [done | constructor]].
  destruct (negb (_initialized w)).
  - exists []. rewrite app_nil_r. split; [| constructor].
    apply for_each_silent. intros t w' log'. by rewrite seed_thread_eq.
  - apply sorted_loop_extends, emit_thread_stamps.
Qed.

Lemma check_threads_mode w log :
  mode (check_threads hf callback w log).1.2 = mode w.
Proof.
  unfold check_threads, bind, this. simpl.
  destruct (threads_by_uid hf (uid w) 1 20) as [rows |]; [| done].
  destruct (negb (_initialized w)).
  - apply (for_each_invariant (λ w' _, mode w' = mode w)); [| done].
    intros t w' log' _ Hm. rewrite seed_thread_eq. simpl. by destruct (decide _).
  - apply (for_each_invariant (λ w' _, mode w' = mode w)); [| done].
    intros t w' log' _ Hm. rewrite emit_thread_eq. simpl. by destruct (decide _).
Qed.

Lemma check_posts_extends w log :
  ∃ added, (check_posts _strip_bbcode hf callback w log).2 = log ++ added
    ∧ StronglySorted Z.le (datelines added)
    ∧ (mode w ≠ "all" → added = []).
Proof.
  unfold check_posts, bind, this. simpl.
  destruct (decide (mode w = "all")) as [Hall | Hnot];
    [| exists []; rewrite app_nil_r; split; [done | split; [constructor | done]]].
  destruct (posts_by_uid hf (uid w) 1 20) as [posts |];
    [| exists []; rewrite app_nil_r; split; [done | split; [constructor | done]]].
  destruct (sorted_loop_extends (λ p, int_or_0 (p_dateline p))
              (check_post _strip_bbcode callback) (or_empty posts) w log
              check_post_stamps) as (added & Ha & Hs).
  exists added. split; [done |]. split; [done | congruence].
Qed.

(** One user poll delivers the events of the thread sub-check, then those of
    the post sub-check; each run is in non-decreasing time order, and the
    second is empty unless the mode is ["all"]. *)
Lemma poll_user_two_runs w :
  ∃ threads_part posts_part,
    datelines (actions (run_poll (_poll_user list_of_set _strip_bbcode hf callback) w))
    = threads_part ++ posts_part
    ∧ StronglySorted Z.le threads_part
    ∧ StronglySorted Z.le posts_part
    ∧ (mode w ≠ "all" → posts_part = []).
Proof.
  unfold run_poll, _poll_user, actions.
  destruct (check_threads_extends w []) as (added1 & H1 & Hs1).
  pose proof (check_threads_mode w []) as Hmode.
  unfold bind at 1.
  destruct (check_threads hf callback w []) as [[[[] | e] w1] log1];
    simpl in H1, Hmode; subst log1.
  - rewrite bind_silent.
    + destruct (check_posts_extends w1 added1) as (added2 & -> & Hs2 & Hm).
      exists (datelines added1), (datelines added2).
      rewrite datelines_app. split; [done |]. split; [done |]. split; [done |].
      intros Hne. rewrite Hm; [done | congruence].
    + intros a w' log'. unfold bind, update. done.
  - exists (datelines added1), []. simpl. rewrite app_nil_r.
    split; [done |]. split; [done |]. split; [constructor | done].
Qed.

End UserFacts.

End User.

(** *** Bytes watch *)

Module Bytes.

Record _BytesWatch : Type := mkBytesWatch {
  interval : Z;
  _seen_ids : list string;
  _initialized : bool;
  _my_uid : option Z
}.

(** [watch_bytes(callback, interval)] *)
Definition watch_bytes (interval : Z) : _BytesWatch :=
  mkBytesWatch interval [] false None.

Definition see (txid : string) (w : _BytesWatch) : _BytesWatch :=
  mkBytesWatch (interval w) (set_add (_seen_ids w) txid) (_initialized w) (_my_uid w).

Definition initialized (w : _BytesWatch) : _BytesWatch :=
  mkBytesWatch (interval w) (_seen_ids w) true (_my_uid w).

Definition resolved (uid_val : Z) (w : _BytesWatch) : _BytesWatch :=
  mkBytesWatch (interval w) (_seen_ids w) (_initialized w) (Some uid_val).

Section PollBytes.
Variable hf : HFClient.
Variable callback : event → bool.

(** The [if w._my_uid is None] block; [None] stands for its early returns. *)
Definition resolve_uid : poll _BytesWatch (option Z) :=
  let* w := this in
  match _my_uid w with
  | Some my_uid => ret (Some my_uid)
  | None =>
      match me hf with
      | None => ret None
      | Some RNull => raise AttributeError
      | Some (RMany []) => ret None
      | Some (ROne me_data) | Some (RMany (me_data :: _)) =>
          let uid_val := int_or_0 (m_uid me_data) in
          if decide (uid_val = 0) then ret None
          else
            let* _ := update (resolved uid_val) in
            ret (Some uid_val)
      end
  end.

Definition seed_tx (tx : tx_row) : poll _BytesWatch unit :=
  let txid := str_or_empty (x_id tx) in
  if decide (txid ≠ "") then update (see txid) else ret tt.

Definition emit_tx (tx : tx_row) : poll _BytesWatch unit :=
  let txid := str_or_empty (x_id tx) in
  let* w := this in
  if decide (txid = "" ∨ txid ∈ _seen_ids w) then ret tt
  else
    let* _ := update (see txid) in
    await_callback callback
      (bytes_received txid (default 0%Q (x_amount tx)) (get_or (x_reason tx) "")
         (get_or (x_from_username tx) "") (int_or_0 (x_dateline tx))).

(** [_poll_bytes(w)] *)
Definition _poll_bytes : poll _BytesWatch unit :=
  let* my_uid := resolve_uid in
  match my_uid with
  | None => ret tt
  | Some my_uid =>
      match bytes_to hf my_uid 20 with
      | None => ret tt
      | Some txs =>
          let* w := this in
          if negb (_initialized w) then
            let* _ := for_each (or_empty txs) seed_tx in
            update initialized
          else
            for_each (sorted (λ x, int_or_0 (x_dateline x)) (or_empty txs)) emit_tx
      end
  end.

End PollBytes.

Section BytesFacts.
Variable hf : HFClient.
Variable callback : event → bool.

Lemma resolve_uid_silent w log : (resolve_uid hf w log).2 = log.
Proof.
  unfold resolve_uid, bind, this. simpl.
  destruct (_my_uid w); [done |].
  destruct (me hf) as [[| me_data | [| me_data rest]] |]; try done;
    by destruct (decide _).
Qed.

Lemma seed_tx_eq tx w log :
  seed_tx tx w log
  = (Ret tt, (if decide (str_or_empty (x_id tx) ≠ "") then see (str_or_empty (x_id tx)) w
              else w), log).
Proof. unfold seed_tx. by destruct (decide _). Qed.

Lemma emit_tx_eq tx w log :
  emit_tx callback tx w log
  = let txid := str_or_empty (x_id tx) in
    let ev := bytes_received txid (default 0%Q (x_amount tx)) (get_or (x_reason tx) "")
                (get_or (x_from_username tx) "") (int_or_0 (x_dateline tx)) in
    if decide (txid = "" ∨ txid ∈ _seen_ids w) then (Ret tt, w, log)
    else ((if callback ev then Ret tt else Raise CallbackError),
          see txid w, log ++ [Called ev (see txid w)]).
Proof.
  unfold emit_tx, bind, this. simpl. destruct (decide _); [done |].
  unfold update, await_callback. by destruct (callback _).
Qed.

Lemma emit_tx_stamps tx w log :
  ∃ added, (emit_tx callback tx w log).2 = log ++ added
    ∧ (datelines added = [] ∨ datelines added = [int_or_0 (x_dateline tx)]).
Proof.
  rewrite emit_tx_eq. simpl.
  destruct (decide _); [exists []; rewrite app_nil_r; auto |].
  eexists. split; [reflexivity |]. by right.
Qed.

(** The callbacks of one bytes poll come in non-decreasing time order. *)
Lemma poll_bytes_nondecreasing w :
  StronglySorted Z.le (datelines (actions (run_poll (_poll_bytes hf callback) w))).
Proof.
  unfold run_poll, _poll_bytes, actions, bind at 1.
  pose proof (resolve_uid_silent w []) as Hr.
  destruct (resolve_uid hf w []) as [[[[my_uid |] | e] w1] log1]; simpl in Hr; subst log1;
    try constructor.
  destruct (bytes_to hf my_uid 20) as [txs |]; [| constructor].
  unfold bind at 1, this.
  destruct (negb (_initialized w1)).
  - rewrite bind_silent by done.
    rewrite for_each_silent; [constructor |].
    intros tx w' log'. by rewrite seed_tx_eq.
  - apply sorted_loop_nondecreasing, emit_tx_stamps.
Qed.

End BytesFacts.

End Bytes.

(** *** Order of delivery within one poll *)

(** A loop whose body hands the callback only events that satisfy [P] hands
    it only such events. *)
Lemma for_each_events {W A} (P : event → Prop) (body : A → poll W unit) (l : list A) :
  (∀ x w log, ∃ added, (body x w log).2 = log ++ added ∧ Forall P (events added)) →
  ∀ w log, ∃ added, (for_each l body w log).2 = log ++ added ∧ Forall P (events added).
Proof.
  intros Hbody w log.
  apply (for_each_invariant
           (λ _ log', ∃ added, log' = log ++ added ∧ Forall P (events added))).
  - intros x w' log' _ (added & -> & Hev).
    destruct (Hbody x w' (log ++ added)) as (added' & -> & Hev').
    exists (added ++ added'). rewrite app_assoc. split; [done |].
    rewrite events_app, Forall_app. done.
  - exists []. rewrite app_nil_r. split; [done | constructor].
Qed.

(** A loop whose body at [x] hands over events filed, in order, under some
    of the places [f x] hands them over in the order of the places of the
    whole list. *)
Lemma for_each_places {W A K} (place : event → K) (f : A → list K)
    (body : A → poll W unit) :
  (∀ x w log, ∃ added, (body x w log).2 = log ++ added
                ∧ sublist (place <$> events added) (f x)) →
  ∀ l w log, ∃ added, (for_each l body w log).2 = log ++ added
               ∧ sublist (place <$> events added) (l ≫= f).
Proof.
  intros Hbody. induction l as [| x l IH]; intros w log.
  - exists []. rewrite for_each_nil. simpl. by rewrite app_nil_r.
  - rewrite for_each_cons. destruct (Hbody x w log) as (added1 & H1 & Hs1).
    destruct (body x w log) as [[st w1] log1]. simpl in H1. subst log1.
    change ((x :: l) ≫= f) with (f x ++ (l ≫= f)).
    destruct st as [[] | e].
    + destruct (IH w1 (log ++ added1)) as (added2 & -> & Hs2).
      exists (added1 ++ added2). rewrite app_assoc. split; [done |].
      rewrite events_app, fmap_app. by apply sublist_app.
    + exists added1. split; [done |]. by apply sublist_inserts_r.
Qed.

Definition is_user_thread (ev : event) : Prop :=
  match ev with
  | user_thread _ _ _ _ => True
  | _ => False
  end.

Definition is_user_post (ev : event) : Prop :=
  match ev with
  | user_post _ _ _ _ _ _ => True
  | _ => False
  end.

(** The forum, the thread and, for a post, the post that a keyword event
    is about. *)
Definition place_of (ev : event) : Z * Z * option Z :=
  match ev with
  | keyword_match _ fid tid pid _ _ _ => (fid, tid, pid)
  | _ => (0, tid_of ev, None)
  end.

(** The places a keyword poll can find a match at, in the order in which it
    visits them: forum by forum as the watch lists them, thread by thread as
    the forum query returns them, the subject and then post by post as the
    posts query returns them. *)
Definition fetch_order (hf : HFClient) (fids : list Z) : list (Z * Z * option Z) :=
  fids ≫= λ fid,
    match threads_by_fid hf fid with
    | None => []
    | Some threads =>
        or_empty threads ≫= λ t,
          let tid := int_or_0 (t_tid t) in
          (fid, tid, None)
          :: match posts_by_tid hf tid 1 5 with
             | None => []
             | Some posts =>
                 or_empty posts ≫= λ post, [(fid, tid, Some (int_or_0 (p_pid post)))]
             end
    end.

Section OrderFacts.
Variable list_of_set : list Z → list Z.
Variable _strip_bbcode : string → string.
Variable hf : HFClient.
Variable callback : event → bool.

Lemma check_threads_kind w log :
  ∃ added, (User.check_threads hf callback w log).2 = log ++ added
    ∧ Forall is_user_thread (events added).
Proof.
  unfold User.check_threads, bind, this. simpl.
  destruct (threads_by_uid hf (User.uid w) 1 20) as [rows |];
    [| exists []; rewrite app_nil_r; split; [done | constructor]].
  destruct (negb (User._initialized w)).
  - apply for_each_events. intros t w' log'. rewrite User.seed_thread_eq.
    exists []. rewrite app_nil_r. split; [done | constructor].
  - apply for_each_events. intros t w' log'. rewrite User.emit_thread_eq. cbn zeta.
    destruct (decide _); [exists []; rewrite app_nil_r; split; [done | constructor] |].
    eexists. split; [reflexivity |]. repeat constructor.
Qed.

Lemma check_posts_kind w log :
  ∃ added, (User.check_posts _strip_bbcode hf callback w log).2 = log ++ added
    ∧ Forall is_user_post (events added).
Proof.
  unfold User.check_posts, bind, this. simpl.
  destruct (decide (User.mode w = "all"));
    [| exists []; rewrite app_nil_r; split; [done | constructor]].
  destruct (posts_by_uid hf (User.uid w) 1 20) as [posts |];
    [| exists []; rewrite app_nil_r; split; [done | constructor]].
  apply for_each_events. intros p w' log'. rewrite User.check_post_eq. cbn zeta.
  destruct (decide _); [exists []; rewrite app_nil_r; split; [done | constructor] |].
  destruct (negb _); [exists []; rewrite app_nil_r; split; [done | constructor] |].
  destruct (decide _); [exists []; rewrite app_nil_r; split; [done | constructor] |].
  destruct (get_or _ _); [| exists []; rewrite app_nil_r; split; [done | constructor]].
  eexists. split; [reflexivity |]. repeat constructor.
Qed.

(** One user poll delivers the events of the thread sub-check, all of them
    [user_thread] events, and then those of the post sub-check, all of them
    [user_post] events; each run is in non-decreasing time order, and the
    second is empty unless the mode is ["all"]. *)
Lemma poll_user_threads_then_posts w :
  ∃ thread_events post_events,
    events (actions (run_poll (User._poll_user list_of_set _strip_bbcode hf callback) w))
    = thread_events ++ post_events
    ∧ Forall is_user_thread thread_events
    ∧ Forall is_user_post post_events
    ∧ StronglySorted Z.le (dateline_of <$> thread_events)
    ∧ StronglySorted Z.le (dateline_of <$> post_events)
    ∧ (User.mode w ≠ "all" → post_events = []).
Proof.
  unfold run_poll, User._poll_user, actions.
  destruct (User.check_threads_extends hf callback w []) as (added1 & H1 & Hs1).
  destruct (check_threads_kind w []) as (added1' & H1' & Hk1).
  assert (added1' = added1) as -> by (rewrite H1 in H1'; by apply app_inv_head in H1').
  pose proof (User.check_threads_mode hf callback w []) as Hmode.
  unfold bind at 1.
  destruct (User.check_threads hf callback w []) as [[[[] | e] w1] log1];
    simpl in H1, Hmode; subst log1.
  - rewrite bind_silent.
    + destruct (User.check_posts_extends _strip_bbcode hf callback w1 added1)
        as (added2 & H2 & Hs2 & Hm).
      destruct (check_posts_kind w1 added1) as (added2' & H2' & Hk2).
      assert (added2' = added2) as ->
        by (rewrite H2 in H2'; by apply app_inv_head in H2').
      rewrite H2. exists (events added1), (events added2).
      rewrite events_app. split; [done |]. split; [done |]. split; [done |].
      split; [done |]. split; [done |].
      intros Hne. rewrite Hm; [done | congruence].
    + intros a w' log'. unfold bind, update. done.
  - exists (events added1), []. simpl. rewrite app_nil_r.
    split; [done |]. split; [done |]. split; [constructor |].
    split; [done |]. split; [constructor | done].
Qed.

Variable now : Q.

Lemma scan_post_place fid tid subject post w log :
  ∃ added, (Keyword.scan_post _strip_bbcode callback fid tid subject post w log).2
           = log ++ added
    ∧ sublist (place_of <$> events added) [(fid, tid, Some (int_or_0 (p_pid post)))].
Proof.
  rewrite Keyword.scan_post_eq. cbn zeta.
  destruct (decide _); [exists []; rewrite app_nil_r; split; [done | apply sublist_nil_l] |].
  destruct (get_or _ _) as [message |];
    [| exists []; rewrite app_nil_r; split; [done | apply sublist_nil_l]].
  destruct (Keyword.search _ _); cbn [fst snd].
  - eexists. rewrite <- app_assoc. split; [reflexivity |]. done.
  - eexists. split; [reflexivity |]. apply sublist_nil_l.
Qed.

Lemma scan_thread_place fid t w log :
  ∃ added, (Keyword.scan_thread _strip_bbcode hf callback now fid t w log).2
           = log ++ added
    ∧ sublist (place_of <$> events added)
        ((fid, int_or_0 (t_tid t), None)
         :: match posts_by_tid hf (int_or_0 (t_tid t)) 1 5 with
            | None => []
            | Some posts =>
                or_empty posts ≫= λ post,
                  [(fid, int_or_0 (t_tid t), Some (int_or_0 (p_pid post)))]
            end).
Proof.
  destruct (Keyword.scan_thread _strip_bbcode hf callback now fid t w log)
    as [[st w1] log1] eqn:E.
  cbn [fst snd]. unfold Keyword.scan_thread, bind at 1, this in E. cbn zeta in E.
  assert (∀ places : list (Z * Z * option Z),
            ∃ added : list (action Keyword._KeywordWatch),
              log = log ++ added ∧ sublist (place_of <$> events added) places) as Hquiet.
  { intros places. exists []. rewrite app_nil_r. split; [done | apply sublist_nil_l]. }
  destruct (decide (int_or_0 (t_tid t) = 0 ∨ _)).
  { injection E as <- <- <-. apply Hquiet. }
  destruct (get_or (t_subject t) "") as [subject |];
    [| injection E as <- <- <-; apply Hquiet].
  destruct (Keyword.search _ _).
  { unfold bind, update, await_callback in E.
    destruct (callback _); injection E as <- <- <-;
      (eexists; split; [reflexivity |]; apply sublist_skip, sublist_nil_l). }
  destruct (decide _).
  { injection E as <- <- <-. apply Hquiet. }
  destruct (posts_by_tid _ _ _ _) as [posts |];
    [| injection E as <- <- <-; apply Hquiet].
  unfold bind at 1 in E.
  destruct (for_each_places place_of
              (λ post, [(fid, int_or_0 (t_tid t), Some (int_or_0 (p_pid post)))])
              (Keyword.scan_post _strip_bbcode callback fid (int_or_0 (t_tid t)) subject)
              (scan_post_place fid (int_or_0 (t_tid t)) subject)
              (or_empty posts) w log) as (added & Hlog & Hs).
  destruct (for_each _ _ _ _) as [[[[] | e] w2] log2]; cbn [fst snd] in *;
    injection E as <- <- <-; (exists added; split; [done | by apply sublist_cons]).
Qed.

(** The events of one keyword poll come in the order in which the poll
    visits forums, threads and posts. *)
Lemma poll_keyword_in_fetch_order w :
  sublist (place_of <$> events (actions (run_poll
             (Keyword._poll_keyword list_of_set _strip_bbcode hf callback now) w)))
          (fetch_order hf (Keyword.fids w)).
Proof.
  unfold run_poll, actions, Keyword._poll_keyword, bind at 1, this.
  destruct (Keyword.fids w) as [| f fs] eqn:Hf; [done |].
  unfold bind at 1.
  destruct (for_each_places place_of
              (λ fid, match threads_by_fid hf fid with
                      | None => []
                      | Some threads =>
                          or_empty threads ≫= λ t,
                            (fid, int_or_0 (t_tid t), None)
                            :: match posts_by_tid hf (int_or_0 (t_tid t)) 1 5 with
                               | None => []
                               | Some posts =>
                                   or_empty posts ≫= λ post,
                                     [(fid, int_or_0 (t_tid t),
                                       Some (int_or_0 (p_pid post)))]
                               end
                      end)
              (Keyword.scan_forum _strip_bbcode hf callback now)) with (l := f :: fs)
    (w := w) (log := @nil (action Keyword._KeywordWatch)) as (added & Hlog & Hs).
  { intros fid w' log'. unfold Keyword.scan_forum.
    destruct (threads_by_fid hf fid) as [threads |].
    - apply for_each_places. intros t w'' log''. apply scan_thread_place.
    - exists []. rewrite app_nil_r. split; [done | apply sublist_nil_l]. }
  destruct (for_each _ _ _ _) as [[[[] | e] w1] log1]; cbn [fst snd app] in *;
    subst log1; exact Hs.
Qed.

End OrderFacts.

(** C7, as the code has it: the events of one poll of a thread, forum or
    bytes watch reach the callback in non-decreasing time order.  One poll of
    a user watch delivers the [user_thread] events of its thread sub-check and
    then the [user_post] events of its post sub-check, each run in
    non-decreasing time order; outside mode ["all"] the second run is empty,
    so the whole poll is ordered.  One poll of a keyword watch delivers its
    events in the order in which it visits forums, threads and posts. *)
Theorem sorted_polls_deliver_in_time_order (list_of_set : list Z → list Z)
    (_strip_bbcode : string → string) (hf : HFClient) (callback : event → bool) :
  (∀ w, StronglySorted Z.le
          (datelines (actions (run_poll
             (Thread._poll_thread list_of_set _strip_bbcode hf callback) w))))
  ∧ (∀ w, StronglySorted Z.le
            (datelines (actions (run_poll
               (Forum._poll_forum list_of_set hf callback) w))))
  ∧ (∀ w, StronglySorted Z.le
            (datelines (actions (run_poll (Bytes._poll_bytes hf callback) w))))
  ∧ (∀ w, ∃ thread_events post_events,
       events (actions (run_poll
          (User._poll_user list_of_set _strip_bbcode hf callback) w))
       = thread_events ++ post_events
       ∧ Forall is_user_thread thread_events
       ∧ Forall is_user_post post_events
       ∧ StronglySorted Z.le (dateline_of <$> thread_events)
       ∧ StronglySorted Z.le (dateline_of <$> post_events)
       ∧ (User.mode w ≠ "all" → post_events = []))
  ∧ (∀ now w,
       sublist (place_of <$> events (actions (run_poll
                  (Keyword._poll_keyword list_of_set _strip_bbcode hf callback now) w)))
               (fetch_order hf (Keyword.fids w))).
Proof.
  split; [| split; [| split; [| split]]].
  - apply Thread.poll_thread_nondecreasing.
  - intros w. apply Forum.poll_forum_nondecreasing.
  - apply Bytes.poll_bytes_nondecreasing.
  - apply poll_user_threads_then_posts.
  - intros now w. apply poll_keyword_in_fetch_order.
Qed.

(** C7 fails as stated: a keyword poll that finds two matching subjects in
    one forum delivers them in the order fetched, the later thread first; a
    user poll in mode ["all"] delivers a thread event stamped 500 before a
    post event stamped 100. *)
Lemma keyword_and_user_polls_out_of_time_order :
  ¬ StronglySorted Z.le
      (datelines (actions (run_poll
         (Keyword._poll_keyword (λ s, s) (λ m, m)
            (Keyword.keyword_client [Keyword.titled 901 "leak one" 200;
                                     Keyword.titled 902 "second leak" 100] [])
            (λ _, true) 5100)
         (Keyword.keyword_watch "leak" [25]))))
  ∧ ¬ StronglySorted Z.le
        (datelines (actions (run_poll
           (User._poll_user (λ s, s) (λ m, m)
              (User.user_client [Forum.thread 50 500] [Thread.reply 60 100])
              (λ _, true))
           (User.mkUserWatch 761578 120 "all" [] [] true)))).
Proof.
  split.
  - replace (datelines _) with [200; 100] by (vm_compute; reflexivity).
    intros Hs. apply StronglySorted_inv in Hs as [_ Hf].
    apply Forall_cons in Hf as [Hle _]. lia.
  - replace (datelines _) with [500; 100] by (vm_compute; reflexivity).
    intros Hs. apply StronglySorted_inv in Hs as [_ Hf].
    apply Forall_cons in Hf as [Hle _]. lia.
Qed.

End Watcher.

(** ** HFEventStore.py: bulk seeding and maintenance *)

Module StoreOps.
Import EventStore.

(** [executemany("INSERT OR IGNORE ...", rows)]: the table and the summed
    row count, one per row really inserted. *)
Fixpoint insert_many (t : table) (ns k : string) (ids : list string) (seen_at : Z)
    : table * nat :=
  match ids with
  | [] => (t, O)
  | e :: rest =>
      match t !! (ns, k, e) with
      | Some _ => insert_many t ns k rest seen_at
      | None =>
          let '(t', n) := insert_many (<[(ns, k, e) := seen_at]> t) ns k rest seen_at in
          (t', S n)
      end
  end.

(** [add_many(namespace, key, event_ids)] at wall-clock time [now]. *)
Definition add_many (s : HFEventStore) (namespace : string) (key : scalar)
    (event_ids : list scalar) (now : Z) : nat * HFEventStore :=
  match event_ids with
  | [] => (O, s)
  | _ =>
      let '(t, inserted) :=
        insert_many (conn s) namespace (str key) (str <$> event_ids) now in
      (inserted, commit s t)
  end.

(** [DELETE FROM events WHERE ...]: the rows that stay, and [rowcount]. *)
Definition delete_where (P : pk * Z → Prop) `{!∀ row, Decision (P row)} (t : table)
    : table * nat :=
  (filter (λ row, ¬ P row) t, size (filter P t)).

(** [purge_old(days)] when [int(time.time())] reads [now]. *)
Definition purge_old (s : HFEventStore) (days now : Z) : nat * HFEventStore :=
  let cutoff := now - days * 86400 in
  let '(t, deleted) := delete_where (λ row, row.2 < cutoff) (conn s) in
  (deleted, commit s t).

(** Python truth of the optional arguments of [clear]. *)
Definition truthy_str (x : option string) : bool :=
  match x with
  | Some s => bool_decide (s ≠ "")
  | None => false
  end.

Definition truthy (x : option scalar) : bool :=
  match x with
  | Some (SStr s) => bool_decide (s ≠ "")
  | Some (SInt n) => bool_decide (n ≠ 0)
  | None => false
  end.

(** The rows a call of [clear(namespace, key)] deletes. *)
Definition cleared (namespace : option string) (key : option scalar) (row : pk * Z)
    : Prop :=
  if truthy_str namespace && truthy key
  then Some row.1.1.1 = namespace ∧ Some row.1.1.2 = str <$> key
  else if truthy_str namespace then Some row.1.1.1 = namespace
  else True.

#[global] Instance cleared_dec namespace key row : Decision (cleared namespace key row).
Proof. unfold cleared. destruct (_ && _); [| destruct (truthy_str _)]; apply _. Defined.

(** [clear(namespace, key)] *)
Definition clear (s : HFEventStore) (namespace : option string) (key : option scalar)
    : nat * HFEventStore :=
  let '(t, deleted) := delete_where (cleared namespace key) (conn s) in
  (deleted, commit s t).

(** [stats()]: a dict from namespace to row count. *)
Definition stats (s : HFEventStore) : gmap string nat :=
  map_fold (λ (key : pk) (_ : Z) (counts : gmap string nat),
              <[key.1.1 := S (default O (counts !! key.1.1))]> counts)
           ∅ (conn s).

(** The rows of one (namespace, key). *)
Definition in_scope (ns k : string) (row : pk * Z) : Prop :=
  row.1.1.1 = ns ∧ row.1.1.2 = k.

#[global] Instance in_scope_dec ns k row : Decision (in_scope ns k row).
Proof. unfold in_scope. apply _. Defined.

Definition older_or_same (r1 r2 : pk * Z) : Prop := r1.2 ≤ r2.2.

#[global] Instance older_or_same_dec r1 r2 : Decision (older_or_same r1 r2).
Proof. unfold older_or_same. apply _. Defined.

Section Prune.
(** The order in which the engine walks the table; SQL leaves the order of
    rows with equal [seen_at] open. *)
Variable scan : table → list (pk * Z).

(** [SELECT rowid FROM events WHERE namespace=? AND key=? ORDER BY seen_at ASC] *)
Definition oldest_first (ns k : string) (t : table) : list (pk * Z) :=
  merge_sort older_or_same (filter (in_scope ns k) (scan t)).

(** [prune(namespace, key, keep)] *)
Definition prune (s : HFEventStore) (namespace : string) (key : scalar) (keep : Z)
    : nat * HFEventStore :=
  let total := Z.of_nat (size (filter (in_scope namespace (str key)) (conn s))) in
  if decide (total ≤ keep) then (O, s)
  else
    let delete_count := total - keep in
    let victims := take (Z.to_nat delete_count)
                        (oldest_first namespace (str key) (conn s)) in
    (length victims, commit s (foldr (λ row t, delete row.1 t) (conn s) victims)).

End Prune.

(** *** Seeding *)

(** The primary keys [add_many] tries to insert. *)
Definition offered (ns k : string) (ids : list string) (key : pk) : Prop :=
  key.1.1 = ns ∧ key.1.2 = k ∧ key.2 ∈ ids.

Lemma size_add_fresh (X : gset string) (e : string) :
  size ({[e]} ∪ X) = S (size (X ∖ {[e]})).
Proof.
  replace ({[e]} ∪ X) with ({[e]} ∪ X ∖ {[e]}).
  - rewrite size_union.
    + by rewrite size_singleton.
    + apply disjoint_singleton_l. rewrite elem_of_difference, elem_of_singleton. tauto.
  - apply set_eq. intros x. rewrite !elem_of_union, elem_of_difference,
      elem_of_singleton. destruct (decide (x = e)); tauto.
Qed.

Lemma insert_many_spec ns k ids now : ∀ t,
  (∀ key, (insert_many t ns k ids now).1 !! key
          = match t !! key with
            | Some v => Some v
            | None => if decide (offered ns k ids key) then Some now else None
            end)
  ∧ (insert_many t ns k ids now).2
    = size (list_to_set (filter (λ e, t !! (ns, k, e) = None) ids) : gset string).
Proof.
  induction ids as [| e ids IH]; intros t; simpl.
  - split; [| done]. intros key. destruct (t !! key); [done |].
    rewrite decide_False; [done |]. intros (_ & _ & He). by apply elem_of_nil in He.
  - destruct (t !! (ns, k, e)) as [v |] eqn:Ht.
    + destruct (IH t) as [Hl Hn]. split.
      * intros key. rewrite Hl. destruct (t !! key) eqn:Hk; [done |].
        destruct (decide (offered ns k ids key)) as [(? & ? & ?) | Hno].
        -- rewrite decide_True; [done |]. repeat split; try done. by right.
        -- rewrite decide_False; [done |]. intros (H1 & H2 & He0).
           apply elem_of_cons in He0 as [He0 | ?]; [| by apply Hno].
           destruct key as [[ns' k'] e']. simpl in *. congruence.
      * rewrite Hn. rewrite filter_cons_False; [done |]. by rewrite Ht.
    + specialize (IH (<[(ns, k, e) := now]> t)).
      destruct (insert_many _ ns k ids now) as [t' n]. simpl in *.
      destruct IH as [Hl Hn]. split.
      * intros key. rewrite Hl. destruct (decide ((ns, k, e) = key)) as [<- | Hne].
        -- rewrite lookup_insert_eq, Ht. rewrite decide_True; [done |].
           repeat split; try done. by left.
        -- rewrite lookup_insert_ne by done. destruct (t !! key); [done |].
           destruct (decide (offered ns k ids key)) as [(? & ? & ?) | Hno].
           ++ rewrite decide_True; [done |]. repeat split; try done. by right.
           ++ rewrite decide_False; [done |]. intros (H1 & H2 & He0).
              apply elem_of_cons in He0 as [He0 | ?]; [| by apply Hno].
              destruct key as [[ns' k'] e']. simpl in *. congruence.
      * rewrite Hn. rewrite filter_cons_True by done.
        rewrite list_to_set_cons.
        set (X := list_to_set (filter (λ e0, t !! (ns, k, e0) = None) ids) : gset string).
        assert ((list_to_set (filter (λ e0, <[(ns, k, e) := now]> t !! (ns, k, e0) = None)
                                     ids) : gset string) = X ∖ {[e]}) as ->.
        { apply set_eq. intros x. unfold X.
          rewrite elem_of_difference, !elem_of_list_to_set, !list_elem_of_filter,
            elem_of_singleton.
          destruct (decide (x = e)) as [-> | Hne].
          - rewrite lookup_insert_eq. split; [intros [? _]; done | tauto].
          - rewrite lookup_insert_ne by congruence. tauto. }
        symmetry. apply size_add_fresh.
Qed.

Lemma add_many_lookup s ns k ids now key :
  conn (add_many s ns k ids now).2 !! key
  = match conn s !! key with
    | Some v => Some v
    | None => if decide (offered ns (str k) (str <$> ids) key) then Some now else None
    end.
Proof.
  unfold add_many. destruct ids as [| i0 ids0].
  - simpl. destruct (conn s !! key); [done |].
    rewrite decide_False; [done |]. intros (_ & _ & He). by apply elem_of_nil in He.
  - destruct (insert_many_spec ns (str k) (str <$> i0 :: ids0) now (conn s)) as [Hl _].
    destruct (insert_many _ _ _ _ _) as [t n]. simpl in *. apply Hl.
Qed.

(** [add_many] returns the number of distinct ids that were not in the
    store; afterwards the store has, for this (namespace, key), what it had
    and every id of the list, so that [filter_new], when the list fits into
    its one statement, finds nothing new in it and [add_if_new] answers
    [False] for each of its ids; the rows of other namespaces and keys are as
    before. *)
Theorem add_many_seeds (s : HFEventStore) (ns : string) (k : scalar)
    (ids : list scalar) (now : Z) :
  (add_many s ns k ids now).1
  = size (list_to_set (str <$> filter (λ e, has s ns k e = false) ids) : gset string)
  ∧ (∀ e, has (add_many s ns k ids now).2 ns k e = true
          ↔ has s ns k e = true ∨ str e ∈ str <$> ids)
  ∧ (∀ max_variables, fits max_variables ids →
       filter_new max_variables (add_many s ns k ids now).2 ns k ids = Ret [])
  ∧ (∀ e now', e ∈ ids →
       add_if_new (add_many s ns k ids now).2 ns k e now'
       = (Ret false, (add_many s ns k ids now).2))
  ∧ (∀ ns' k' e', (ns', k') ≠ (ns, str k) →
       conn (add_many s ns k ids now).2 !! (ns', k', e') = conn s !! (ns', k', e')).
Proof.
  assert (∀ e, has (add_many s ns k ids now).2 ns k e = true
               ↔ has s ns k e = true ∨ str e ∈ str <$> ids) as Hhas.
  { intros e. rewrite !has_true_iff, add_many_lookup.
    destruct (conn s !! (ns, str k, str e)) as [v |] eqn:Hc.
    - split; [intros _; left; eauto | eauto].
    - destruct (decide (offered ns (str k) (str <$> ids) (ns, str k, str e)))
        as [(_ & _ & Hin) | Hno]; simpl in *.
      + split; [auto | eauto].
      + split; [intros [? ?]; done |].
        intros [[? ?] | Hin]; [done |]. exfalso. apply Hno. by repeat split. }
  split; [| split; [done | split; [| split]]].
  - unfold add_many. destruct ids as [| i0 ids0]; [done |].
    set (ids := i0 :: ids0).
    destruct (insert_many_spec ns (str k) (str <$> ids) now (conn s)) as [_ Hn].
    destruct (insert_many _ _ _ _ _) as [t n]. cbn [fst snd] in Hn |- *. rewrite Hn.
    f_equal. apply set_eq. intros x.
    rewrite !elem_of_list_to_set, list_elem_of_filter, !list_elem_of_fmap.
    split.
    + intros (Hx & e & -> & He). exists e. split; [done |].
      rewrite list_elem_of_filter. split; [| done].
      by apply has_false_iff.
    + intros (e & -> & He). rewrite list_elem_of_filter in He.
      destruct He as [Hf He]. split; [by apply has_false_iff | eauto].
  - intros max_variables Hfits. rewrite filter_new_has by done. f_equal.
    destruct (filter _ ids) as [| e l] eqn:E; [done | exfalso].
    assert (e ∈ filter (λ e, has (add_many s ns k ids now).2 ns k e = false) ids) as Hin
      by (rewrite E; by left).
    apply list_elem_of_filter in Hin as [Hf He].
    assert (has (add_many s ns k ids now).2 ns k e = true) as Ht.
    { apply Hhas. right. apply list_elem_of_fmap. eauto. }
    congruence.
  - intros e now' He. apply add_if_new_seen, Hhas. right.
    apply list_elem_of_fmap. eauto.
  - intros ns' k' e' Hne. rewrite add_many_lookup.
    destruct (conn s !! (ns', k', e')); [done |].
    rewrite decide_False; [done |]. intros (H1 & H2 & _). simpl in *. congruence.
Qed.

(** A second [add] of an id, in either form, changes nothing: the row keeps
    the time of the first sighting. *)
Theorem add_keeps_first_sighting (s : HFEventStore) (ns : string)
    (k e e' : scalar) (t1 t2 : Z) :
  str e' = str e →
  add (add s ns k e t1) ns k e' t2 = add s ns k e t1
  ∧ (has s ns k e = false →
     conn (add (add s ns k e t1) ns k e' t2) !! (ns, str k, str e) = Some t1).
Proof.
  intros He. assert (add (add s ns k e t1) ns k e' t2 = add s ns k e t1) as Heq.
  { unfold add at 1. rewrite He. unfold insert_or_ignore.
    pose proof (add_has s ns k e e t1 eq_refl) as Hh.
    apply has_true_iff in Hh as [v Hv]. rewrite Hv. reflexivity. }
  split; [done |]. rewrite Heq. intros Hf. apply has_false_iff in Hf.
  unfold add, insert_or_ignore. rewrite Hf. simpl. apply lookup_insert_eq.
Qed.

Lemma add_keeps_first_sighting_witness :
  add (add (open "events.db" ∅) "thread_replies" (SStr "tid_6083735") (SInt 59852445) 100)
      "thread_replies" (SStr "tid_6083735") (SStr "59852445") 900
  = add (open "events.db" ∅) "thread_replies" (SStr "tid_6083735") (SInt 59852445) 100.
Proof.
  apply (add_keeps_first_sighting (open "events.db" ∅) "thread_replies"
           (SStr "tid_6083735") (SInt 59852445) (SStr "59852445") 100 900).
  reflexivity.
Defined.

(** *** Purging and clearing *)

Lemma delete_where_sizes (P : pk * Z → Prop) `{!∀ row, Decision (P row)} (t : table) :
  (size (filter P t) + size (filter (λ row, ¬ P row) t))%nat = size t.
Proof.
  rewrite <- map_size_disj_union by apply map_disjoint_filter_complement.
  by rewrite map_filter_union_complement.
Qed.

(** [purge_old] keeps exactly the rows seen at or after the cutoff and
    returns the number of rows it deleted; an id whose row was older than the
    cutoff is new again for [add_if_new]. *)
Theorem purge_old_forgets_old_rows (s : HFEventStore) (days now : Z) :
  (∀ key v, conn (purge_old s days now).2 !! key = Some v
            ↔ conn s !! key = Some v ∧ now - days * 86400 ≤ v)
  ∧ ((purge_old s days now).1 + size (conn (purge_old s days now).2))%nat
    = size (conn s)
  ∧ (∀ ns k e v now',
       conn s !! (ns, str k, str e) = Some v → v < now - days * 86400 →
       (add_if_new (purge_old s days now).2 ns k e now').1 = Ret true).
Proof.
  unfold purge_old, delete_where. simpl.
  assert (∀ key v, filter (λ row : pk * Z, ¬ row.2 < now - days * 86400) (conn s) !! key
                   = Some v ↔ conn s !! key = Some v ∧ now - days * 86400 ≤ v) as Hl.
  { intros key v. rewrite map_lookup_filter_Some. simpl. split; intros [? ?]; split; (done || lia). }
  split; [done |]. split; [apply delete_where_sizes |].
  intros ns k e v now' Hv Hold.
  destruct (add_if_new_unseen (commit s (filter (λ row : pk * Z, ¬ row.2 < now - days * 86400)
                                               (conn s))) ns k e now')
    as (s' & -> & _); [| done].
  apply has_false_iff. simpl. apply eq_None_not_Some. intros [v' Hv'].
  apply Hl in Hv' as [Hv' ?]. rewrite Hv in Hv'. injection Hv' as <-. lia.
Qed.

(** [clear] deletes the rows of one (namespace, key) only when both
    arguments are truthy; with a namespace and an empty or missing key it
    deletes the whole namespace, the rows under the key [""] and all the
    others; with an empty or missing namespace it deletes every row, whatever
    the key.  It returns the number of rows deleted. *)
Theorem clear_scope_follows_truthiness (s : HFEventStore) (namespace : option string)
    (key : option scalar) :
  (∀ row v, conn (clear s namespace key).2 !! row = Some v
            ↔ conn s !! row = Some v ∧ ¬ cleared namespace key (row, v))
  ∧ ((clear s namespace key).1 + size (conn (clear s namespace key).2))%nat
    = size (conn s)
  ∧ (truthy_str namespace = false → conn (clear s namespace key).2 = ∅)
  ∧ (∀ ns, truthy_str (Some ns) = true → truthy key = false →
       ∀ k e, conn (clear s (Some ns) key).2 !! (ns, k, e) = None).
Proof.
  unfold clear, delete_where. simpl.
  assert (∀ nsp ky row v,
            filter (λ r : pk * Z, ¬ cleared nsp ky r) (conn s) !! row = Some v
            ↔ conn s !! row = Some v ∧ ¬ cleared nsp ky (row, v)) as Hl.
  { intros nsp ky row v. by rewrite map_lookup_filter_Some. }
  split; [apply Hl |]. split; [apply delete_where_sizes |]. split.
  - intros Hns. apply map_eq. intros row. rewrite lookup_empty.
    apply eq_None_not_Some. intros [v Hv]. apply Hl in Hv as [_ Hc].
    apply Hc. unfold cleared. by rewrite Hns.
  - intros ns Hns Hkey k e. apply eq_None_not_Some. intros [v Hv].
    apply Hl in Hv as [_ Hc]. apply Hc. unfold cleared. simpl. rewrite Hns, Hkey. done.
Qed.

(** *** Statistics *)

(** The rows of one namespace. *)
Definition in_namespace (ns : string) (row : pk * Z) : Prop := row.1.1.1 = ns.

#[global] Instance in_namespace_dec ns row : Decision (in_namespace ns row).
Proof. unfold in_namespace. apply _. Defined.

(** [stats()] maps each namespace that has rows to the number of its rows;
    a namespace without rows is not a key of the dict. *)
Theorem stats_counts_rows_per_namespace (s : HFEventStore) (ns : string) :
  stats s !! ns
  = match size (filter (in_namespace ns) (conn s)) with
    | O => None
    | S n => Some (S n)
    end.
Proof.
  unfold stats. generalize (conn s). intros t. revert ns.
  apply (map_fold_weak_ind
           (λ (counts : gmap string nat) (m : table), ∀ ns,
              counts !! ns = match size (filter (in_namespace ns) m) with
                             | O => None
                             | S n => Some (S n)
                             end)).
  - intros ns. by rewrite map_filter_empty, map_size_empty, lookup_empty.
  - intros key v m counts Hfresh IH ns.
    destruct (decide (key.1.1 = ns)) as [Heq | Hne].
    + rewrite Heq, lookup_insert_eq, IH.
      rewrite map_filter_insert_True by done.
      rewrite map_size_insert_None
        by (apply map_lookup_filter_None; left; done).
      by destruct (size (filter (in_namespace ns) m)).
    + rewrite lookup_insert_ne by done.
      rewrite map_filter_insert_not by (intros y; done).
      apply IH.
Qed.

(** *** Pruning *)

#[global] Instance older_or_same_trans : Transitive older_or_same.
Proof. unfold older_or_same. intros x y z. lia. Qed.

#[global] Instance older_or_same_total : Total older_or_same.
Proof. unfold older_or_same. intros x y. lia. Qed.

Lemma lookup_delete_rows (victims : list (pk * Z)) (t : table) key :
  foldr (λ row t, delete row.1 t) t victims !! key
  = if decide (key ∈ victims.*1) then None else t !! key.
Proof.
  induction victims as [| row victims IH].
  - rewrite decide_False; [done | apply not_elem_of_nil].
  - cbn [foldr]. rewrite fmap_cons.
    destruct (decide (row.1 = key)) as [<- | Hne].
    + rewrite lookup_delete_eq.
      destruct (decide (row.1 ∈ row.1 :: victims.*1)) as [| Hout]; [done |].
      exfalso. apply Hout. by left.
    + rewrite lookup_delete_ne, IH by done.
      destruct (decide (key ∈ victims.*1)) as [Hin | Hout];
        destruct (decide (key ∈ row.1 :: victims.*1)) as [Hin' | Hout']; try done.
      * exfalso. apply Hout'. by right.
      * apply elem_of_cons in Hin' as [? | ?]; congruence.
Qed.

Section PruneFacts.
Variable scan : table → list (pk * Z).
Hypothesis scan_lists_the_table : ∀ t, scan t ≡ₚ map_to_list t.

Lemma oldest_first_perm ns k t :
  oldest_first scan ns k t ≡ₚ map_to_list (filter (in_scope ns k) t).
Proof.
  unfold oldest_first. rewrite merge_sort_Permutation, scan_lists_the_table.
  apply NoDup_Permutation.
  - apply NoDup_filter, NoDup_map_to_list.
  - apply NoDup_map_to_list.
  - intros [key v]. rewrite list_elem_of_filter, !elem_of_map_to_list,
      map_lookup_filter_Some. tauto.
Qed.

Lemma oldest_first_NoDup_keys ns k t : NoDup (oldest_first scan ns k t).*1.
Proof. rewrite oldest_first_perm. apply NoDup_fst_map_to_list. Qed.

Lemma oldest_first_elem ns k t key v :
  (key, v) ∈ oldest_first scan ns k t ↔ t !! key = Some v ∧ in_scope ns k (key, v).
Proof.
  by rewrite oldest_first_perm, elem_of_map_to_list, map_lookup_filter_Some.
Qed.

(** A row listed once is in the part kept exactly when its key is not in the
    part taken. *)
Lemma kept_iff_not_taken (l : list (pk * Z)) (n : nat) key v :
  NoDup l.*1 → (key, v) ∈ l → ((key, v) ∈ drop n l ↔ key ∉ (take n l).*1).
Proof.
  intros Hnd Hin. rewrite <- (take_drop n l) in Hnd, Hin.
  rewrite fmap_app in Hnd. apply NoDup_app in Hnd as (_ & Hdisj & _).
  apply elem_of_app in Hin as [Hin | Hin].
  - assert (key ∈ (take n l).*1) as Hk by (apply list_elem_of_fmap; by exists (key, v)).
    split; [| done]. intros Hd. exfalso. apply (Hdisj key Hk).
    apply list_elem_of_fmap. by exists (key, v).
  - split; [| done]. intros _ Hk. apply (Hdisj key Hk).
    apply list_elem_of_fmap. by exists (key, v).
Qed.

(** [prune] does nothing when the (namespace, key) holds at most [keep]
    rows.  Otherwise it deletes all but [keep] of them and returns how many
    went; no row of another namespace or key is touched, no row is changed,
    and no deleted row was seen later than a row that stays. *)
Theorem prune_keeps_the_newest (s : HFEventStore) (ns : string) (k : scalar)
    (keep : Z) :
  0 ≤ keep →
  let total := size (filter (in_scope ns (str k)) (conn s)) in
  let after := (prune scan s ns k keep).2 in
  (Z.of_nat total ≤ keep → prune scan s ns k keep = (O, s))
  ∧ (keep < Z.of_nat total →
       Z.of_nat (prune scan s ns k keep).1 = Z.of_nat total - keep
       ∧ Z.of_nat (size (filter (in_scope ns (str k)) (conn after))) = keep
       ∧ (∀ row v, conn after !! row = Some v → conn s !! row = Some v)
       ∧ (∀ row v, ¬ in_scope ns (str k) (row, v) → conn s !! row = Some v →
                   conn after !! row = Some v)
       ∧ (∀ gone v1 kept v2,
            conn s !! gone = Some v1 → conn after !! gone = None →
            conn after !! kept = Some v2 → in_scope ns (str k) (kept, v2) →
            v1 ≤ v2)).
Proof.
  intros Hkeep total after. subst total after. unfold prune.
  set (total := size (filter (in_scope ns (str k)) (conn s))).
  destruct (decide (Z.of_nat total ≤ keep)) as [Hle | Hgt]; [split; [done | lia] |].
  split; [lia |]. intros _. simpl.
  set (L := oldest_first scan ns (str k) (conn s)).
  set (n := Z.to_nat (Z.of_nat total - keep)).
  assert (length L = total) as HlenL.
  { unfold L. rewrite oldest_first_perm. apply length_map_to_list. }
  assert (∀ key, foldr (λ row t, delete row.1 t) (conn s) (take n L) !! key
                 = if decide (key ∈ (take n L).*1) then None else conn s !! key) as Hlook.
  { intros key. apply lookup_delete_rows. }
  assert (∀ key, key ∈ (take n L).*1 → ∃ v, (key, v) ∈ take n L ∧ conn s !! key = Some v
                                            ∧ in_scope ns (str k) (key, v)) as Htaken.
  { intros key Hk. apply list_elem_of_fmap in Hk as ([key' v] & -> & Hin).
    exists v. split; [done |]. apply oldest_first_elem.
    eapply elem_of_sublist; [exact Hin | apply sublist_take]. }
  split; [rewrite length_take; lia |]. split; [| split; [| split]].
  - assert (map_to_list (filter (in_scope ns (str k))
                                (foldr (λ row t, delete row.1 t) (conn s) (take n L)))
            ≡ₚ drop n L) as Hperm.
    { apply NoDup_Permutation.
      - apply NoDup_map_to_list.
      - apply (sublist_NoDup _ L); [| apply sublist_drop].
        apply (NoDup_fmap_1 fst), oldest_first_NoDup_keys.
      - intros [key v]. rewrite elem_of_map_to_list, map_lookup_filter_Some, Hlook.
        split.
        + intros [Hl Hs]. destruct (decide (key ∈ (take n L).*1)) as [| Hout]; [done |].
          apply kept_iff_not_taken; [apply oldest_first_NoDup_keys | | done].
          by apply oldest_first_elem.
        + intros Hd. assert ((key, v) ∈ L) as HinL
            by (eapply elem_of_sublist; [exact Hd | apply sublist_drop]).
          apply kept_iff_not_taken in Hd; [| apply oldest_first_NoDup_keys | done].
          rewrite decide_False by done. by apply oldest_first_elem. }
    rewrite <- length_map_to_list, Hperm, length_drop. lia.
  - intros row v. rewrite Hlook. by destruct (decide _).
  - intros row v Hout Hv. rewrite Hlook. rewrite decide_False; [done |].
    intros Hk. destruct (Htaken row Hk) as (v' & _ & Hv' & Hs).
    rewrite Hv in Hv'. injection Hv' as <-. done.
  - intros gone v1 kept v2 Hg Hgone Hk Hs. rewrite Hlook in Hgone, Hk.
    destruct (decide (gone ∈ (take n L).*1)) as [Hin | Hout]; [| congruence].
    destruct (decide (kept ∈ (take n L).*1)) as [| Hkout]; [done |].
    destruct (Htaken gone Hin) as (v1' & Hin1 & Hv1' & _).
    rewrite Hg in Hv1'. injection Hv1' as <-.
    assert ((kept, v2) ∈ drop n L) as Hin2.
    { apply kept_iff_not_taken; [apply oldest_first_NoDup_keys | | done].
      by apply oldest_first_elem. }
    pose proof (StronglySorted_merge_sort older_or_same
                  (filter (in_scope ns (str k)) (scan (conn s)))) as Hsorted.
    fold (oldest_first scan ns (str k) (conn s)) in Hsorted. fold L in Hsorted.
    rewrite <- (take_drop n L) in Hsorted.
    apply (StronglySorted_app_1_elem_of _ _ _ _ _ Hsorted Hin1 Hin2).
Qed.

End PruneFacts.

Lemma prune_keeps_the_newest_witness :
  prune map_to_list
        (add (add (open "events.db" ∅) "thread_replies" (SStr "tid_1") (SInt 7) 100)
             "thread_replies" (SStr "tid_1") (SInt 8) 200)
        "thread_replies" (SStr "tid_1") 5
  = (O, add (add (open "events.db" ∅) "thread_replies" (SStr "tid_1") (SInt 7) 100)
            "thread_replies" (SStr "tid_1") (SInt 8) 200).
Proof.
  apply (prune_keeps_the_newest map_to_list (λ t, reflexivity (map_to_list t))
           (add (add (open "events.db" ∅) "thread_replies" (SStr "tid_1") (SInt 7) 100)
                "thread_replies" (SStr "tid_1") (SInt 8) 200)
           "thread_replies" (SStr "tid_1") 5).
  - lia.
  - vm_compute. discriminate.
Defined.

End StoreOps.

(** ** HFCache.py: the other cache operations *)

Module CacheOps.
Import Cache.

Section Values.
Context {V : Type}.
Implicit Types (c : HFCache V) (d : list (cache_key * (pyobj V * Q))).

(** [for k in keys: del d[k]] *)
Definition dict_del_all d (keys : list cache_key) : list (cache_key * (pyobj V * Q)) :=
  foldl dict_del d keys.

(** [delete(namespace, key)]: [pop] with a default never raises. *)
Definition delete c (namespace : string) (key : pykey) : bool * HFCache V :=
  let cache_key := (namespace, _make_hashable key) in
  match dict_get (_store c) cache_key with
  | Some _ => (true, with_store c (dict_del (_store c) cache_key))
  | None => (false, c)
  end.

(** [invalidate(namespace)] *)
Definition invalidate c (namespace : string) : nat * HFCache V :=
  let keys_to_del := filter (λ k : cache_key, k.1 = namespace) (dict_keys (_store c)) in
  (length keys_to_del, with_store c (dict_del_all (_store c) keys_to_del)).

(** [clear()] *)
Definition clear c : nat * HFCache V := (length (_store c), with_store c []).

(** [purge_expired()] when [time.monotonic()] reads [now]. *)
Definition purge_expired c (now : Q) : nat * HFCache V :=
  let expired := (filter (λ kv : cache_key * (pyobj V * Q), (kv.2.2 < now)%Q)
                         (_store c)).*1 in
  (length expired, with_store c (dict_del_all (_store c) expired)).

(** [get_or_fetch(namespace, key, fetch_fn, ttl, none_ttl)]: [now] is the
    clock reading of the lookup, [now_set] the later one of the [set] that
    follows a fetch.  The result carries the number of calls of [fetch_fn]. *)
Definition get_or_fetch c (namespace : string) (key : pykey)
    (fetch_fn : unit → pyobj V) (ttl : option Z) (none_ttl : Z) (now now_set : Q)
    : outcome (pyobj V) * HFCache V * nat :=
  let cache_key := (namespace, _make_hashable key) in
  let hit :=
    match dict_get (_store c) cache_key with
    | Some (value, expire_at) =>
        if decide (now <= expire_at)%Q
        then inl (match value with _NONE_CACHED => PyNone | _ => value end)
        else inr (dict_del (_store c) cache_key)
    | None => inr (_store c)
    end in
  match hit with
  | inl value =>
      (Ret value,
       mkCache (_default_ttl c) (_maxsize c) (_store c) (S (_hits c)) (_misses c), O)
  | inr store =>
      let c1 := mkCache (_default_ttl c) (_maxsize c) store (_hits c) (S (_misses c)) in
      let value := fetch_fn tt in
      match value with
      | PyNone =>
          if decide (0 < none_ttl) then
            match set c1 namespace key PyNone (Some none_ttl) now_set with
            | Ret c2 => (Ret value, c2, 1%nat)
            | Raise e => (Raise e, c1, 1%nat)
            end
          else (Ret value, c1, 1%nat)
      | _ =>
          match set c1 namespace key value ttl now_set with
          | Ret c2 => (Ret value, c2, 1%nat)
          | Raise e => (Raise e, c1, 1%nat)
          end
      end
  end.

(** The requests a client can make, for runs of the cache. *)
Inductive request : Type :=
  | DoGet (namespace : string) (key : pykey) (default : pyobj V) (now : Q)
  | DoSet (namespace : string) (key : pykey) (value : pyobj V) (ttl : option Z) (now : Q)
  | DoDelete (namespace : string) (key : pykey)
  | DoInvalidate (namespace : string)
  | DoClear
  | DoPurge (now : Q)
  | DoGetOrFetch (namespace : string) (key : pykey) (fetch_fn : unit → pyobj V)
      (ttl : option Z) (none_ttl : Z) (now now_set : Q).

(** One request; a raised exception leaves the cache to the next request. *)
Definition serve c (r : request) : HFCache V :=
  match r with
  | DoGet ns key default now => (get c ns key default now).2
  | DoSet ns key value ttl now =>
      match set c ns key value ttl now with
      | Ret c' => c'
      | Raise _ => c
      end
  | DoDelete ns key => (delete c ns key).2
  | DoInvalidate ns => (invalidate c ns).2
  | DoClear => (clear c).2
  | DoPurge now => (purge_expired c now).2
  | DoGetOrFetch ns key fetch_fn ttl none_ttl now now_set =>
      (get_or_fetch c ns key fetch_fn ttl none_ttl now now_set).1.2
  end.

Definition serve_all c (rs : list request) : HFCache V := foldl serve c rs.

(** A dict holds each key once. *)
Definition well_formed d : Prop := NoDup (dict_keys d).

(** *** Facts about dicts *)

Lemma dict_get_None d k : dict_get d k = None ↔ k ∉ dict_keys d.
Proof.
  induction d as [| [k' e'] d IH]; simpl.
  - split; [intros _; apply not_elem_of_nil | done].
  - rewrite not_elem_of_cons. destruct (decide (k' = k)) as [-> | Hne].
    + split; [discriminate | tauto].
    + rewrite IH. split; [intros ?; split; [congruence | done] | tauto].
Qed.

Lemma dict_get_Some d k e : well_formed d → (dict_get d k = Some e ↔ (k, e) ∈ d).
Proof.
  unfold well_formed. induction d as [| [k' e'] d IH]; simpl; intros Hnd.
  - split; [discriminate | intros H; by apply elem_of_nil in H].
  - apply NoDup_cons in Hnd as [Hk' Hnd]. rewrite elem_of_cons.
    destruct (decide (k' = k)) as [-> | Hne].
    + split; [intros [= ->]; by left |].
      intros [[= ->] | Hin]; [done |]. exfalso. apply Hk'.
      apply list_elem_of_fmap. by exists (k, e).
    + rewrite IH by done. split; [auto |]. intros [[= ? ?] | ?]; [congruence | done].
Qed.

Lemma dict_get_filter (P : cache_key → Prop) `{!∀ k, Decision (P k)} d k :
  dict_get (filter (λ kv : cache_key * (pyobj V * Q), P kv.1) d) k
  = if decide (P k) then dict_get d k else None.
Proof.
  induction d as [| [k' e'] d IH]; [simpl; by destruct (decide _) |].
  rewrite filter_cons. cbn [fst]. destruct (decide (P k')) as [Hp | Hp].
  - cbn [dict_get]. destruct (decide (k' = k)) as [Heq | Hne]; [| exact IH].
    subst k'. by destruct (decide (P k)).
  - rewrite IH. cbn [dict_get]. destruct (decide (k' = k)) as [Heq | Hne]; [| done].
    subst k'. by destruct (decide (P k)).
Qed.

(** Rewrite a lookup in a dict filtered by a test [P] on keys. *)
Ltac rewrite_get_filter P :=
  let H := fresh "Hfilter" in
  pose proof (dict_get_filter P) as H; cbn beta in H; rewrite H; clear H.

Lemma dict_del_filter d k :
  well_formed d → dict_del d k = filter (λ kv : cache_key * (pyobj V * Q), kv.1 ≠ k) d.
Proof.
  unfold well_formed, dict_keys. induction d as [| [k' e'] d IH]; simpl; intros Hnd; [done |].
  apply NoDup_cons in Hnd as [Hk' Hnd]. rewrite filter_cons. simpl.
  destruct (decide (k' = k)) as [-> | Hne].
  - rewrite decide_False by tauto. symmetry.
    clear IH Hnd. induction d as [| [k2 e2] d IH]; [done |].
    rewrite fmap_cons, not_elem_of_cons in Hk'. destruct Hk' as [Hne Hk'].
    rewrite filter_cons. simpl. rewrite decide_True by done. f_equal. by apply IH.
  - rewrite decide_True by done. f_equal. by apply IH.
Qed.

Lemma well_formed_filter (P : cache_key * (pyobj V * Q) → Prop)
    `{!∀ kv, Decision (P kv)} d :
  well_formed d → well_formed (filter P d).
Proof.
  unfold well_formed, dict_keys. intros Hnd.
  eapply sublist_NoDup; [exact Hnd |]. apply fmap_sublist, sublist_filter.
Qed.

Lemma dict_del_all_filter keys : ∀ d,
  well_formed d →
  dict_del_all d keys = filter (λ kv : cache_key * (pyobj V * Q), kv.1 ∉ keys) d.
Proof.
  unfold dict_del_all. induction keys as [| k keys IH]; intros d Hwf; simpl.
  - clear Hwf. induction d as [| x d IHd]; [done |].
    rewrite filter_cons_True by apply not_elem_of_nil. by f_equal.
  - rewrite dict_del_filter by done. rewrite IH by (by apply well_formed_filter).
    rewrite list_filter_filter. apply list_filter_iff. intros [k' e']. simpl.
    rewrite not_elem_of_cons. tauto.
Qed.

Lemma dict_get_set d k e k' :
  dict_get (dict_set d k e) k' = if decide (k = k') then Some e else dict_get d k'.
Proof.
  induction d as [| [k2 e2] d IH]; simpl.
  - by destruct (decide (k = k')).
  - destruct (decide (k2 = k)) as [-> | Hne]; simpl.
    + by destruct (decide (k = k')).
    + rewrite IH. destruct (decide (k2 = k')) as [-> | ?]; [| done].
      by rewrite decide_False.
Qed.

Lemma dict_keys_set d k e :
  dict_keys (dict_set d k e)
  = if decide (k ∈ dict_keys d) then dict_keys d else dict_keys d ++ [k].
Proof.
  unfold dict_keys. induction d as [| [k2 e2] d IH].
  - destruct (decide (k ∈ [].*1)) as [Hin | _]; [by apply elem_of_nil in Hin | done].
  - cbn [dict_set]. rewrite fmap_cons. cbn [fst].
    destruct (decide (k2 = k)) as [Heq | Hne].
    + subst k2. rewrite fmap_cons. cbn [fst].
      destruct (decide (k ∈ k :: d.*1)) as [| Hout]; [done |].
      exfalso. apply Hout. by left.
    + rewrite fmap_cons, IH. cbn [fst].
      destruct (decide (k ∈ d.*1)) as [Hin | Hout];
        destruct (decide (k ∈ k2 :: d.*1)) as [Hin' | Hout']; try done.
      * exfalso. apply Hout'. by right.
      * apply elem_of_cons in Hin' as [? | ?]; congruence.
Qed.

Lemma well_formed_set d k e : well_formed d → well_formed (dict_set d k e).
Proof.
  unfold well_formed. rewrite dict_keys_set. intros Hnd.
  destruct (decide _) as [| Hout]; [done |].
  apply NoDup_app. split; [done |]. split; [| apply NoDup_singleton].
  intros x Hx Hk. apply list_elem_of_singleton in Hk. by subst.
Qed.

Lemma length_dict_set d k e :
  length (dict_set d k e)
  = if decide (k ∈ dict_keys d) then length d else S (length d).
Proof.
  pose proof (dict_keys_set d k e) as Hk. apply (f_equal length) in Hk.
  unfold dict_keys in Hk at 1. rewrite length_fmap in Hk. rewrite Hk.
  destruct (decide _); unfold dict_keys; rewrite ?length_app, length_fmap; simpl; lia.
Qed.

Lemma length_dict_del d k :
  k ∈ dict_keys d → S (length (dict_del d k)) = length d.
Proof.
  unfold dict_keys. induction d as [| [k2 e2] d IH]; simpl; intros Hin.
  - by apply elem_of_nil in Hin.
  - destruct (decide (k2 = k)) as [-> | Hne]; [done |]. simpl.
    rewrite IH; [done |]. apply elem_of_cons in Hin as [? | ?]; [congruence | done].
Qed.

(** The key [min] picks is a key of the dict, and no entry expires before
    its entry. *)
Lemma min_expire_at_spec d k :
  min_expire_at d = Some k →
  ∃ e, (k, e) ∈ d ∧ ∀ k' e', (k', e') ∈ d → (e.2 <= e'.2)%Q.
Proof.
  unfold min_expire_at. destruct d as [| first rest]; [discriminate |].
  intros [= <-].
  assert (∀ l best,
            let r := fold_left (λ best cand : cache_key * (pyobj V * Q),
                                  if decide (cand.2.2 < best.2.2)%Q then cand else best)
                               l best in
            (r = best ∨ r ∈ l) ∧ (r.2.2 <= best.2.2)%Q
            ∧ ∀ x, x ∈ l → (r.2.2 <= x.2.2)%Q) as Hfold.
  { induction l as [| x l IH]; intros best; simpl.
    - split; [by left |]. split; [apply Qle_refl |]. intros x Hx. by apply elem_of_nil in Hx.
    - destruct (decide (x.2.2 < best.2.2)%Q) as [Hlt | Hge].
      + destruct (IH x) as (Hin & Hle & Hall). split; [| split].
        * right. destruct Hin as [-> | ?]; [by left | by right].
        * eapply Qle_trans; [exact Hle | by apply Qlt_le_weak].
        * intros y Hy. apply elem_of_cons in Hy as [-> | Hy]; [done | by apply Hall].
      + destruct (IH best) as (Hin & Hle & Hall). split; [| split].
        * destruct Hin as [? | ?]; [by left | right; by right].
        * done.
        * intros y Hy. apply elem_of_cons in Hy as [-> | Hy]; [| by apply Hall].
          eapply Qle_trans; [exact Hle |]. by apply Qnot_lt_le. }
  destruct (Hfold rest first) as (Hin & Hle & Hall).
  set (r := fold_left _ rest first) in *. exists r.2. destruct r as [rk re] eqn:Hr.
  simpl in *. split.
  - destruct Hin as [-> | ?]; [by left | by right].
  - intros k' e' Hk'. apply elem_of_cons in Hk' as [<- | Hk']; [done |].
    apply (Hall (k', e') Hk').
Qed.

Lemma well_formed_del d k : well_formed d → well_formed (dict_del d k).
Proof. intros Hwf. rewrite dict_del_filter by done. by apply well_formed_filter. Qed.

Lemma length_dict_del_le d k : (length (dict_del d k) ≤ length d)%nat.
Proof.
  induction d as [| [k2 e2] d IH]; simpl; [done |].
  destruct (decide (k2 = k)); simpl; lia.
Qed.

Lemma well_formed_del_all d keys : well_formed d → well_formed (dict_del_all d keys).
Proof. intros Hwf. rewrite dict_del_all_filter by done. by apply well_formed_filter. Qed.

Lemma length_dict_del_all_le keys : ∀ d, (length (dict_del_all d keys) ≤ length d)%nat.
Proof.
  unfold dict_del_all. induction keys as [| k keys IH]; intros d; simpl; [done |].
  etransitivity; [apply IH | apply length_dict_del_le].
Qed.

(** *** What every state of a cache satisfies *)

(** Keys are distinct, the bound is the one given at construction, and a
    positive bound is respected. *)
Definition sound (maxsize : Z) c : Prop :=
  well_formed (_store c) ∧ _maxsize c = maxsize
  ∧ (0 < maxsize → Z.of_nat (length (_store c)) ≤ maxsize).

Lemma sound_shrink maxsize c d :
  sound maxsize c → well_formed d → (length d ≤ length (_store c))%nat →
  ∀ hits misses, sound maxsize (mkCache (_default_ttl c) (_maxsize c) d hits misses).
Proof.
  intros (Hwf & Hm & Hb) Hd Hlen hits misses. split; [done |]. split; [done |].
  simpl. intros Hpos. specialize (Hb Hpos). lia.
Qed.

Lemma set_sound maxsize c ns key value ttl now c' :
  sound maxsize c → set c ns key value ttl now = Ret c' → sound maxsize c'.
Proof.
  intros (Hwf & Hm & Hb). unfold set, set_until.
  destruct (bool_decide (_maxsize c ≠ 0)) eqn:E1; simpl;
    [destruct (bool_decide (_maxsize c ≤ _)) eqn:E2; simpl |].
  - apply bool_decide_eq_true in E1, E2.
    destruct (min_expire_at (_store c)) as [oldest |] eqn:Hmin; [| discriminate].
    intros [= <-]. destruct (min_expire_at_spec _ _ Hmin) as (e & Hin & _).
    assert (oldest ∈ dict_keys (_store c)) as Hk
      by (apply list_elem_of_fmap; by exists (oldest, e)).
    pose proof (length_dict_del _ _ Hk) as Hlen.
    split; [by apply well_formed_set, well_formed_del |]. split; [done |].
    simpl. intros Hpos. specialize (Hb Hpos). rewrite length_dict_set.
    destruct (decide _); lia.
  - apply bool_decide_eq_true in E1. apply bool_decide_eq_false in E2.
    intros [= <-]. split; [by apply well_formed_set |]. split; [done |].
    simpl. intros Hpos. rewrite length_dict_set. destruct (decide _); lia.
  - apply bool_decide_eq_false in E1.
    intros [= <-]. split; [by apply well_formed_set |]. split; [done |].
    simpl. intros Hpos. lia.
Qed.

Lemma serve_sound maxsize c r : sound maxsize c → sound maxsize (serve c r).
Proof.
  intros Hs. pose proof Hs as (Hwf & Hm & Hb). destruct r; simpl.
  - unfold get. destruct (dict_get _ _) as [[value expire_at] |]; simpl.
    + destruct (decide _); simpl.
      * apply sound_shrink; [done | by apply well_formed_del | apply length_dict_del_le].
      * by apply sound_shrink.
    + by apply sound_shrink.
  - destruct (set c namespace key value ttl now) as [c' |] eqn:E; [| done].
    by eapply set_sound.
  - unfold delete. destruct (dict_get _ _); simpl; [| done].
    apply sound_shrink; [done | by apply well_formed_del | apply length_dict_del_le].
  - apply sound_shrink; [done | by apply well_formed_del_all | apply length_dict_del_all_le].
  - apply sound_shrink; [done | apply NoDup_nil_2 | simpl; lia].
  - apply sound_shrink; [done | by apply well_formed_del_all | apply length_dict_del_all_le].
  - unfold get_or_fetch.
    set (hit := match dict_get _ _ with Some _ => _ | None => _ end).
    assert (match hit with
            | inl _ => True
            | inr store => well_formed store ∧ (length store ≤ length (_store c))%nat
            end) as Hhit.
    { unfold hit. destruct (dict_get _ _) as [[value expire_at] |]; [| done].
      destruct (decide _); [done |].
      split; [by apply well_formed_del | apply length_dict_del_le]. }
    destruct hit as [value | store]; simpl; [by apply sound_shrink |].
    destruct Hhit as [Hst Hlen].
    pose proof (sound_shrink maxsize c store Hs Hst Hlen (_hits c) (S (_misses c))) as Hc1.
    destruct (fetch_fn tt); simpl;
      try (destruct (set _ _ _ _ _ _) as [c2 |] eqn:E; simpl;
           [by eapply set_sound | done]).
    destruct (decide _); [| done].
    destruct (set _ _ _ _ _ _) as [c2 |] eqn:E; simpl; [by eapply set_sound | done].
Qed.

(** Whatever requests a cache serves after its construction, it holds each
    key once and, when its bound is positive, never more than [maxsize]
    entries. *)
Theorem cache_never_exceeds_maxsize (ttl maxsize : Z) (rs : list request) :
  well_formed (_store (serve_all (init ttl maxsize) rs))
  ∧ (0 < maxsize → Z.of_nat (size (serve_all (init ttl maxsize) rs)) ≤ maxsize).
Proof.
  assert (sound maxsize (serve_all (init ttl maxsize) rs)) as (Hwf & _ & Hb).
  { assert (∀ c, sound maxsize c → sound maxsize (foldl serve c rs)) as Hrun.
    { induction rs as [| r rs IH]; intros c Hc; [done |].
      simpl. by apply IH, serve_sound. }
    apply Hrun. split; [apply NoDup_nil_2 |]. split; [done |]. simpl. lia. }
  split; done.
Qed.

(** *** Reading after maintenance *)

(** What [get] returns for an entry of the store. *)
Definition seen_by_get (default : pyobj V) (now : Q) (entry : option (pyobj V * Q))
    : pyobj V :=
  match entry with
  | Some (value, expire_at) =>
      if decide (expire_at < now)%Q then default
      else match value with _NONE_CACHED => PyNone | _ => value end
  | None => default
  end.

Lemma get_value c ns key default now :
  (get c ns key default now).1
  = seen_by_get default now (dict_get (_store c) (ns, _make_hashable key)).
Proof.
  unfold get, seen_by_get. destruct (dict_get _ _) as [[value expire_at] |]; [| done].
  by destruct (decide _).
Qed.

(** [purge_expired] removes the entries past their expiry, and only them,
    and returns their number; no [get] made at that time can tell the cache
    apart from the one before the purge. *)
Theorem purge_expired_is_invisible c (now : Q) :
  well_formed (_store c) →
  _store (purge_expired c now).2
    = filter (λ kv : cache_key * (pyobj V * Q), ¬ (kv.2.2 < now)%Q) (_store c)
  ∧ ((purge_expired c now).1 + size (purge_expired c now).2)%nat = size c
  ∧ ∀ ns key default,
      (get (purge_expired c now).2 ns key default now).1 = (get c ns key default now).1.
Proof.
  intros Hwf. unfold purge_expired. simpl.
  set (expired := (filter (λ kv : cache_key * (pyobj V * Q), (kv.2.2 < now)%Q)
                          (_store c)).*1).
  assert (∀ kv, kv ∈ _store c → (kv.1 ∉ expired ↔ ¬ (kv.2.2 < now)%Q)) as Hkeys.
  { intros [k e] Hin. unfold expired. simpl. split.
    - intros Hout Hlt. apply Hout. apply list_elem_of_fmap. exists (k, e).
      split; [done |]. by apply list_elem_of_filter.
    - intros Hfresh Hk. apply list_elem_of_fmap in Hk as ([k' e'] & Heq & Hin').
      simpl in Heq. subst k'. apply list_elem_of_filter in Hin' as [Hlt Hin'].
      simpl in Hlt. apply (dict_get_Some _ _ _ Hwf) in Hin, Hin'.
      rewrite Hin in Hin'. injection Hin' as <-. done. }
  assert (dict_del_all (_store c) expired
          = filter (λ kv : cache_key * (pyobj V * Q), ¬ (kv.2.2 < now)%Q) (_store c))
    as Hstore.
  { rewrite dict_del_all_filter by done. by apply EventStore.filter_ext_in. }
  split; [done |]. split.
  - unfold size. simpl. rewrite Hstore. unfold expired. rewrite length_fmap.
    rewrite <- (length_app (filter _ _) (filter _ _)).
    apply Permutation_length, filter_app_complement.
  - intros ns key default. rewrite !get_value. simpl.
    rewrite dict_del_all_filter by done.
    rewrite_get_filter (λ k : cache_key, k ∉ expired).
    destruct (dict_get (_store c) (ns, _make_hashable key)) as [[value expire_at] |] eqn:Hg;
      [| by destruct (decide _)].
    apply (dict_get_Some _ _ _ Hwf) in Hg.
    destruct (decide ((ns, _make_hashable key) ∉ expired)) as [Hout | Hin]; [done |].
    simpl. rewrite decide_True; [done |].
    destruct (decide (expire_at < now)%Q) as [| Hfresh]; [done |].
    exfalso. apply Hin. by apply (Hkeys _ Hg).
Qed.

(** [invalidate] removes the entries of the namespace, and only them, and
    returns their number: afterwards every [get] in that namespace returns
    the default and every [get] in another namespace returns what it did. *)
Theorem invalidate_empties_one_namespace c (namespace : string) :
  well_formed (_store c) →
  _store (invalidate c namespace).2
    = filter (λ kv : cache_key * (pyobj V * Q), kv.1.1 ≠ namespace) (_store c)
  ∧ ((invalidate c namespace).1 + size (invalidate c namespace).2)%nat = size c
  ∧ (∀ key default now,
       (get (invalidate c namespace).2 namespace key default now).1 = default)
  ∧ (∀ ns key default now, ns ≠ namespace →
       (get (invalidate c namespace).2 ns key default now).1
       = (get c ns key default now).1).
Proof.
  intros Hwf. unfold invalidate. simpl.
  set (keys := filter (λ k : cache_key, k.1 = namespace) (dict_keys (_store c))).
  assert (∀ k, k ∈ dict_keys (_store c) → (k ∉ keys ↔ k.1 ≠ namespace)) as Hkeys.
  { intros k Hk. unfold keys. rewrite list_elem_of_filter. tauto. }
  assert (dict_del_all (_store c) keys
          = filter (λ kv : cache_key * (pyobj V * Q), kv.1.1 ≠ namespace) (_store c))
    as Hstore.
  { rewrite dict_del_all_filter by done. apply EventStore.filter_ext_in.
    intros [k e] Hin. apply Hkeys. apply list_elem_of_fmap. by exists (k, e). }
  split; [done |]. split; [| split].
  - unfold size. simpl. rewrite Hstore. unfold keys, dict_keys.
    assert (length (filter (λ k : cache_key, k.1 = namespace) (_store c).*1)
            = length (filter (λ kv : cache_key * (pyobj V * Q), kv.1.1 = namespace)
                             (_store c))) as ->.
    { generalize (_store c). intros d. induction d as [| [k e] d IH]; [done |].
      rewrite fmap_cons, !filter_cons. simpl.
      destruct (decide (k.1 = namespace)); simpl; by rewrite IH. }
    rewrite <- (length_app (filter _ _) (filter _ _)).
    apply Permutation_length.
    apply (filter_app_complement (λ kv : cache_key * (pyobj V * Q), kv.1.1 = namespace)).
  - intros key default now. rewrite get_value. simpl. rewrite Hstore.
    rewrite_get_filter (λ k : cache_key, k.1 ≠ namespace). simpl.
    by rewrite decide_False by tauto.
  - intros ns key default now Hne. rewrite !get_value. simpl. rewrite Hstore.
    rewrite_get_filter (λ k : cache_key, k.1 ≠ namespace). simpl.
    by rewrite decide_True.
Qed.

(** [delete] answers whether the key was stored, expired or not; afterwards
    a [get] of the key returns the default, a second [delete] answers
    [False], and the other keys read as before. *)
Theorem delete_removes_one_key c (namespace : string) (key : pykey) :
  well_formed (_store c) →
  ((delete c namespace key).1 = true
   ↔ is_Some (dict_get (_store c) (namespace, _make_hashable key)))
  ∧ (∀ default now,
       (get (delete c namespace key).2 namespace key default now).1 = default)
  ∧ (delete (delete c namespace key).2 namespace key).1 = false
  ∧ (∀ ns key' default now,
       (ns, _make_hashable key') ≠ (namespace, _make_hashable key) →
       (get (delete c namespace key).2 ns key' default now).1
       = (get c ns key' default now).1).
Proof.
  intros Hwf.
  assert (∀ k, dict_get (_store (delete c namespace key).2) k
               = if decide (k ≠ (namespace, _make_hashable key))
                 then dict_get (_store c) k else None) as Hget.
  { intros k. unfold delete.
    destruct (dict_get (_store c) (namespace, _make_hashable key)) eqn:Hg; simpl.
    - rewrite dict_del_filter by done.
      by rewrite_get_filter (λ k : cache_key, k ≠ (namespace, _make_hashable key)).
    - destruct (decide _) as [| Heq]; [done |].
      apply dec_stable in Heq. by subst k. }
  split; [| split; [| split]].
  - unfold delete. destruct (dict_get _ _); simpl; split; eauto; try discriminate.
    intros [? ?]; discriminate.
  - intros default now. rewrite get_value, Hget. by rewrite decide_False by tauto.
  - unfold delete at 1. rewrite Hget. by rewrite decide_False by tauto.
  - intros ns key' default now Hne. rewrite !get_value, Hget. by rewrite decide_True.
Qed.

(** *** Writing, evicting and reading through *)

(** The caller-level form of a stored value. *)
Definition unwrapped (value : pyobj V) : pyobj V :=
  match value with
  | PyNone | _NONE_CACHED => PyNone
  | _ => value
  end.

Lemma set_then_lookup_live c ns key value ttl now :
  0 ≤ _maxsize c →
  ∃ c1, set c ns key value ttl now = Ret c1
    ∧ ∀ dflt now',
        (now' <= now + inject_Z (default (_default_ttl c) ttl))%Q →
        (get c1 ns key dflt now').1 = unwrapped value.
Proof.
  intros Hm. destruct (set_returns c ns key value ttl now Hm) as [c1 Hset].
  exists c1. split; [done |]. intros dflt now' Hle.
  pose proof (set_then_lookup _ _ _ _ _ _ _ Hset) as Hl.
  rewrite get_value, Hl. simpl.
  destruct (decide _) as [Hlt |]; [exfalso; by apply (Qlt_not_le _ _ Hlt) |].
  by destruct value.
Qed.


(** When a bounded cache is full, [set] takes out one entry, one that no
    other entry expires before, and every key other than that one and the
    key written reads as before. *)
Theorem set_evicts_nearest_expiry c (ns : string) (key : pykey) (value : pyobj V)
    (ttl : option Z) (now : Q) :
  well_formed (_store c) →
  0 < _maxsize c →
  _maxsize c ≤ Z.of_nat (length (_store c)) →
  ∃ victim entry c1,
    set c ns key value ttl now = Ret c1
    ∧ (victim, entry) ∈ _store c
    ∧ (∀ k' e', (k', e') ∈ _store c → (entry.2 <= e'.2)%Q)
    ∧ (victim ≠ (ns, _make_hashable key) → dict_get (_store c1) victim = None)
    ∧ (∀ k, k ≠ victim → k ≠ (ns, _make_hashable key) →
          dict_get (_store c1) k = dict_get (_store c) k)
    ∧ (size c1 ≤ size c)%nat.
Proof.
  intros Hwf Hpos Hfull. unfold set, set_until.
  rewrite bool_decide_eq_true_2 by lia. rewrite bool_decide_eq_true_2 by done. simpl.
  assert (∃ oldest, min_expire_at (_store c) = Some oldest) as [oldest Hmin].
  { unfold min_expire_at. destruct (_store c); simpl in *; [lia | eauto]. }
  rewrite Hmin. destruct (min_expire_at_spec _ _ Hmin) as (e & Hin & Hall).
  exists oldest, e. eexists. split; [reflexivity |]. split; [done |]. split; [done |].
  simpl. split; [| split].
  - intros Hne. rewrite dict_get_set, decide_False by done.
    rewrite dict_del_filter by done.
    rewrite_get_filter (λ k : cache_key, k ≠ oldest). by rewrite decide_False by tauto.
  - intros k Hk1 Hk2. rewrite dict_get_set, decide_False by done.
    rewrite dict_del_filter by done.
    rewrite_get_filter (λ k : cache_key, k ≠ oldest). by rewrite decide_True.
  - unfold size. simpl. rewrite length_dict_set.
    assert (oldest ∈ dict_keys (_store c)) as Hk
      by (apply list_elem_of_fmap; by exists (oldest, e)).
    pose proof (length_dict_del _ _ Hk). destruct (decide _); lia.
Qed.

(** An entry that [get] would serve at time [now]. *)
Definition fresh_at c (ns : string) (key : pykey) (now : Q) : Prop :=
  ∃ value expire_at,
    dict_get (_store c) (ns, _make_hashable key) = Some (value, expire_at)
    ∧ (now <= expire_at)%Q.

Lemma get_or_fetch_hit c ns key fetch_fn ttl none_ttl now now_set value expire_at :
  dict_get (_store c) (ns, _make_hashable key) = Some (value, expire_at) →
  (now <= expire_at)%Q →
  get_or_fetch c ns key fetch_fn ttl none_ttl now now_set
  = (Ret (match value with _NONE_CACHED => PyNone | _ => value end),
     mkCache (_default_ttl c) (_maxsize c) (_store c) (S (_hits c)) (_misses c), O).
Proof. intros Hg Hle. unfold get_or_fetch. rewrite Hg. by rewrite decide_True. Qed.

(** The cache [get_or_fetch] hands to [set] after a miss. *)
Definition after_miss c (ns : string) (key : pykey) : HFCache V :=
  mkCache (_default_ttl c) (_maxsize c)
          (match dict_get (_store c) (ns, _make_hashable key) with
           | Some _ => dict_del (_store c) (ns, _make_hashable key)
           | None => _store c
           end)
          (_hits c) (S (_misses c)).

Lemma get_or_fetch_miss c ns key fetch_fn ttl none_ttl now now_set :
  ¬ fresh_at c ns key now →
  get_or_fetch c ns key fetch_fn ttl none_ttl now now_set
  = let c1 := after_miss c ns key in
    match fetch_fn tt with
    | PyNone =>
        if decide (0 < none_ttl) then
          match set c1 ns key PyNone (Some none_ttl) now_set with
          | Ret c2 => (Ret PyNone, c2, 1%nat)
          | Raise e => (Raise e, c1, 1%nat)
          end
        else (Ret PyNone, c1, 1%nat)
    | value =>
        match set c1 ns key value ttl now_set with
        | Ret c2 => (Ret value, c2, 1%nat)
        | Raise e => (Raise e, c1, 1%nat)
        end
    end.
Proof.
  intros Hmiss. unfold get_or_fetch, after_miss.
  destruct (dict_get (_store c) (ns, _make_hashable key)) as [[value expire_at] |] eqn:Hg.
  - destruct (decide (now <= expire_at)%Q) as [Hle |].
    + exfalso. apply Hmiss. by exists value, expire_at.
    + by destruct (fetch_fn tt).
  - by destruct (fetch_fn tt).
Qed.

(** [get_or_fetch] serves a live entry without calling [fetch_fn] and
    leaves the store as it is.  On a miss it calls [fetch_fn] once and
    returns its result; a result other than [None] is then served by [get]
    until its expiry. *)
Theorem get_or_fetch_reads_through c (ns : string) (key : pykey)
    (fetch_fn : unit → pyobj V) (ttl : option Z) (none_ttl : Z) (now now_set : Q) :
  0 ≤ _maxsize c →
  (∀ value expire_at,
     dict_get (_store c) (ns, _make_hashable key) = Some (value, expire_at) →
     (now <= expire_at)%Q →
     (get_or_fetch c ns key fetch_fn ttl none_ttl now now_set).1.1
       = Ret (match value with _NONE_CACHED => PyNone | _ => value end)
     ∧ (get_or_fetch c ns key fetch_fn ttl none_ttl now now_set).2 = O
     ∧ _store (get_or_fetch c ns key fetch_fn ttl none_ttl now now_set).1.2 = _store c)
  ∧ (¬ fresh_at c ns key now →
     (get_or_fetch c ns key fetch_fn ttl none_ttl now now_set).1.1 = Ret (fetch_fn tt)
     ∧ (get_or_fetch c ns key fetch_fn ttl none_ttl now now_set).2 = 1%nat
     ∧ (fetch_fn tt ≠ PyNone →
        ∀ dflt now',
          (now' <= now_set + inject_Z (default (_default_ttl c) ttl))%Q →
          (get (get_or_fetch c ns key fetch_fn ttl none_ttl now now_set).1.2
               ns key dflt now').1 = unwrapped (fetch_fn tt))).
Proof.
  intros Hm. split.
  - intros value expire_at Hg Hle. by rewrite (get_or_fetch_hit _ _ _ _ _ _ _ _ _ _ Hg Hle).
  - intros Hmiss. rewrite (get_or_fetch_miss _ _ _ _ _ _ _ _ Hmiss). simpl.
    assert (0 ≤ _maxsize (after_miss c ns key)) as Hm1 by done.
    destruct (fetch_fn tt) as [| | | v] eqn:Hf.
    + destruct (decide (0 < none_ttl)).
      * destruct (set_returns (after_miss c ns key) ns key PyNone (Some none_ttl) now_set Hm1)
          as [c2 ->]. simpl. by repeat split.
      * simpl. by repeat split.
    + destruct (set_then_lookup_live (after_miss c ns key) ns key _SENTINEL ttl now_set Hm1)
        as (c2 & -> & Hget). simpl. repeat split; try done; intros _; apply Hget.
    + destruct (set_then_lookup_live (after_miss c ns key) ns key _NONE_CACHED ttl now_set Hm1)
        as (c2 & -> & Hget). simpl. repeat split; try done; intros _; apply Hget.
    + destruct (set_then_lookup_live (after_miss c ns key) ns key (Obj v) ttl now_set Hm1)
        as (c2 & -> & Hget). simpl. repeat split; try done; intros _; apply Hget.
Qed.

(** A [None] result is cached for [none_ttl] seconds: until then a further
    [get_or_fetch] returns [None] without calling its [fetch_fn].  With
    [none_ttl <= 0] nothing is stored and the next call fetches again. *)
Theorem get_or_fetch_caches_none c (ns : string) (key : pykey)
    (fetch_fn : unit → pyobj V) (ttl : option Z) (none_ttl : Z) (now now_set : Q) :
  0 ≤ _maxsize c →
  well_formed (_store c) →
  ¬ fresh_at c ns key now →
  fetch_fn tt = PyNone →
  (0 < none_ttl →
     ∀ fetch_fn' ttl' none_ttl' now' now_set',
       (now' <= now_set + inject_Z none_ttl)%Q →
       (get_or_fetch (get_or_fetch c ns key fetch_fn ttl none_ttl now now_set).1.2
                     ns key fetch_fn' ttl' none_ttl' now' now_set').1.1 = Ret PyNone
       ∧ (get_or_fetch (get_or_fetch c ns key fetch_fn ttl none_ttl now now_set).1.2
                       ns key fetch_fn' ttl' none_ttl' now' now_set').2 = O)
  ∧ (none_ttl ≤ 0 →
     ∀ fetch_fn' ttl' none_ttl' now' now_set',
       (get_or_fetch (get_or_fetch c ns key fetch_fn ttl none_ttl now now_set).1.2
                     ns key fetch_fn' ttl' none_ttl' now' now_set').2 = 1%nat).
Proof.
  intros Hm Hwf Hmiss Hf. rewrite (get_or_fetch_miss _ _ _ _ _ _ _ _ Hmiss), Hf. simpl.
  assert (0 ≤ _maxsize (after_miss c ns key)) as Hm1 by done.
  split; intros Hn.
  - rewrite decide_True by done.
    destruct (set_returns (after_miss c ns key) ns key PyNone (Some none_ttl) now_set Hm1)
      as [c2 Hset]. rewrite Hset. simpl.
    pose proof (set_then_lookup _ _ _ _ _ _ _ Hset) as Hl. simpl in Hl.
    intros fetch_fn' ttl' none_ttl' now' now_set' Hle.
    by rewrite (get_or_fetch_hit _ _ _ _ _ _ _ _ _ _ Hl Hle).
  - rewrite decide_False by lia. simpl.
    intros fetch_fn' ttl' none_ttl' now' now_set'.
    assert (dict_get (_store (after_miss c ns key)) (ns, _make_hashable key) = None) as Hgone.
    { unfold after_miss. simpl.
      destruct (dict_get (_store c) (ns, _make_hashable key)) eqn:Hg; [| done].
      rewrite dict_del_filter by done.
      rewrite_get_filter (λ k : cache_key, k ≠ (ns, _make_hashable key)).
      by rewrite decide_False by tauto. }
    rewrite get_or_fetch_miss.
    + simpl. destruct (fetch_fn' tt); try destruct (decide _);
        try destruct (set _ _ _ _ _ _); done.
    + intros (value & expire_at & Hg & _). congruence.
Qed.

End Values.

(** A cache bounded to two entries that holds a user, expiring at 50, and a
    forum cached as absent, expiring at 20. *)
Definition two_entries : HFCache Z :=
  mkCache 300 2
          [(("user", KAtom (SInt 761578)), (Obj 7, 50%Q));
           (("forum", KAtom (SInt 25)), (_NONE_CACHED, 20%Q))]
          0 0.

Lemma two_entries_well_formed : well_formed (_store two_entries).
Proof. unfold well_formed. compute_done. Qed.

Lemma purge_expired_is_invisible_witness :
  _store (purge_expired two_entries 30).2
  = filter (λ kv : cache_key * (pyobj Z * Q), ¬ (kv.2.2 < 30)%Q) (_store two_entries).
Proof.
  destruct (purge_expired_is_invisible two_entries 30 two_entries_well_formed) as [H _].
  exact H.
Defined.

Lemma invalidate_empties_one_namespace_witness :
  _store (invalidate two_entries "forum").2
  = filter (λ kv : cache_key * (pyobj Z * Q), kv.1.1 ≠ "forum") (_store two_entries).
Proof.
  destruct (invalidate_empties_one_namespace two_entries "forum" two_entries_well_formed)
    as [H _].
  exact H.
Defined.

Lemma delete_removes_one_key_witness :
  (delete (delete two_entries "user" (KAtom (SInt 761578))).2
          "user" (KAtom (SInt 761578))).1 = false.
Proof.
  destruct (delete_removes_one_key two_entries "user" (KAtom (SInt 761578))
              two_entries_well_formed) as (_ & _ & H & _).
  exact H.
Defined.


Lemma set_evicts_nearest_expiry_witness :
  ∃ victim entry c1,
    set two_entries "me" (KAtom (SStr "me_adv")) (Obj 9) (Some 60) 10 = Ret c1
    ∧ (victim, entry) ∈ _store two_entries
    ∧ (∀ k' e', (k', e') ∈ _store two_entries → (entry.2 <= e'.2)%Q)
    ∧ (victim ≠ ("me", _make_hashable (KAtom (SStr "me_adv"))) →
       dict_get (_store c1) victim = None)
    ∧ (∀ k, k ≠ victim → k ≠ ("me", _make_hashable (KAtom (SStr "me_adv"))) →
          dict_get (_store c1) k = dict_get (_store two_entries) k)
    ∧ (size c1 ≤ size two_entries)%nat.
Proof.
  apply (set_evicts_nearest_expiry two_entries "me" (KAtom (SStr "me_adv")) (Obj 9)
           (Some 60) 10 two_entries_well_formed).
  - simpl. lia.
  - simpl. lia.
Defined.

Lemma get_or_fetch_reads_through_witness :
  (get_or_fetch two_entries "forum" (KAtom (SInt 25)) (λ _, Obj 1) None 60 15 16).1.1
  = Ret PyNone
  ∧ (get_or_fetch two_entries "forum" (KAtom (SInt 25)) (λ _, Obj 1) None 60 15 16).2 = O.
Proof.
  destruct (get_or_fetch_reads_through two_entries "forum" (KAtom (SInt 25)) (λ _, Obj 1)
              None 60 15 16) as [Hhit _]; [simpl; lia |].
  destruct (Hhit _NONE_CACHED 20%Q eq_refl) as (H1 & H2 & _); [compute_done |].
  split; [exact H1 | exact H2].
Defined.

Lemma get_or_fetch_caches_none_witness :
  (get_or_fetch (get_or_fetch (init (V:=Z) 300 0) "user" (KAtom (SInt 4)) (λ _, PyNone)
                              None 60 100 101).1.2
                "user" (KAtom (SInt 4)) (λ _, Obj 1) None 60 150 151).2 = O.
Proof.
  destruct (get_or_fetch_caches_none (init (V:=Z) 300 0) "user" (KAtom (SInt 4))
              (λ _, PyNone) None 60 100 101) as [Hcached _].
  - simpl. lia.
  - apply NoDup_nil_2.
  - intros (value & expire_at & Hg & _). discriminate Hg.
  - reflexivity.
  - destruct (Hcached ltac:(lia) (λ _, Obj 1) None 60 150%Q 151%Q) as [_ H];
      [compute_done |].
    exact H.
Defined.

End CacheOps.

(** ** HFPaginator.py: stop conditions, delays and the walkers built on it *)

Module PaginatorOps.
Import Paginator.

Section Walk.
Context {Item : Type}.

(** The items in front of the first one that the stop condition accepts. *)
Fixpoint before_stop (stop_condition : option (Item → bool)) (items : list Item)
    : list Item :=
  match items with
  | [] => []
  | item :: rest =>
      if stop_hit stop_condition item then []
      else item :: before_stop stop_condition rest
  end.

(** The effects of fetching the given pages, with a sleep in front of every
    page but page 1 when the delay is positive. *)
Definition paced (delay : Q) (pages : list Z) : list effect :=
  pages ≫= λ page,
    if bool_decide (1 < page) && bool_decide (0 < delay)%Q
    then [Sleep delay; Fetch page] else [Fetch page].

Lemma before_stop_app stop_condition items more :
  before_stop stop_condition (items ++ more)
  = if forallb (λ item, negb (stop_hit stop_condition item)) items
    then items ++ before_stop stop_condition more
    else before_stop stop_condition items.
Proof.
  induction items as [| item items IH]; simpl; [done |].
  destruct (stop_hit stop_condition item); simpl; [done |].
  rewrite IH. by destruct (forallb _ items).
Qed.

Lemma collect_spec stop_condition items : ∀ acc,
  collect stop_condition items acc
  = (acc ++ before_stop stop_condition items,
     negb (forallb (λ item, negb (stop_hit stop_condition item)) items)).
Proof.
  induction items as [| item items IH]; intros acc; simpl.
  - by rewrite app_nil_r.
  - destruct (stop_hit stop_condition item); simpl; [by rewrite app_nil_r |].
    rewrite IH. by rewrite <- app_assoc.
Qed.

Lemma before_stop_clean stop_condition items :
  Forall (λ item, stop_hit stop_condition item = false)
         (before_stop stop_condition items).
Proof.
  induction items as [| item items IH]; simpl; [constructor |].
  destruct (stop_hit stop_condition item) eqn:E; [constructor | by constructor].
Qed.

Lemma paced_cons delay page pages :
  paced delay (page :: pages) = paced delay [page] ++ paced delay pages.
Proof. unfold paced. simpl. by rewrite app_nil_r. Qed.

Lemma pages_cons (fetch_fn : Z → list Item) page pages :
  mjoin (fetch_fn <$> page :: pages) = fetch_fn page ++ mjoin (fetch_fn <$> pages).
Proof. done. Qed.

Lemma before_stop_all stop_condition items :
  forallb (λ item, negb (stop_hit stop_condition item)) items = true →
  before_stop stop_condition items = items.
Proof.
  intros Hclean. pose proof (before_stop_app stop_condition items []) as Ha.
  rewrite Hclean in Ha. simpl in Ha. by rewrite !app_nil_r in Ha.
Qed.

(** The walk over a list of pages: which pages it fetches, what it collects
    and what it does, from any state of the walk on. *)
Lemma loop_spec fetch_fn perpage stop_condition delay pages : ∀ w,
  ∃ k : nat,
    all_items (loop fetch_fn perpage stop_condition delay pages w)
      = all_items w ++ before_stop stop_condition (mjoin (fetch_fn <$> take k pages))
    ∧ effects (loop fetch_fn perpage stop_condition delay pages w)
      = effects w ++ paced delay (take k pages).
Proof.
  induction pages as [| page more IH]; intros w.
  - exists O. simpl. by rewrite !app_nil_r.
  - cbn [loop].
    set (slept := if _ && _ then _ else _).
    assert ((slept ++ [Fetch page]) = effects w ++ paced delay [page]) as Hdone.
    { unfold slept, paced. simpl. rewrite app_nil_r.
      destruct (_ && _); [by rewrite <- app_assoc | done]. }
    assert (∀ acc,
              acc = all_items w ++ before_stop stop_condition (fetch_fn page) →
              all_items (mkWalk acc (slept ++ [Fetch page]))
              = all_items w
                ++ before_stop stop_condition (mjoin (fetch_fn <$> take 1 (page :: more)))
              ∧ effects (mkWalk acc (slept ++ [Fetch page]))
                = effects w ++ paced delay (take 1 (page :: more))) as Hlast.
    { intros acc ->. change (take 1 (page :: more)) with [page].
      rewrite pages_cons. simpl. by rewrite app_nil_r. }
    destruct (fetch_fn page) as [| i0 items0] eqn:Hitems.
    { exists 1%nat. apply Hlast. simpl. by rewrite app_nil_r. }
    rewrite collect_spec. rewrite <- Hitems in *.
    destruct (forallb (λ item, negb (stop_hit stop_condition item)) (fetch_fn page))
      eqn:Hclean; cbn [negb].
    + destruct (Z.ltb_spec (Z.of_nat (length (fetch_fn page))) perpage).
      * exists 1%nat. by apply Hlast.
      * destruct (IH (mkWalk (all_items w ++ before_stop stop_condition (fetch_fn page))
                             (slept ++ [Fetch page]))) as (k & Hitems' & Heff).
        exists (S k). change (take (S k) (page :: more)) with (page :: take k more).
        rewrite Hitems', Heff. cbn [all_items effects].
        rewrite Hdone, pages_cons, (paced_cons delay page (take k more)).
        rewrite before_stop_app, Hclean.
        rewrite (before_stop_all _ _ Hclean). by rewrite <- !app_assoc.
    + exists 1%nat. by apply Hlast.
Qed.

Lemma fetched_paced delay pages : fetched (paced delay pages) = pages.
Proof.
  induction pages as [| page pages IH]; [done |].
  rewrite paced_cons, fetched_app, IH. unfold paced. simpl.
  by destruct (_ && _).
Qed.

Lemma length_before_stop stop_condition items :
  (length (before_stop stop_condition items) ≤ length items)%nat.
Proof.
  induction items as [| item items IH]; simpl; [done |].
  destruct (stop_hit stop_condition item); simpl; lia.
Qed.

Lemma length_pages (fetch_fn : Z → list Item) (perpage : nat) pages :
  (∀ page, (length (fetch_fn page) ≤ perpage)%nat) →
  (length (mjoin (fetch_fn <$> pages)) ≤ length pages * perpage)%nat.
Proof.
  intros Hfull. induction pages as [| page pages IH]; [done |].
  rewrite pages_cons, length_app. specialize (Hfull page). simpl. lia.
Qed.

(** A stop condition that accepts the same items gives the same walk. *)
Lemma collect_ext (sc1 sc2 : option (Item → bool)) items :
  (∀ item, stop_hit sc1 item = stop_hit sc2 item) →
  ∀ acc, collect sc1 items acc = collect sc2 items acc.
Proof.
  intros Hsame. induction items as [| item items IH]; intros acc; simpl; [done |].
  rewrite Hsame. by destruct (stop_hit sc2 item).
Qed.

Lemma loop_ext fetch_fn perpage (sc1 sc2 : option (Item → bool)) delay pages :
  (∀ item, stop_hit sc1 item = stop_hit sc2 item) →
  ∀ w, loop fetch_fn perpage sc1 delay pages w = loop fetch_fn perpage sc2 delay pages w.
Proof.
  intros Hsame. induction pages as [| page more IH]; intros w; [done |].
  cbn [loop]. rewrite (collect_ext sc1 sc2 _ Hsame).
  destruct (fetch_fn page); [done |].
  destruct (collect sc2 _ _) as [acc stop]. destruct stop; [done |].
  destruct (_ <? _); [done | apply IH].
Qed.

(** [str(item.get(field))] *)
Definition str_of_field (field : option scalar) : string :=
  match field with
  | Some x => str x
  | None => "None"
  end.

(** [get_all_posts_by_user(posts_api, uid, perpage, max_pages, stop_at_pid)]:
    [get_by_user] is [posts_api.get_by_user] and [get_pid item] is
    [item.get("pid")]. *)
Definition get_all_posts_by_user (get_by_user : Z → Z → Z → list Item)
    (get_pid : Item → option scalar) (uid perpage max_pages stop_at_pid : Z) : walk :=
  _paginate (λ page, get_by_user uid page perpage) max_pages perpage
    (Some (λ item, bool_decide (stop_at_pid ≠ 0)
                   && bool_decide (str_of_field (get_pid item) = str (SInt stop_at_pid))))
    PAGE_DELAY.

Lemma paginate_items_clean (fetch_fn : Z → list Item)
    (max_pages perpage : Z) (stop_condition : option (Item → bool)) (delay : Q) :
  Forall (λ item, stop_hit stop_condition item = false)
         (all_items (_paginate fetch_fn max_pages perpage stop_condition delay)).
Proof.
  unfold _paginate.
  destruct (loop_spec fetch_fn perpage stop_condition delay (seqZ 1 max_pages)
              (mkWalk [] [])) as (k & Hitems & _).
  rewrite Hitems. apply before_stop_clean.
Qed.

(** The items of a walk are the fetched pages laid end to end and cut in
    front of the first item that the stop condition accepts; no item that
    the stop condition accepts is returned. *)
Theorem paginate_returns_pages_up_to_stop (fetch_fn : Z → list Item)
    (max_pages perpage : Z) (stop_condition : option (Item → bool)) (delay : Q) :
  let r := _paginate fetch_fn max_pages perpage stop_condition delay in
  all_items r = before_stop stop_condition (mjoin (fetch_fn <$> fetched (effects r)))
  ∧ Forall (λ item, stop_hit stop_condition item = false) (all_items r).
Proof.
  unfold _paginate.
  destruct (loop_spec fetch_fn perpage stop_condition delay (seqZ 1 max_pages)
              (mkWalk [] [])) as (k & Hitems & Heff).
  cbn zeta. rewrite Hitems, Heff. cbn [all_items effects app].
  rewrite fetched_paced. split; [done | apply before_stop_clean].
Qed.

(** A walk sleeps for [delay] in front of every fetch but the first when
    the delay is positive, and does nothing but fetch otherwise. *)
Theorem paginate_sleeps_between_pages (fetch_fn : Z → list Item)
    (max_pages perpage : Z) (stop_condition : option (Item → bool)) (delay : Q) :
  let r := _paginate fetch_fn max_pages perpage stop_condition delay in
  effects r = paced delay (fetched (effects r))
  ∧ (∀ es, effects r ≠ Sleep delay :: es)
  ∧ (¬ (0 < delay)%Q → effects r = Fetch <$> fetched (effects r)).
Proof.
  unfold _paginate.
  destruct (loop_spec fetch_fn perpage stop_condition delay (seqZ 1 max_pages)
              (mkWalk [] [])) as (k & _ & Heff).
  cbn zeta. rewrite Heff. cbn [effects app]. rewrite fetched_paced.
  split; [done |]. split.
  - intros es. destruct (decide (0 < max_pages)) as [Hpos | Hnone].
    + replace max_pages with (1 + (max_pages - 1)) by lia.
      rewrite seqZ_cons by lia. destruct k; [done |]. by rewrite firstn_cons, paced_cons.
    + rewrite seqZ_nil by lia. by rewrite take_nil.
  - intros Hdelay. clear Heff.
    induction (take k (seqZ 1 max_pages)) as [| page pages IH]; [done |].
    rewrite paced_cons, IH, fmap_cons. unfold paced at 1. simpl.
    rewrite (bool_decide_eq_false_2 _ Hdelay), andb_false_r. done.
Qed.

(** When no page holds more than [perpage] items, a walk returns at most
    [max_pages * perpage] items. *)
Theorem paginate_result_is_bounded (fetch_fn : Z → list Item)
    (max_pages perpage : Z) (stop_condition : option (Item → bool)) (delay : Q) :
  (∀ page, Z.of_nat (length (fetch_fn page)) ≤ perpage) →
  Z.of_nat (length (all_items (_paginate fetch_fn max_pages perpage stop_condition delay)))
  ≤ Z.max 0 max_pages * perpage.
Proof.
  intros Hfull. unfold _paginate.
  destruct (loop_spec fetch_fn perpage stop_condition delay (seqZ 1 max_pages)
              (mkWalk [] [])) as (k & Hitems & _).
  rewrite Hitems. cbn [all_items app].
  pose proof (length_before_stop stop_condition
                (mjoin (fetch_fn <$> take k (seqZ 1 max_pages)))) as Hcut.
  pose proof (length_pages fetch_fn (Z.to_nat perpage) (take k (seqZ 1 max_pages))) as Hlen.
  assert ((length (take k (seqZ 1 max_pages)) ≤ Z.to_nat max_pages)%nat) as Hk.
  { rewrite length_take, length_seqZ. lia. }
  assert (0 ≤ perpage) as Hper by (specialize (Hfull 1); lia).
  specialize (Hlen ltac:(intros page; specialize (Hfull page); lia)). nia.
Qed.

(** With [stop_at_pid = 0] the walk over a user's posts has no stop
    condition. *)
Theorem stop_at_pid_zero_never_stops (get_by_user : Z → Z → Z → list Item)
    (get_pid : Item → option scalar) (uid perpage max_pages : Z) :
  get_all_posts_by_user get_by_user get_pid uid perpage max_pages 0
  = _paginate (λ page, get_by_user uid page perpage) max_pages perpage None PAGE_DELAY.
Proof. unfold get_all_posts_by_user, _paginate. by apply loop_ext. Qed.

(** With a [stop_at_pid] other than 0, the walk over a user's posts returns
    no post whose pid is that number, be it held as a number or as its
    decimal text. *)
Theorem stop_at_pid_is_not_returned (get_by_user : Z → Z → Z → list Item)
    (get_pid : Item → option scalar) (uid perpage max_pages stop_at_pid : Z) item :
  stop_at_pid ≠ 0 →
  item ∈ all_items (get_all_posts_by_user get_by_user get_pid uid perpage max_pages
                      stop_at_pid) →
  get_pid item ≠ Some (SInt stop_at_pid)
  ∧ get_pid item ≠ Some (SStr (str_of_int stop_at_pid)).
Proof.
  intros Hstop Hin. unfold get_all_posts_by_user in Hin.
  pose proof (paginate_items_clean
              (λ page, get_by_user uid page perpage) max_pages perpage
              (Some (λ item, bool_decide (stop_at_pid ≠ 0)
                   && bool_decide (str_of_field (get_pid item) = str (SInt stop_at_pid))))
              PAGE_DELAY) as Hclean.
  rewrite Forall_forall in Hclean. specialize (Hclean item Hin). simpl in Hclean.
  rewrite (bool_decide_eq_true_2 _ Hstop) in Hclean. simpl in Hclean.
  apply bool_decide_eq_false in Hclean.
  split; intros Hpid; apply Hclean; by rewrite Hpid.
Qed.

End Walk.

(** A page of posts as (pid, text) pairs. *)
Definition posts_of_user (uid page perpage : Z) : list (scalar * string) :=
  if decide (page = 1)
  then [(SInt 11, "a"); (SStr "12", "b"); (SInt 13, "c")]
  else [].

Lemma paginate_result_is_bounded_witness :
  Z.of_nat (length (all_items (_paginate three_pages 50 20 None PAGE_DELAY)))
  ≤ Z.max 0 50 * 20.
Proof.
  apply paginate_result_is_bounded.
  intros page. unfold three_pages. repeat (destruct (decide _); [by vm_compute |]).
  by vm_compute.
Defined.

Lemma stop_at_pid_is_not_returned_witness :
  Some (SInt 11) ≠ Some (SInt 12) ∧ Some (SInt 11) ≠ Some (SStr (str_of_int 12)).
Proof.
  apply (stop_at_pid_is_not_returned posts_of_user (λ item, Some item.1) 7 20 50 12
           (SInt 11, "a")); [lia |].
  vm_compute. by left.
Defined.

End PaginatorOps.

(** ** The watches over many polls: [src/HFWatcher.py] *)

Module WatcherOps.
Import Watcher.

(** *** Ids announced against a seen-set *)

Section Once.
Context {W K : Type} `{EqDecision K}.
(** The seen-set of a watch, and the id an event is filed under there. *)
Variable seen : W → list K.
Variable id_of : event → option K.

(** The ids handed to the callback, in order. *)
Definition ids (log : list (action W)) : list K := omap id_of (events log).

(** From [w] with [log] to [w'] with [log']: the seen-set has only grown,
    and the ids announced in between are distinct, were not in it before and
    are in it now. *)
Definition grows (w : W) (log : list (action W)) (w' : W) (log' : list (action W))
    : Prop :=
  ∃ added, log' = log ++ added
    ∧ (∀ k, k ∈ seen w → k ∈ seen w')
    ∧ NoDup (ids added)
    ∧ ∀ k, k ∈ ids added → (k ∉ seen w) ∧ k ∈ seen w'.

Lemma ids_app log1 log2 : ids (log1 ++ log2) = ids log1 ++ ids log2.
Proof. unfold ids. by rewrite events_app, omap_app. Qed.

Lemma grows_quiet w log w' :
  (∀ k, k ∈ seen w → k ∈ seen w') → grows w log w' log.
Proof.
  intros Hsub. exists []. rewrite app_nil_r. split; [done |]. split; [done |].
  split; [constructor |]. intros k Hk. by apply elem_of_nil in Hk.
Qed.

Lemma grows_refl w log : grows w log w log.
Proof. by apply grows_quiet. Qed.

Lemma grows_announce w log w' w'' ev k :
  id_of ev = Some k → k ∉ seen w → seen w' = set_add (seen w) k →
  grows w log w' (log ++ [Called ev w'']).
Proof.
  intros Hid Hnew Hseen. exists [Called ev w'']. split; [done |].
  assert (ids [Called ev w''] = [k]) as Hids.
  { unfold ids. rewrite events_cons_called. simpl. by rewrite Hid. }
  rewrite Hids, Hseen. split; [| split; [apply NoDup_singleton |]].
  - intros k' Hk'. apply elem_of_set_add. by left.
  - intros k' Hk'. apply list_elem_of_singleton in Hk' as ->.
    split; [done |]. apply elem_of_set_add. by right.
Qed.

Lemma grows_trans w log w1 log1 w2 log2 :
  grows w log w1 log1 → grows w1 log1 w2 log2 → grows w log w2 log2.
Proof.
  intros (a1 & -> & Hs1 & Hn1 & Hi1) (a2 & -> & Hs2 & Hn2 & Hi2).
  exists (a1 ++ a2). rewrite app_assoc. split; [done |]. split; [auto |].
  rewrite ids_app. split.
  - apply NoDup_app. split; [done |]. split; [| done].
    intros k Hk1 Hk2. destruct (Hi1 k Hk1) as [_ Hin]. destruct (Hi2 k Hk2) as [Hout _].
    done.
  - intros k Hk. apply elem_of_app in Hk as [Hk | Hk].
    + destruct (Hi1 k Hk). auto.
    + destruct (Hi2 k Hk) as [Hout Hin]. split; [| done]. intros Hw. apply Hout. auto.
Qed.

Lemma for_each_grows {A} (body : A → poll W unit) (l : list A) :
  (∀ x w log, grows w log (body x w log).1.2 (body x w log).2) →
  ∀ w log, grows w log (for_each l body w log).1.2 (for_each l body w log).2.
Proof.
  intros Hbody w log.
  apply (for_each_invariant (λ w' log', grows w log w' log')); [| apply grows_refl].
  intros x w' log' _ Hg. eapply grows_trans; [exact Hg | apply Hbody].
Qed.

(** What [grows] says of the log alone. *)
Lemma grows_log w log w' log' :
  grows w log w' log' →
  ∃ added, log' = log ++ added ∧ NoDup (ids added) ∧ ∀ k, k ∈ ids added → k ∉ seen w.
Proof.
  intros (added & -> & _ & Hn & Hi). exists added. split; [done |]. split; [done |].
  intros k Hk. by destruct (Hi k Hk).
Qed.

End Once.

(** *** Bytes watch *)

(** The transfer id of an event. *)
Definition txid_of (ev : event) : option string :=
  match ev with
  | bytes_received id _ _ _ _ => Some id
  | _ => None
  end.

(** [_bytes_loop(w)]: one poll per round of the [while], each against the
    API as it is in that round.  An exception ends the poll at hand and the
    loop goes on (no error handler is set, or it returns). *)
Definition _bytes_loop (callback : event → bool) (rounds : list HFClient)
    (w : Bytes._BytesWatch) : Bytes._BytesWatch * list (action Bytes._BytesWatch) :=
  foldl (λ st hf, let r := Bytes._poll_bytes hf callback st.1 st.2 in (r.1.2, r.2))
        (w, []) rounds.

(** The client with another reply to the [me] query. *)
Definition with_me (hf : HFClient) (reply : response me_row) : HFClient :=
  mkClient (threads_by_tid hf) (threads_by_fid hf) (threads_by_uid hf)
           (posts_by_tid hf) (posts_by_uid hf) reply (bytes_to hf).

(** The ids that seeding takes from a list of transfers: the [str] of each
    id, a null id giving ["None"], unless it is the empty text. *)
Definition txids (txs : list tx_row) : list string :=
  filter (λ txid, txid ≠ "") ((λ tx, str_or_empty (x_id tx)) <$> txs).

(** A client that knows the account and lists its incoming transfers. *)
Definition bytes_client (uid : Z) (txs : list tx_row) : HFClient :=
  mkClient (λ _, None) (λ _, None) (λ _ _ _, None) (λ _ _ _, None) (λ _ _ _, None)
           (Some (ROne (mkMe (Some uid)))) (λ _ _, Some (RMany txs)).

Definition transfer (id : Z) (dateline : Z) : tx_row :=
  mkTx (Val (SInt id)) (Some 5%Q) (Some dateline) Missing Missing.

(** Transfers whose id is JSON null, and whose id is missing. *)
Definition transfer_null_id (dateline : Z) : tx_row :=
  mkTx Null (Some 5%Q) (Some dateline) Missing Missing.

Definition transfer_no_id (dateline : Z) : tx_row :=
  mkTx Missing (Some 5%Q) (Some dateline) Missing Missing.

Section BytesFacts.
Variable hf : HFClient.
Variable callback : event → bool.

Lemma resolve_uid_known w log u :
  Bytes._my_uid w = Some u → Bytes.resolve_uid hf w log = (Ret (Some u), w, log).
Proof. intros Hu. unfold Bytes.resolve_uid, bind, this. simpl. by rewrite Hu. Qed.

(** The uid block either leaves the watch alone and gives no uid, or stores
    the uid it gives. *)
Lemma resolve_uid_spec w log :
  ∃ st w1, Bytes.resolve_uid hf w log = (st, w1, log)
    ∧ Bytes._seen_ids w1 = Bytes._seen_ids w
    ∧ match st with
      | Ret (Some u) => Bytes._my_uid w1 = Some u
      | _ => w1 = w ∧ Bytes._my_uid w = None
      end.
Proof.
  unfold Bytes.resolve_uid, bind, this. simpl.
  destruct (Bytes._my_uid w) as [u |] eqn:Hu; [by exists (Ret (Some u)), w |].
  destruct (me hf) as [[| me_data | [| me_data rest]] |];
    try (by eexists _, w; split; [reflexivity |]);
    (destruct (decide _); [by eexists _, w; split; [reflexivity |] |]);
    by eexists _, _; split; [reflexivity |].
Qed.

Lemma seed_txs_spec txs : ∀ w log,
  for_each txs Bytes.seed_tx w log
  = (Ret tt,
     Bytes.mkBytesWatch (Bytes.interval w) (foldl set_add (Bytes._seen_ids w) (txids txs))
                        (Bytes._initialized w) (Bytes._my_uid w),
     log).
Proof.
  induction txs as [| tx txs IH]; intros w log; [by destruct w |].
  rewrite for_each_cons, Bytes.seed_tx_eq. unfold txids. rewrite fmap_cons.
  destruct (decide (str_or_empty (x_id tx) ≠ "")) as [Hid | Hno].
  - rewrite IH, filter_cons_True by done. done.
  - rewrite IH, filter_cons_False by done. done.
Qed.

Lemma emit_tx_grows tx w log :
  grows Bytes._seen_ids txid_of w log
        (Bytes.emit_tx callback tx w log).1.2 (Bytes.emit_tx callback tx w log).2.
Proof.
  rewrite Bytes.emit_tx_eq. cbn zeta.
  destruct (decide _) as [Hskip | Hnew]; [apply grows_refl |].
  cbn [fst snd]. eapply grows_announce; [reflexivity | tauto | done].
Qed.

Lemma emit_tx_keeps_uid tx w log :
  Bytes._my_uid (Bytes.emit_tx callback tx w log).1.2 = Bytes._my_uid w.
Proof. rewrite Bytes.emit_tx_eq. cbn zeta. by destruct (decide _). Qed.

(** What a poll does after the uid block, with the uid in hand. *)
Definition read_transfers (my_uid : Z) : poll Bytes._BytesWatch unit :=
  match bytes_to hf my_uid 20 with
  | None => ret tt
  | Some txs =>
      let* w := this in
      if negb (Bytes._initialized w) then
        let* _ := for_each (or_empty txs) Bytes.seed_tx in
        update Bytes.initialized
      else
        for_each (sorted (λ x, int_or_0 (x_dateline x)) (or_empty txs))
                 (Bytes.emit_tx callback)
  end.

Lemma poll_bytes_eq w log :
  Bytes._poll_bytes hf callback w log
  = match Bytes.resolve_uid hf w log with
    | (Ret (Some my_uid), w1, log1) => read_transfers my_uid w1 log1
    | (Ret None, w1, log1) => (Ret tt, w1, log1)
    | (Raise e, w1, log1) => (Raise e, w1, log1)
    end.
Proof.
  unfold Bytes._poll_bytes, bind at 1.
  by destruct (Bytes.resolve_uid hf w log) as [[[[my_uid |] | e] w1] log1].
Qed.

Lemma read_transfers_eq my_uid w log :
  read_transfers my_uid w log
  = match bytes_to hf my_uid 20 with
    | None => (Ret tt, w, log)
    | Some txs =>
        if negb (Bytes._initialized w)
        then (Ret tt,
              Bytes.mkBytesWatch (Bytes.interval w)
                (foldl set_add (Bytes._seen_ids w) (txids (or_empty txs))) true
                (Bytes._my_uid w),
              log)
        else for_each (sorted (λ x, int_or_0 (x_dateline x)) (or_empty txs))
                      (Bytes.emit_tx callback) w log
    end.
Proof.
  unfold read_transfers. destruct (bytes_to hf my_uid 20) as [txs |]; [| done].
  unfold bind at 1, this. destruct (negb (Bytes._initialized w)); [| done].
  unfold bind. by rewrite seed_txs_spec.
Qed.

Lemma foldl_set_add_keeps (l : list string) : ∀ s k, k ∈ s → k ∈ foldl set_add s l.
Proof.
  induction l as [| x l IH]; intros s k Hk; [done |].
  simpl. apply IH. apply elem_of_set_add. by left.
Qed.

Lemma read_transfers_grows my_uid w log :
  grows Bytes._seen_ids txid_of w log
        (read_transfers my_uid w log).1.2 (read_transfers my_uid w log).2.
Proof.
  rewrite read_transfers_eq.
  destruct (bytes_to hf my_uid 20) as [txs |]; [| apply grows_refl].
  destruct (negb (Bytes._initialized w)).
  - apply grows_quiet. cbn. intros k. apply foldl_set_add_keeps.
  - apply for_each_grows. intros x w' log'. apply emit_tx_grows.
Qed.

Lemma read_transfers_keeps_uid my_uid w log :
  Bytes._my_uid (read_transfers my_uid w log).1.2 = Bytes._my_uid w.
Proof.
  rewrite read_transfers_eq.
  destruct (bytes_to hf my_uid 20) as [txs |]; [| done].
  destruct (negb (Bytes._initialized w)); [done |].
  apply (for_each_invariant (λ w' _, Bytes._my_uid w' = Bytes._my_uid w)); [| done].
  intros x w' log' _ Hu. by rewrite emit_tx_keeps_uid.
Qed.

Lemma poll_bytes_grows w log :
  grows Bytes._seen_ids txid_of w log
        (Bytes._poll_bytes hf callback w log).1.2 (Bytes._poll_bytes hf callback w log).2.
Proof.
  rewrite poll_bytes_eq.
  destruct (resolve_uid_spec w log) as (st & w1 & -> & Hseen & Hst).
  assert (grows Bytes._seen_ids txid_of w log w1 log) as Hg.
  { apply grows_quiet. by rewrite Hseen. }
  destruct st as [[my_uid |] | e]; [| done | done].
  eapply grows_trans; [exact Hg | apply read_transfers_grows].
Qed.

End BytesFacts.

Lemma bytes_loop_grows callback rounds : ∀ w log,
  let st := foldl (λ st hf, let r := Bytes._poll_bytes hf callback st.1 st.2 in
                            (r.1.2, r.2)) (w, log) rounds in
  grows Bytes._seen_ids txid_of w log st.1 st.2.
Proof.
  induction rounds as [| hf rounds IH]; intros w log; [apply grows_refl |].
  cbn [foldl]. eapply grows_trans; [apply (poll_bytes_grows hf callback) | apply IH].
Qed.

(** A poll that ends with the account uid still unknown has changed nothing
    and has not called back: the next poll starts from the same place. *)
Theorem bytes_poll_without_uid_changes_nothing (hf : HFClient)
    (callback : event → bool) (w : Bytes._BytesWatch) :
  let r := run_poll (Bytes._poll_bytes hf callback) w in
  Bytes._my_uid (watch r) = None → watch r = w ∧ actions r = [].
Proof.
  unfold run_poll, watch, actions. cbn zeta. rewrite poll_bytes_eq.
  destruct (resolve_uid_spec hf w []) as (st & w1 & -> & _ & Hst).
  destruct st as [[my_uid |] | e]; cbn [fst snd].
  - rewrite read_transfers_keeps_uid. congruence.
  - by destruct Hst as [-> _].
  - by destruct Hst as [-> _].
Qed.

Lemma bytes_poll_without_uid_changes_nothing_witness :
  watch (run_poll (Bytes._poll_bytes (bytes_client 0 [transfer 1 10]) (λ _, true))
                  (Bytes.watch_bytes 60)) = Bytes.watch_bytes 60
  ∧ actions (run_poll (Bytes._poll_bytes (bytes_client 0 [transfer 1 10]) (λ _, true))
                      (Bytes.watch_bytes 60)) = [].
Proof.
  apply (bytes_poll_without_uid_changes_nothing (bytes_client 0 [transfer 1 10])
           (λ _, true) (Bytes.watch_bytes 60)).
  reflexivity.
Defined.

(** Once the account uid is known, a poll keeps it and runs the same
    whatever the [me] query would answer. *)
Theorem bytes_uid_is_kept_once_resolved (hf : HFClient) (callback : event → bool)
    (w : Bytes._BytesWatch) (u : Z) (reply : response me_row) :
  Bytes._my_uid w = Some u →
  Bytes._my_uid (watch (run_poll (Bytes._poll_bytes hf callback) w)) = Some u
  ∧ run_poll (Bytes._poll_bytes (with_me hf reply) callback) w
    = run_poll (Bytes._poll_bytes hf callback) w.
Proof.
  intros Hu. unfold run_poll, watch. rewrite !poll_bytes_eq.
  rewrite !(resolve_uid_known _ _ _ u Hu). split; [| done].
  by rewrite read_transfers_keeps_uid.
Qed.

Lemma bytes_uid_is_kept_once_resolved_witness :
  Bytes._my_uid (watch (run_poll (Bytes._poll_bytes (bytes_client 9 [transfer 1 10])
                                    (λ _, true))
                                 (Bytes.mkBytesWatch 60 [] false (Some 761578))))
  = Some 761578
  ∧ run_poll (Bytes._poll_bytes (with_me (bytes_client 9 [transfer 1 10]) None)
                (λ _, true))
             (Bytes.mkBytesWatch 60 [] false (Some 761578))
    = run_poll (Bytes._poll_bytes (bytes_client 9 [transfer 1 10]) (λ _, true))
               (Bytes.mkBytesWatch 60 [] false (Some 761578)).
Proof.
  apply (bytes_uid_is_kept_once_resolved (bytes_client 9 [transfer 1 10]) (λ _, true)
           (Bytes.mkBytesWatch 60 [] false (Some 761578)) 761578 None).
  reflexivity.
Defined.

(** The first poll that reads the transfer list records the ids listed (the
    [str] of each: a null id as ["None"], none for a missing id), announces
    none of them and marks the watch initialized. *)
Theorem bytes_first_read_seeds_silently (hf : HFClient) (callback : event → bool)
    (w : Bytes._BytesWatch) (u : Z) (txs : rows tx_row) :
  Bytes._initialized w = false → Bytes._my_uid w = Some u →
  bytes_to hf u 20 = Some txs →
  run_poll (Bytes._poll_bytes hf callback) w
  = (Ret tt,
     Bytes.mkBytesWatch (Bytes.interval w)
       (foldl set_add (Bytes._seen_ids w) (txids (or_empty txs))) true (Some u),
     []).
Proof.
  intros Hinit Hu Hread. unfold run_poll.
  rewrite poll_bytes_eq, (resolve_uid_known _ _ _ u Hu).
  rewrite read_transfers_eq, Hread, Hinit. cbn [negb]. by rewrite Hu.
Qed.

Lemma bytes_first_read_seeds_silently_witness :
  run_poll (Bytes._poll_bytes
              (bytes_client 9 [transfer 1 10; transfer_null_id 15; transfer_no_id 17;
                               transfer 2 20])
              (λ _, true))
           (Bytes.mkBytesWatch 60 [] false (Some 9))
  = (Ret tt, Bytes.mkBytesWatch 60 ["1"; "None"; "2"] true (Some 9), []).
Proof.
  apply (bytes_first_read_seeds_silently
           (bytes_client 9 [transfer 1 10; transfer_null_id 15; transfer_no_id 17;
                            transfer 2 20])
           (λ _, true)
           (Bytes.mkBytesWatch 60 [] false (Some 9)) 9
           (RMany [transfer 1 10; transfer_null_id 15; transfer_no_id 17;
                   transfer 2 20])); reflexivity.
Defined.

(** Over any number of polls, whatever the API answers and whether or not
    callbacks raise, no transfer id is announced twice, and none that was in
    the seen-set at the start is announced at all. *)
Theorem bytes_transfer_is_announced_at_most_once (callback : event → bool)
    (rounds : list HFClient) (w : Bytes._BytesWatch) :
  NoDup (ids txid_of (_bytes_loop callback rounds w).2)
  ∧ ∀ id, id ∈ ids txid_of (_bytes_loop callback rounds w).2 → id ∉ Bytes._seen_ids w.
Proof.
  unfold _bytes_loop.
  destruct (grows_log _ _ _ _ _ _ (bytes_loop_grows callback rounds w []))
    as (added & Hlog & Hn & Hi).
  cbn zeta in Hlog. rewrite Hlog. done.
Qed.

(** *** Thread watch *)

(** The post id of a reply event that has one. *)
Definition reply_pid_of (ev : event) : option Z :=
  match ev with
  | thread_reply _ (Some pid) _ _ _ _ => Some pid
  | _ => None
  end.

(** A reply event about the thread that [w] watches, stamped later than the
    baseline of [w]. *)
Definition later_reply (w : Thread._ThreadWatch) (ev : event) : Prop :=
  match ev with
  | thread_reply tid _ _ _ _ dateline =>
      tid = Thread.tid w ∧ Thread._last_post w < dateline
  | _ => False
  end.

Lemma length_foldl_set_add {A} `{EqDecision A} (l : list A) : ∀ s,
  (length (foldl set_add s l) ≤ length s + length l)%nat.
Proof.
  induction l as [| x l IH]; intros s; simpl; [lia |].
  etrans; [apply IH |]. unfold set_add. destruct (decide _); [lia |].
  rewrite length_app. simpl. lia.
Qed.

(** Whatever [list(s)] gives, a trimmed set is within its cap. *)
Lemma length_trim {A} `{EqDecision A} (list_of_set : list A → list A)
    (cap keep : nat) (s : list A) :
  (keep ≤ cap)%nat → (length (trim list_of_set cap keep s) ≤ cap)%nat.
Proof.
  intros Hk. unfold trim. destruct (decide _); [| lia].
  unfold set_of_list. etrans; [apply length_foldl_set_add |].
  rewrite length_drop. simpl. lia.
Qed.

Section ThreadFacts.
Variable list_of_set : list Z → list Z.
Variable _strip_bbcode : string → string.
Variable hf : HFClient.
Variable callback : event → bool.

Lemma reply_row_grows subject post w log :
  grows Thread._seen_pids reply_pid_of w log
        (Thread.reply_row _strip_bbcode callback subject post w log).1.2
        (Thread.reply_row _strip_bbcode callback subject post w log).2.
Proof.
  rewrite Thread.reply_row_eq. cbn zeta.
  destruct (decide _); [apply grows_refl |].
  destruct (decide _); [apply grows_refl |].
  destruct (get_or _ _); cbn [fst snd].
  - eapply grows_announce; [reflexivity | done | done].
  - apply grows_quiet. intros k Hk. cbn. apply elem_of_set_add. by left.
Qed.

Lemma reply_row_keeps_baseline subject post w log :
  Thread._last_post (Thread.reply_row _strip_bbcode callback subject post w log).1.2
  = Thread._last_post w.
Proof.
  rewrite Thread.reply_row_eq. cbn zeta.
  destruct (decide _); [done |]. destruct (decide _); [done |].
  by destruct (get_or _ _).
Qed.

(** In the loop over the posts the watch keeps its thread and its baseline
    and announces later replies only. *)
Definition in_loop (w0 w : Thread._ThreadWatch) (log : list (action Thread._ThreadWatch))
    : Prop :=
  Thread.tid w = Thread.tid w0 ∧ Thread._last_post w = Thread._last_post w0
  ∧ Forall (later_reply w0) (events log).

Lemma reply_row_in_loop w0 subject post w log :
  in_loop w0 w log →
  in_loop w0 (Thread.reply_row _strip_bbcode callback subject post w log).1.2
             (Thread.reply_row _strip_bbcode callback subject post w log).2.
Proof.
  intros (Ht & Hl & Hev). rewrite Thread.reply_row_eq. cbn zeta.
  destruct (decide _) as [| Hlater]; [done |].
  destruct (decide _); [done |].
  destruct (get_or _ _); [| done].
  cbn [fst snd]. split; [done |]. split; [done |].
  rewrite events_app, Forall_app. split; [done |].
  rewrite events_cons_called. constructor; [| constructor].
  simpl. rewrite <- Ht, <- Hl. split; [done | lia].
Qed.

(** The ways a poll can go. *)
Inductive course (w : Thread._ThreadWatch) (log : list (action Thread._ThreadWatch))
    : outcome unit * Thread._ThreadWatch * list (action Thread._ThreadWatch) → Prop :=
  | nothing_new : course w log (Ret tt, w, log)
  | cold_start lastpost :
      Thread._last_post w = 0 →
      course w log (Ret tt, Thread.set_last_post lastpost w, log)
  | unread subject lastpost :
      Thread._last_post w < lastpost →
      let ev := thread_reply (Thread.tid w) None None subject "" lastpost in
      course w log
        (if callback ev then (Ret tt, Thread.set_last_post lastpost w, log ++ [Called ev w])
         else (Raise CallbackError, w, log ++ [Called ev w]))
  | null_posts : course w log (Raise AttributeError, w, log)
  | walked subject lastpost posts :
      Thread._last_post w < lastpost →
      course w log
        match for_each posts (Thread.reply_row _strip_bbcode callback subject) w log with
        | (Ret _, w1, log1) =>
            (Ret tt, Thread.bound list_of_set (Thread.set_last_post lastpost w1), log1)
        | (Raise e, w1, log1) => (Raise e, w1, log1)
        end.

Lemma poll_thread_course w log :
  course w log (Thread._poll_thread list_of_set _strip_bbcode hf callback w log).
Proof.
  unfold Thread._poll_thread, bind at 1, this.
  destruct (threads_by_tid hf (Thread.tid w)) as [threads |]; [| constructor].
  destruct (or_empty threads) as [| t _]; [constructor |].
  destruct (decide (Thread._last_post w = 0)); [by constructor |].
  destruct (decide _) as [| Hlater]; [constructor |].
  assert (Thread._last_post w < int_or_0 (t_lastpost t)) as Hlt by lia.
  destruct (posts_by_tid hf _ _ _) as [posts |].
  - assert (∀ l,
        course w log
          ((let* _ := for_each l (Thread.reply_row _strip_bbcode callback
                                    (get_or (t_subject t) "Thread")) in
            let* _ := update (Thread.set_last_post (int_or_0 (t_lastpost t))) in
            update (Thread.bound list_of_set)) w log)) as Hloop.
    { intros l.
      pose proof (walked w log (get_or (t_subject t) "Thread")
                    (int_or_0 (t_lastpost t)) l Hlt) as Hw.
      unfold bind at 1.
      by destruct (for_each l _ w log) as [[[[] | e] w1] log1]. }
    destruct posts as [| p | l]; [constructor | apply Hloop | apply Hloop].
  - pose proof (unread w log (get_or (t_subject t) "Thread")
                  (int_or_0 (t_lastpost t)) Hlt) as Hu.
    cbn zeta in Hu. unfold bind, await_callback, update.
    by destruct (callback _).
Qed.

Lemma poll_thread_grows w log :
  ∃ w1, grows Thread._seen_pids reply_pid_of w log w1
              (Thread._poll_thread list_of_set _strip_bbcode hf callback w log).2
    ∧ ((Thread._poll_thread list_of_set _strip_bbcode hf callback w log).1.1 ≠ Ret tt →
       (Thread._poll_thread list_of_set _strip_bbcode hf callback w log).1.2 = w1
       ∧ Thread._last_post w1 = Thread._last_post w).
Proof.
  destruct (poll_thread_course w log) as [| lastpost | subject lastpost Hlt ev | |
                                          subject lastpost posts Hlt].
  - exists w. split; [apply grows_refl | done].
  - exists w. split; [apply grows_refl | done].
  - exists w. destruct (callback ev); cbn [fst snd].
    + split; [| done]. exists [Called ev w]. split; [done |]. split; [done |].
      split; [constructor |]. intros k Hk. by apply elem_of_nil in Hk.
    + split; [| done]. exists [Called ev w]. split; [done |]. split; [done |].
      split; [constructor |]. intros k Hk. by apply elem_of_nil in Hk.
  - exists w. split; [apply grows_refl | done].
  - pose proof (for_each_grows Thread._seen_pids reply_pid_of
                  (Thread.reply_row _strip_bbcode callback subject) posts
                  (reply_row_grows subject) w log) as Hg.
    pose proof (for_each_invariant
                  (λ w' _, Thread._last_post w' = Thread._last_post w)
                  (Thread.reply_row _strip_bbcode callback subject) posts
                  (λ x w' log' _ H, eq_trans (reply_row_keeps_baseline subject x w' log') H)
                  w log eq_refl) as Hin.
    destruct (for_each posts _ w log) as [[[[] | e] w1] log1]; cbn [fst snd] in *.
    + exists w1. split; [done | done].
    + exists w1. split; [done |]. intros _. split; [done | done].
Qed.

Lemma poll_thread_later w :
  Forall (later_reply w)
         (events (Thread._poll_thread list_of_set _strip_bbcode hf callback w []).2).
Proof.
  destruct (poll_thread_course w []) as [| lastpost | subject lastpost Hlt ev | |
                                         subject lastpost posts Hlt].
  - constructor.
  - constructor.
  - assert (Forall (later_reply w) (events [Called ev w])) as Hev.
    { rewrite events_cons_called. constructor; [| constructor]. by split. }
    by destruct (callback ev).
  - constructor.
  - pose proof (for_each_invariant (in_loop w)
                  (Thread.reply_row _strip_bbcode callback subject) posts
                  (λ x w' log' _ H, reply_row_in_loop w subject x w' log' H) w []) as Hin.
    destruct Hin as (_ & _ & Hev); [split; [done |]; split; [done | constructor] |].
    by destruct (for_each posts _ w []) as [[[[] | e] w1] log1].
Qed.

Lemma poll_thread_within_cap w :
  (length (Thread._seen_pids w) ≤ 500)%nat →
  (Thread._poll_thread list_of_set _strip_bbcode hf callback w []).1.1 = Ret tt →
  (length (Thread._seen_pids
             (Thread._poll_thread list_of_set _strip_bbcode hf callback w []).1.2)
   ≤ 500)%nat.
Proof.
  intros Hcap.
  destruct (poll_thread_course w []) as [| lastpost | subject lastpost Hlt ev | |
                                         subject lastpost posts Hlt].
  - done.
  - done.
  - by destruct (callback ev).
  - done.
  - destruct (for_each posts _ w []) as [[[[] | e] w1] log1]; [| done].
    intros _. cbn [fst snd]. unfold Thread.bound. cbn [Thread._seen_pids].
    apply length_trim. lia.
Qed.

End ThreadFacts.

(** Every event of a thread poll is about the watched thread and is stamped
    later than the baseline the poll started from; the post ids announced are
    pairwise distinct and none was in the seen-set when the poll started. *)
Theorem thread_poll_announces_only_new_replies (list_of_set : list Z → list Z)
    (_strip_bbcode : string → string) (hf : HFClient) (callback : event → bool)
    (w : Thread._ThreadWatch) :
  let r := run_poll (Thread._poll_thread list_of_set _strip_bbcode hf callback) w in
  Forall (later_reply w) (events (actions r))
  ∧ NoDup (ids reply_pid_of (actions r))
  ∧ ∀ pid, pid ∈ ids reply_pid_of (actions r) → pid ∉ Thread._seen_pids w.
Proof.
  unfold run_poll, actions. cbn zeta. split; [apply poll_thread_later |].
  destruct (poll_thread_grows list_of_set _strip_bbcode hf callback w [])
    as (w1 & Hg & _).
  apply grows_log in Hg as (added & -> & Hn & Hi). done.
Qed.



(** A poll that completes leaves at most 500 ids in the seen-set of a watch
    that had at most 500, whatever order a set is listed in. *)
Theorem thread_seen_set_stays_within_cap (list_of_set : list Z → list Z)
    (_strip_bbcode : string → string) (hf : HFClient) (callback : event → bool)
    (w : Thread._ThreadWatch) :
  let r := run_poll (Thread._poll_thread list_of_set _strip_bbcode hf callback) w in
  (length (Thread._seen_pids w) ≤ 500)%nat →
  status r = Ret tt →
  (length (Thread._seen_pids (watch r)) ≤ 500)%nat.
Proof. apply poll_thread_within_cap. Qed.

Lemma thread_seen_set_stays_within_cap_witness :
  (length (Thread._seen_pids
             (watch (run_poll (Thread._poll_thread slot_order (λ m, m)
                                 (Thread.busy_thread 200 (Thread.reply 59852945 150))
                                 (λ _, true))
                              Thread.full_watch))) ≤ 500)%nat.
Proof.
  apply (thread_seen_set_stays_within_cap slot_order (λ m, m)
           (Thread.busy_thread 200 (Thread.reply 59852945 150)) (λ _, true)
           Thread.full_watch).
  - vm_compute. lia.
  - vm_compute. reflexivity.
Defined.

(** *** User watch *)

(** A loop whose body returns without calling back returns without calling
    back, and keeps what the body keeps. *)
Lemma for_each_quiet {W A} (I : W → Prop) (body : A → poll W unit) (l : list A) :
  (∀ x w log, I w → ∃ w', body x w log = (Ret tt, w', log) ∧ I w') →
  ∀ w log, I w → ∃ w', for_each l body w log = (Ret tt, w', log) ∧ I w'.
Proof.
  intros Hbody. induction l as [| x l IH]; intros w log Hi; [by exists w |].
  rewrite for_each_cons. destruct (Hbody x w log Hi) as (w1 & -> & Hi1).
  by apply IH.
Qed.

Section UserFacts.
Variable _strip_bbcode : string → string.
Variable hf : HFClient.
Variable callback : event → bool.

(** What the sub-checks of a first poll keep of the watch [w0]. *)
Definition seeding (w0 w : User._UserWatch) : Prop :=
  User._initialized w = false ∧ User.mode w = User.mode w0 ∧ User.uid w = User.uid w0.

Lemma check_threads_first w0 w log :
  seeding w0 w →
  ∃ w', User.check_threads hf callback w log = (Ret tt, w', log) ∧ seeding w0 w'
    ∧ (threads_by_uid hf (User.uid w) 1 20 = None → w' = w).
Proof.
  intros Hs. unfold User.check_threads, bind, this.
  destruct (threads_by_uid hf (User.uid w) 1 20) as [rows |]; [| by exists w].
  destruct Hs as (Hinit & Hm & Hu). rewrite Hinit. cbn [negb].
  destruct (for_each_quiet (seeding w0) User.seed_thread (or_empty rows)) with (w := w)
    (log := log) as (w' & Hloop & Hs'); [| done | by exists w'].
  intros t w1 log1 (Hinit1 & Hm1 & Hu1). rewrite User.seed_thread_eq.
  eexists. split; [reflexivity |]. by destruct (decide _).
Qed.

Lemma check_posts_first w0 w log :
  seeding w0 w →
  ∃ w', User.check_posts _strip_bbcode hf callback w log = (Ret tt, w', log)
    ∧ seeding w0 w' ∧ User._seen_tids w' = User._seen_tids w.
Proof.
  intros Hs. unfold User.check_posts, bind, this.
  destruct (decide (User.mode w = "all")); [| by exists w].
  destruct (posts_by_uid hf (User.uid w) 1 20) as [posts |]; [| by exists w].
  destruct (for_each_quiet
              (λ w', seeding w0 w' ∧ User._seen_tids w' = User._seen_tids w)
              (User.check_post _strip_bbcode callback)
              (sorted (λ p, int_or_0 (p_dateline p)) (or_empty posts)))
    with (w := w) (log := log) as (w' & Hloop & Hs' & Ht); [| done | by exists w'].
  intros p w1 log1 ((Hinit1 & Hm1 & Hu1) & Ht1). rewrite User.check_post_eq. cbn zeta.
  destruct (decide _); [by exists w1 |].
  rewrite Hinit1. cbn [negb]. by eexists.
Qed.

End UserFacts.

(** The first poll of a user watch returns without calling back and marks
    the watch initialized, whether or not its reads succeed; when the read of
    the threads fails, no thread id has been recorded. *)
Theorem user_first_poll_is_silent (list_of_set : list Z → list Z)
    (_strip_bbcode : string → string) (hf : HFClient) (callback : event → bool)
    (w : User._UserWatch) :
  let r := run_poll (User._poll_user list_of_set _strip_bbcode hf callback) w in
  User._initialized w = false →
  status r = Ret tt ∧ actions r = [] ∧ User._initialized (watch r) = true
  ∧ (threads_by_uid hf (User.uid w) 1 20 = None →
     User._seen_tids (watch r) = trim list_of_set 500 250 (User._seen_tids w)).
Proof.
  cbn zeta. intros Hinit. unfold run_poll, User._poll_user, status, watch, actions.
  destruct (check_threads_first hf callback w w []) as (w1 & H1 & Hs1 & Hnone); [done |].
  destruct (check_posts_first _strip_bbcode hf callback w w1 []) as (w2 & H2 & Hs2 & Ht);
    [done |].
  assert (User._poll_user list_of_set _strip_bbcode hf callback w []
          = (Ret tt, User.bound list_of_set (User.initialized w2), [])) as Hrun.
  { unfold User._poll_user, bind at 1. rewrite H1. unfold bind at 1. by rewrite H2. }
  fold (User._poll_user list_of_set _strip_bbcode hf callback). rewrite Hrun.
  cbn. split; [done |]. split; [done |]. split; [done |].
  intros Hfail. rewrite Ht. by rewrite (Hnone Hfail).
Qed.

Lemma user_first_poll_is_silent_witness :
  status (run_poll (User._poll_user (λ s, s) (λ m, m)
                      (User.user_client [Forum.thread 50 500] [Thread.reply 60 100])
                      (λ _, false))
                   (User.watch_user 761578 120 "all")) = Ret tt
  ∧ actions (run_poll (User._poll_user (λ s, s) (λ m, m)
                         (User.user_client [Forum.thread 50 500] [Thread.reply 60 100])
                         (λ _, false))
                      (User.watch_user 761578 120 "all")) = []
  ∧ User._initialized
      (watch (run_poll (User._poll_user (λ s, s) (λ m, m)
                          (User.user_client [Forum.thread 50 500] [Thread.reply 60 100])
                          (λ _, false))
                       (User.watch_user 761578 120 "all"))) = true
  ∧ (threads_by_uid (User.user_client [Forum.thread 50 500] [Thread.reply 60 100])
       (User.uid (User.watch_user 761578 120 "all")) 1 20 = None →
     User._seen_tids
       (watch (run_poll (User._poll_user (λ s, s) (λ m, m)
                           (User.user_client [Forum.thread 50 500] [Thread.reply 60 100])
                           (λ _, false))
                        (User.watch_user 761578 120 "all")))
     = trim (λ s, s) 500 250 (User._seen_tids (User.watch_user 761578 120 "all"))).
Proof.
  apply (user_first_poll_is_silent (λ s, s) (λ m, m)
           (User.user_client [Forum.thread 50 500] [Thread.reply 60 100]) (λ _, false)
           (User.watch_user 761578 120 "all")).
  reflexivity.
Defined.

(** *** Keyword watch *)

(** An event that a keyword poll from [w] may hand over: found in one of
    the forums of [w], about a thread that was not in the thread seen-set,
    and either a subject that matches, or a post that was not in the post
    seen-set under a subject that does not match. *)
Definition keyword_hit (w : Keyword._KeywordWatch) (ev : event) : Prop :=
  match ev with
  | keyword_match keyword fid tid pid subject snippet _ =>
      keyword = Keyword.pattern_src (Keyword.pattern w)
      ∧ fid ∈ Keyword.fids w
      ∧ tid ≠ 0 ∧ (tid ∉ Keyword._seen_tids w)
      ∧ match pid with
        | None => Keyword.search (Keyword.pattern w) subject = true ∧ snippet = subject
        | Some pid =>
            (pid ∉ Keyword._seen_pids w)
            ∧ Keyword.search (Keyword.pattern w) subject = false
        end
  | _ => False
  end.

(** What the loops of a poll from [w0] keep. *)
Definition scanning (w0 w : Keyword._KeywordWatch)
    (log : list (action Keyword._KeywordWatch)) : Prop :=
  Keyword.pattern w = Keyword.pattern w0
  ∧ (∀ tid, tid ∈ Keyword._seen_tids w0 → tid ∈ Keyword._seen_tids w)
  ∧ (∀ pid, pid ∈ Keyword._seen_pids w0 → pid ∈ Keyword._seen_pids w)
  ∧ Forall (keyword_hit w0) (events log).

Section KeywordFacts.
Variable _strip_bbcode : string → string.
Variable hf : HFClient.
Variable callback : event → bool.
Variable now : Q.

Lemma scanning_see_tid w0 w log tid :
  scanning w0 w log → scanning w0 (Keyword.see_tid tid w) log.
Proof.
  intros (Hp & Ht & Hpid & Hev). split; [done |]. split; [| done].
  intros t Hin. cbn. apply elem_of_set_add. left. by apply Ht.
Qed.

Lemma scan_post_scanning w0 fid tid subject post w log :
  fid ∈ Keyword.fids w0 → tid ≠ 0 →
  Keyword.search (Keyword.pattern w0) subject = false →
  scanning w0 w log ∧ (tid ∉ Keyword._seen_tids w) →
  let r := Keyword.scan_post _strip_bbcode callback fid tid subject post w log in
  scanning w0 r.1.2 r.2 ∧ (tid ∉ Keyword._seen_tids r.1.2).
Proof.
  intros Hfid H0 Hsubj [(Hp & Ht & Hpid & Hev) Hnew]. cbn zeta.
  rewrite Keyword.scan_post_eq. cbn zeta.
  destruct (decide _) as [| Hfresh]; [done |].
  destruct (get_or (p_message post) "") as [message |]; [| done].
  destruct (Keyword.search (Keyword.pattern w) message); cbn [fst snd].
  - split; [| done]. split; [done |]. split; [done |]. split.
    + intros pid Hin. cbn. apply elem_of_set_add. left. by apply Hpid.
    + rewrite !events_app, events_cons_tested, events_cons_called.
      cbn [events omap]. rewrite app_nil_r, Forall_app. split; [done |].
      constructor; [| constructor]. cbn. rewrite Hp.
      repeat split; [done | done | | | done].
      * intros Hin. apply Hnew. by apply Ht.
      * intros Hin. apply Hfresh. by apply Hpid.
  - split; [| done]. split; [done |]. split; [done |]. split; [done |].
    rewrite events_app, events_cons_tested. cbn [events omap]. by rewrite app_nil_r.
Qed.

Lemma scan_thread_scanning w0 fid t w log :
  fid ∈ Keyword.fids w0 → scanning w0 w log →
  scanning w0 (Keyword.scan_thread _strip_bbcode hf callback now fid t w log).1.2
              (Keyword.scan_thread _strip_bbcode hf callback now fid t w log).2.
Proof.
  intros Hfid Hs.
  destruct (Keyword.scan_thread _strip_bbcode hf callback now fid t w log)
    as [[st w1] log1] eqn:E.
  cbn [fst snd]. unfold Keyword.scan_thread, bind at 1, this in E. cbn zeta in E.
  destruct (decide (int_or_0 (t_tid t) = 0 ∨ _)) as [Hskip | Hnew].
  { by injection E as <- <- <-. }
  assert (int_or_0 (t_tid t) ≠ 0 ∧ int_or_0 (t_tid t) ∉ Keyword._seen_tids w)
    as [H0 Hunseen] by tauto.
  pose proof Hs as (Hp & Ht & Hpid & Hev).
  destruct (get_or (t_subject t) "") as [subject |]; [| by injection E as <- <- <-].
  destruct (Keyword.search (Keyword.pattern w) subject) eqn:Hsubj.
  { unfold bind, update, await_callback in E.
    assert (Forall (keyword_hit w0)
              (events (log ++ [Called (keyword_match
                         (Keyword.pattern_src (Keyword.pattern w)) fid (int_or_0 (t_tid t))
                         None subject subject
                         (int_or_0 (t_dateline t)))
                       (Keyword.see_tid (int_or_0 (t_tid t)) w)]))) as Hev'.
    { rewrite events_app, events_cons_called, Forall_app. split; [done |].
      constructor; [| constructor]. cbn. rewrite <- Hp.
      repeat split; [done | done | | done].
      intros Hin. apply Hunseen. by apply Ht. }
    destruct (callback _); injection E as <- <- <-;
      (destruct (scanning_see_tid w0 w log (int_or_0 (t_tid t)) Hs) as (? & ? & ? & _);
       by repeat split). }
  destruct (decide _).
  { injection E as <- <- <-. by apply scanning_see_tid. }
  destruct (posts_by_tid _ _ _ _) as [posts |]; [| by injection E as <- <- <-].
  unfold bind at 1 in E.
  pose proof (for_each_invariant
                (λ w' log', scanning w0 w' log'
                            ∧ (int_or_0 (t_tid t) ∉ Keyword._seen_tids w'))
                (Keyword.scan_post _strip_bbcode callback fid (int_or_0 (t_tid t))
                                   subject)
                (or_empty posts)) as Hloop.
  destruct (Hloop (λ x w' log' _ H,
                     scan_post_scanning w0 fid (int_or_0 (t_tid t))
                       subject x w' log' Hfid H0
                       ltac:(by rewrite <- Hp) H) w log) as [Hs2 _]; [done |].
  destruct (for_each _ _ _ _) as [[[[] | e] w2] log2]; cbn [fst snd] in *;
    injection E as <- <- <-; [| done].
  by apply scanning_see_tid.
Qed.

Lemma scan_forum_scanning w0 fid w log :
  fid ∈ Keyword.fids w0 → scanning w0 w log →
  scanning w0 (Keyword.scan_forum _strip_bbcode hf callback now fid w log).1.2
              (Keyword.scan_forum _strip_bbcode hf callback now fid w log).2.
Proof.
  intros Hfid Hs. unfold Keyword.scan_forum.
  destruct (threads_by_fid hf fid) as [threads |]; [| done].
  apply (for_each_invariant (scanning w0)); [| done].
  intros t w' log' _. by apply scan_thread_scanning.
Qed.

End KeywordFacts.

(** Every event of a keyword poll carries the watch's pattern, comes from
    one of the watch's forums and is about a thread that was not in the
    thread seen-set.  An event without a post id has a matching subject; an
    event with one is for a post that was not in the post seen-set, under a
    subject that does not match.  A watch without forums calls nothing. *)
Theorem keyword_poll_announces_only_hits (list_of_set : list Z → list Z)
    (_strip_bbcode : string → string) (hf : HFClient) (callback : event → bool)
    (now : Q) (w : Keyword._KeywordWatch) :
  Forall (keyword_hit w)
    (events (actions (run_poll (Keyword._poll_keyword list_of_set _strip_bbcode hf
                                  callback now) w))).
Proof.
  unfold run_poll, actions, Keyword._poll_keyword, bind at 1, this.
  destruct (Keyword.fids w) as [| f fs] eqn:Hf; [constructor |].
  unfold bind at 1.
  pose proof (for_each_invariant (scanning w)
                (Keyword.scan_forum _strip_bbcode hf callback now) (f :: fs)) as Hloop.
  destruct (Hloop (λ x w' log' Hin H,
                     scan_forum_scanning _strip_bbcode hf callback now w x w' log'
                       ltac:(by rewrite Hf) H) w []) as (_ & _ & _ & Hev).
  { split; [done |]. split; [done |]. split; [done | constructor]. }
  by destruct (for_each _ _ _ _) as [[[[] | e] w1] log1].
Qed.

(** *** Forum watch *)

(** The thread id of a [new_thread] event. *)
Definition new_tid_of (ev : event) : option Z :=
  match ev with
  | new_thread _ tid _ _ _ => Some tid
  | _ => None
  end.

(** The thread ids that the forum query returns. *)
Definition listed (hf : HFClient) (fid : Z) : list Z :=
  match threads_by_fid hf fid with
  | Some threads => Forum.tids (or_empty threads)
  | None => []
  end.

(** [_forum_loop(w)]: one poll per round of the [while], each against the
    API as it is in that round.  An exception ends the poll at hand and the
    loop goes on (no error handler is set, or it returns). *)
Definition _forum_loop (list_of_set : list Z → list Z) (callback : event → bool)
    (rounds : list HFClient) (w : Forum._ForumWatch)
    : Forum._ForumWatch * list (action Forum._ForumWatch) :=
  foldl (λ st hf,
           let r := Forum._poll_forum list_of_set hf callback st.1 st.2 in (r.1.2, r.2))
        (w, []) rounds.

(** The watch of forum [fid] holds a set of ids, all from [universe]. *)
Definition within (universe : list Z) (fid : Z) (w : Forum._ForumWatch) : Prop :=
  Forum.fid w = fid ∧ NoDup (Forum._seen_tids w)
  ∧ ∀ x, x ∈ Forum._seen_tids w → x ∈ universe.

(** The threads 1 ... [n], thread [x] created at time [x]. *)
Definition many_threads (n : Z) : list thread_row := (λ x, Forum.thread x x) <$> seqZ 1 n.

(** [list(s)] for a set of small non-negative ints: CPython keeps each in
    the slot of its own value, so they come out in ascending order. *)
Definition ascending (s : list Z) : list Z := sorted (λ x, x) s.

(** Two rounds of the forum of [Forum.five_threads]: a sixth thread has
    appeared by the second. *)
Definition sixth_appears : list HFClient :=
  [Forum.forum_client Forum.five_threads;
   Forum.forum_client (Forum.five_threads ++ [Forum.thread 106 60])].

Lemma length_trimmed {A} `{EqDecision A} (list_of_set : list A → list A)
    (cap keep : nat) (s : list A) :
  (cap < length s)%nat → (length (trim list_of_set cap keep s) ≤ keep)%nat.
Proof.
  intros Hover. unfold trim. rewrite decide_True by done.
  unfold set_of_list. etrans; [apply length_foldl_set_add |].
  rewrite length_drop. simpl. lia.
Qed.

Lemma trim_within_cap {A} `{EqDecision A} (list_of_set : list A → list A)
    (cap keep : nat) (s : list A) :
  (length s ≤ cap)%nat → trim list_of_set cap keep s = s.
Proof. intros Hcap. unfold trim. rewrite decide_False; [done | lia]. Qed.

Section ForumFacts.
Variable list_of_set : list Z → list Z.
Variable callback : event → bool.

Lemma seed_row_grows t w log :
  grows Forum._seen_tids new_tid_of w log
        (Forum.seed_row t w log).1.2 (Forum.seed_row t w log).2.
Proof.
  rewrite Forum.seed_row_eq. cbn [fst snd]. apply grows_quiet.
  destruct (decide _); [| done]. intros k Hk. cbn. apply elem_of_set_add. by left.
Qed.

Lemma emit_row_grows t w log :
  grows Forum._seen_tids new_tid_of w log
        (Forum.emit_row callback t w log).1.2 (Forum.emit_row callback t w log).2.
Proof.
  rewrite Forum.emit_row_eq. cbn zeta.
  destruct (decide _) as [Hskip | Hnew]; [apply grows_refl |].
  cbn [fst snd]. eapply grows_announce; [reflexivity | tauto | done].
Qed.

Lemma see_within universe fid tid w :
  tid ∈ universe → within universe fid w → within universe fid (Forum.see tid w).
Proof.
  intros Htid (Hf & Hnd & Hsub). split; [done |]. cbn. split.
  - by apply NoDup_set_add.
  - intros x Hx. apply elem_of_set_add in Hx as [Hx | ->]; auto.
Qed.

Lemma seed_row_within universe fid t w log :
  int_or_0 (t_tid t) ∈ universe → within universe fid w →
  within universe fid (Forum.seed_row t w log).1.2.
Proof.
  intros Ht Hw. rewrite Forum.seed_row_eq. cbn [fst snd].
  destruct (decide _); [| done]. by apply see_within.
Qed.

Lemma emit_row_within universe fid t w log :
  int_or_0 (t_tid t) ∈ universe → within universe fid w →
  within universe fid (Forum.emit_row callback t w log).1.2.
Proof.
  intros Ht Hw. rewrite Forum.emit_row_eq. cbn zeta.
  destruct (decide _); [done |]. cbn [fst snd]. by apply see_within.
Qed.

(** A loop over rows whose ids are in [universe]. *)
Lemma rows_loop universe fid (body : thread_row → poll Forum._ForumWatch unit)
    (ts : list thread_row) w log :
  (∀ t w' log', grows Forum._seen_tids new_tid_of w' log'
                      (body t w' log').1.2 (body t w' log').2) →
  (∀ t w' log', t ∈ ts → within universe fid w' →
                within universe fid (body t w' log').1.2) →
  within universe fid w →
  grows Forum._seen_tids new_tid_of w log
        (for_each ts body w log).1.2 (for_each ts body w log).2
  ∧ within universe fid (for_each ts body w log).1.2.
Proof.
  intros Hgrows Hwithin Hw.
  apply (for_each_invariant
           (λ w' log', grows Forum._seen_tids new_tid_of w log w' log'
                       ∧ within universe fid w')).
  - intros t w' log' Ht [Hg Hin]. split; [| by apply Hwithin].
    eapply grows_trans; [exact Hg | apply Hgrows].
  - split; [apply grows_refl | done].
Qed.

(** While the ids seen and listed are taken from no more than 1000 ids, a
    poll never trims: the seen-set only grows, and the ids it announces are
    distinct and were not in it. *)
Lemma poll_forum_within universe hf w log :
  (length universe ≤ 1000)%nat →
  within universe (Forum.fid w) w →
  (∀ x, x ∈ listed hf (Forum.fid w) → x ∈ universe) →
  grows Forum._seen_tids new_tid_of w log
        (Forum._poll_forum list_of_set hf callback w log).1.2
        (Forum._poll_forum list_of_set hf callback w log).2
  ∧ within universe (Forum.fid w)
           (Forum._poll_forum list_of_set hf callback w log).1.2.
Proof.
  intros Hcap Hw Hlisted.
  destruct (Forum._poll_forum list_of_set hf callback w log) as [[st w1] log1] eqn:E.
  cbn [fst snd]. unfold Forum._poll_forum, bind at 1, this in E.
  unfold listed in Hlisted.
  destruct (threads_by_fid hf (Forum.fid w)) as [threads |];
    [| injection E as <- <- <-; split; [apply grows_refl | done]].
  assert (∀ t, t ∈ or_empty threads → int_or_0 (t_tid t) ∈ universe) as Hrow.
  { intros t Ht. apply Hlisted. unfold Forum.tids. apply list_elem_of_fmap. eauto. }
  destruct (negb (Forum._initialized w)).
  - unfold bind at 1 in E.
    destruct (rows_loop universe (Forum.fid w) Forum.seed_row (or_empty threads) w log)
      as [Hg Hin]; [apply seed_row_grows | | done |].
    { intros t w' log' Ht. apply seed_row_within. by apply Hrow. }
    destruct (for_each _ _ _ _) as [[[[] | e] w2] log2]; cbn [fst snd] in *;
      injection E as <- <- <-; [| done].
    split; [| done]. destruct Hg as (added & -> & Hsub & Hnd & Hids).
    exists added. done.
  - unfold bind at 1 in E.
    destruct (rows_loop universe (Forum.fid w) (Forum.emit_row callback)
                (sorted (λ x, int_or_0 (t_dateline x)) (or_empty threads)) w log)
      as [Hg Hin]; [apply emit_row_grows | | done |].
    { intros t w' log' Ht. apply emit_row_within. apply Hrow.
      by rewrite sorted_perm in Ht. }
    destruct (for_each _ _ _ _) as [[[[] | e] w2] log2]; cbn [fst snd] in *;
      injection E as <- <- <-; [| done].
    assert (Forum.bound list_of_set w2 = w2) as ->; [| done].
    destruct Hin as (_ & Hnd & Hsub). unfold Forum.bound.
    rewrite trim_within_cap; [by destruct w2 |].
    etrans; [| exact Hcap]. apply submseteq_length. by apply NoDup_submseteq.
Qed.

Lemma forum_loop_within universe fid rounds : ∀ w log,
  (length universe ≤ 1000)%nat →
  within universe fid w →
  (∀ hf x, hf ∈ rounds → x ∈ listed hf fid → x ∈ universe) →
  let st := foldl (λ st hf,
                     let r := Forum._poll_forum list_of_set hf callback st.1 st.2 in
                     (r.1.2, r.2)) (w, log) rounds in
  grows Forum._seen_tids new_tid_of w log st.1 st.2.
Proof.
  induction rounds as [| hf rounds IH]; intros w log Hcap Hw Hlisted;
    [apply grows_refl |].
  cbn [foldl]. pose proof Hw as (Hfid & _ & _). subst fid.
  destruct (poll_forum_within universe hf w log Hcap Hw) as [Hg Hin].
  { intros x. apply Hlisted. by left. }
  eapply grows_trans; [exact Hg |].
  apply IH; [done | done |].
  intros hf' x Hhf'. apply Hlisted. by right.
Qed.

Lemma ids_announced (added : list (action Forum._ForumWatch)) (new : list Z)
    (P : Forum._ForumWatch → Z → Prop) f :
  Forall2 (λ a x, ∃ uid subj d w',
             a = Called (new_thread f x uid subj d) w' ∧ P w' x) added new →
  ids new_tid_of added = new.
Proof.
  induction 1 as [| a x added new (uid & subj & d & w' & -> & _) _ IH]; [done |].
  unfold ids in *. rewrite events_cons_called. cbn. by rewrite IH.
Qed.

(** A later poll none of whose callbacks raises: it announces the fetched
    unseen ids, all of them, and trims. *)
Lemma poll_forum_full hf w threads log :
  threads_by_fid hf (Forum.fid w) = Some threads → Forum._initialized w = true →
  (∀ ev, callback ev = true) →
  let new := Forum.fresh (Forum._seen_tids w)
               (Forum.tids (sorted (λ x, int_or_0 (t_dateline x)) (or_empty threads))) in
  ∃ added,
    Forum._poll_forum list_of_set hf callback w log
    = (Ret tt,
       Forum.bound list_of_set
         (Forum.mkForumWatch (Forum.fid w) (Forum.interval w)
                             (Forum._seen_tids w ++ new) true),
       log ++ added)
    ∧ ids new_tid_of added = new.
Proof.
  intros Ht Hi Hcb new. subst new.
  unfold Forum._poll_forum, bind at 1, this. rewrite Ht, Hi. simpl. unfold bind at 1.
  destruct (Forum.emit_rows_spec callback
              (sorted (λ x, int_or_0 (t_dateline x)) (or_empty threads)) w log)
    as (st & new & added & -> & Hp & Hf & Hst).
  destruct Hst as [[-> ->] | [_ (ev & w' & _ & Hc)]];
    [| rewrite Hcb in Hc; discriminate].
  exists added. rewrite Hi. split; [done |].
  by apply (ids_announced added _ (λ w' x, x ∈ Forum._seen_tids w') (Forum.fid w)).
Qed.

(** The seen-set after a later poll: the ids announced have joined it, and
    a poll that completes has trimmed it. *)
Lemma poll_forum_seen hf w threads :
  threads_by_fid hf (Forum.fid w) = Some threads → Forum._initialized w = true →
  let r := run_poll (Forum._poll_forum list_of_set hf callback) w in
  let announced := tid_of <$> events (actions r) in
  (status r = Ret tt →
     Forum._seen_tids (watch r)
     = trim list_of_set 1000 500 (Forum._seen_tids w ++ announced))
  ∧ (∀ e, status r = Raise e →
       Forum._seen_tids (watch r) = Forum._seen_tids w ++ announced).
Proof.
  intros Ht Hi. cbn zeta. rewrite (Forum.poll_forum_later _ _ _ _ _ Ht Hi).
  destruct (Forum.emit_rows_spec callback
              (sorted (λ x, int_or_0 (t_dateline x)) (or_empty threads)) w [])
    as (st & new & added & -> & _ & Hf & _).
  pose proof (Forum.events_announced added new (λ w' x, x ∈ Forum._seen_tids w')
                (Forum.fid w) Hf) as Hev.
  destruct st as [[] | e]; unfold status, watch, actions; cbn [fst snd app];
    rewrite Hev; split; done.
Qed.

(** More ids than the seen-set keeps: a forum that lists more than 1000
    threads, unchanged, has a thread announced by two polls in a row. *)
Lemma forum_repeats_past_cap hf fid interval threads (many : list Z) :
  threads_by_fid hf fid = Some threads →
  (∀ ev, callback ev = true) →
  NoDup many → (1000 < length many)%nat →
  (∀ x, x ∈ many → x ≠ 0 ∧ x ∈ Forum.tids (or_empty threads)) →
  ¬ NoDup (ids new_tid_of
             (_forum_loop list_of_set callback [hf; hf]
                          (Forum.mkForumWatch fid interval [] true)).2).
Proof.
  intros Ht Hcb Hnd Hlen Hmany. unfold _forum_loop.
  set (w := Forum.mkForumWatch fid interval [] true).
  set (T := Forum.tids (sorted (λ x, int_or_0 (t_dateline x)) (or_empty threads))).
  assert (∀ x, x ∈ many → x ≠ 0 ∧ x ∈ T) as HmanyT.
  { intros x Hx. destruct (Hmany x Hx) as [H0 Hin]. split; [done |].
    unfold T, Forum.tids in *. by rewrite sorted_perm. }
  destruct (poll_forum_full hf w threads [] Ht eq_refl Hcb) as (added1 & E1 & Hids1).
  fold T in E1, Hids1. cbn [foldl fst snd]. rewrite E1. cbn [fst snd].
  set (w1 := Forum.bound list_of_set _) in *.
  destruct (poll_forum_full hf w1 threads ([] ++ added1) Ht eq_refl Hcb)
    as (added2 & E2 & Hids2).
  fold T in E2, Hids2. rewrite E2. cbn [fst snd].
  rewrite !ids_app, Hids1, Hids2. cbn [app Forum._seen_tids w].
  assert (many ⊆+ Forum.fresh [] T) as Hsub1.
  { apply NoDup_submseteq; [done |]. intros x Hx. apply Forum.fresh_spec.
    destruct (HmanyT x Hx). split; [done |]. split; [apply not_elem_of_nil | done]. }
  assert (length (Forum._seen_tids w1) ≤ 500)%nat as Hshort.
  { unfold w1, Forum.bound. cbn. apply length_trimmed.
    apply submseteq_length in Hsub1. lia. }
  destruct (decide (Forall (λ x, x ∈ Forum._seen_tids w1) many)) as [Hall | Hsome].
  { assert (many ⊆+ Forum._seen_tids w1) as Hsub
      by (apply NoDup_submseteq; [done | by apply Forall_forall]).
    apply submseteq_length in Hsub. lia. }
  apply not_Forall_Exists in Hsome; [| apply _].
  apply Exists_exists in Hsome as (x & Hx & Hout). destruct (HmanyT x Hx) as [H0 Hin].
  intros Hnodup. apply NoDup_app in Hnodup as (_ & Hdisj & _).
  apply (Hdisj x); apply Forum.fresh_spec; split; try done.
  split; [apply not_elem_of_nil | done].
Qed.

End ForumFacts.

(** C2 (as the code has it).  A poll that gets the thread list of the forum:
    on the first one every id the rows carry (a missing or zero [tid] is no
    id) joins the seen-set and no callback is invoked; on a later one the
    callback gets [new_thread] events only, at most one per id and only for
    fetched ids outside the seen-set, each id being in the seen-set by the
    time its callback runs.  Every fetched unseen id gets its event when no
    callback raises; a callback that raises ends the poll, its id stays in
    the seen-set and the next poll does not announce it.  The poll leaves
    the seen-set with the announced ids added, trimmed by the rule of the
    cap when it completes and untrimmed when a callback raised.  Over any
    number of polls, whatever the callbacks do, no id is announced twice and none of
    the seen-set the loop starts with is announced, as long as the ids seen
    and listed are no more than the 1000 the seen-set may hold before it is
    trimmed. *)
Theorem forum_watch_emits_once_within_cap (list_of_set : list Z → list Z)
    (callback : event → bool) (universe : list Z) (rounds : list HFClient)
    (w : Forum._ForumWatch) :
  (length universe ≤ 1000)%nat →
  NoDup (Forum._seen_tids w) →
  (∀ x, x ∈ Forum._seen_tids w → x ∈ universe) →
  (∀ hf x, hf ∈ rounds → x ∈ listed hf (Forum.fid w) → x ∈ universe) →
  (∀ hf w0 threads, threads_by_fid hf (Forum.fid w0) = Some threads →
     let r := run_poll (Forum._poll_forum list_of_set hf callback) w0 in
     let fetched := Forum.tids (or_empty threads) in
     let announced := tid_of <$> events (actions r) in
     (Forum._initialized w0 = false →
        status r = Ret tt ∧ actions r = [] ∧ Forum._initialized (watch r) = true
        ∧ ∀ x, x ∈ Forum._seen_tids (watch r)
               ↔ x ∈ Forum._seen_tids w0 ∨ (x ≠ 0 ∧ x ∈ fetched))
     ∧ (Forum._initialized w0 = true →
        Forall (λ a, ∃ x uid subj d w',
                  a = Called (new_thread (Forum.fid w0) x uid subj d) w'
                  ∧ x ∈ Forum._seen_tids w')
               (actions r)
        ∧ NoDup announced
        ∧ (∀ x, x ∈ announced → x ≠ 0 ∧ (x ∉ Forum._seen_tids w0) ∧ x ∈ fetched)
        ∧ ((∀ ev, callback ev = true) →
             status r = Ret tt
             ∧ ∀ x, x ≠ 0 → x ∉ Forum._seen_tids w0 → x ∈ fetched → x ∈ announced)
        ∧ (∀ e, status r = Raise e →
             ∃ ev w', last (actions r) = Some (Called ev w') ∧ callback ev = false
               ∧ tid_of ev ∈ Forum._seen_tids (watch r)
               ∧ ∀ hf' callback',
                   tid_of ev ∉ tid_of <$> events (actions
                     (run_poll (Forum._poll_forum list_of_set hf' callback')
                               (watch r))))
        ∧ (status r = Ret tt →
             Forum._seen_tids (watch r)
             = trim list_of_set 1000 500 (Forum._seen_tids w0 ++ announced))
        ∧ (∀ e, status r = Raise e →
             Forum._seen_tids (watch r) = Forum._seen_tids w0 ++ announced)))
  ∧ NoDup (ids new_tid_of (_forum_loop list_of_set callback rounds w).2)
  ∧ ∀ x, x ∈ ids new_tid_of (_forum_loop list_of_set callback rounds w).2 →
         x ∉ Forum._seen_tids w.
Proof.
  intros Hcap Hnd Hseen Hlisted. split.
  { intros hf w0 threads Ht.
    pose proof (Forum.poll_forum_spec list_of_set hf callback w0 threads Ht) as Hpoll.
    cbn zeta in *. destruct Hpoll as [Hfirst Hlater]. split; [exact Hfirst |].
    intros Hini. destruct (Hlater Hini) as (Hev & Hdistinct & Hsound & Hfull & Hraise).
    destruct (poll_forum_seen list_of_set callback hf w0 threads Ht Hini)
      as [Hdone Hstopped].
    split; [exact Hev |]. split; [exact Hdistinct |]. split; [exact Hsound |].
    split; [exact Hfull |]. split; [exact Hraise |]. split; [exact Hdone | exact Hstopped]. }
  unfold _forum_loop.
  destruct (grows_log _ _ _ _ _ _
              (forum_loop_within list_of_set callback universe (Forum.fid w) rounds w []
                 Hcap (conj eq_refl (conj Hnd Hseen)) Hlisted))
    as (added & Hlog & Hn & Hi).
  cbn zeta in Hlog. rewrite Hlog. done.
Qed.

Lemma forum_watch_emits_once_within_cap_witness :
  ids new_tid_of
      (_forum_loop (λ s, s) (λ _, true) sixth_appears (Forum.watch_forum 25 120)).2
  = [106]
  ∧ NoDup (ids new_tid_of
             (_forum_loop (λ s, s) (λ _, true) sixth_appears
                          (Forum.watch_forum 25 120)).2).
Proof.
  split; [reflexivity |].
  apply (forum_watch_emits_once_within_cap (λ s, s) (λ _, true)
           [101; 102; 103; 104; 105; 106] sixth_appears (Forum.watch_forum 25 120)).
  - simpl. lia.
  - constructor.
  - intros x Hx. by apply elem_of_nil in Hx.
  - intros hf x Hhf. unfold sixth_appears in Hhf.
    apply elem_of_cons in Hhf as [-> | Hhf];
      [| apply list_elem_of_singleton in Hhf as ->];
      revert x; apply Forall_forall; apply (bool_decide_unpack _); vm_compute; exact I.
Defined.

(** C2 (where the code departs from the claim).  A callback that raises ends
    the poll: of two unseen threads the first is announced and the second,
    fetched and unseen, gets no event in that poll.  And an id whose
    callback failed is announced again once it has been trimmed from the
    seen-set: with 1000 other ids seen, thread 1 is announced at the first
    poll, dropped by the trim that ends the second, and announced again at
    the third.  Whatever order [list(s)] has, a forum of 1001 threads that
    does not change has threads announced by two polls in a row. *)
Lemma forum_poll_misses_and_repeats :
  (let r := run_poll (Forum._poll_forum ascending
                        (Forum.forum_client [Forum.thread 201 10; Forum.thread 202 20])
                        (λ _, false))
                     (Forum.mkForumWatch 25 120 [] true) in
   status r = Raise CallbackError
   ∧ ids new_tid_of (actions r) = [201]
   ∧ 202 ∉ Forum._seen_tids (watch r))
  ∧ (let hf := Forum.forum_client [Forum.thread 1 5] in
     ids new_tid_of
         (_forum_loop ascending (λ _, false) [hf; hf; hf]
                      (Forum.mkForumWatch 25 120 (seqZ 2 1000) true)).2
     = [1; 1])
  ∧ (∀ list_of_set,
       let hf := Forum.forum_client (many_threads 1001) in
       ¬ NoDup (ids new_tid_of
                  (_forum_loop list_of_set (λ _, true) [hf; hf]
                               (Forum.mkForumWatch 25 120 [] true)).2)).
Proof.
  split; [| split].
  - split; [reflexivity |]. split; [reflexivity |].
    change (202 ∉ [201]). intros Hx.
    apply elem_of_cons in Hx as [Hx | Hx%elem_of_nil]; done.
  - vm_compute. reflexivity.
  - intros list_of_set hf.
    apply (forum_repeats_past_cap list_of_set (λ _, true) hf 25 120
             (RMany (many_threads 1001)) (seqZ 1 1001)).
    + reflexivity.
    + done.
    + apply NoDup_seqZ.
    + rewrite length_seqZ. lia.
    + intros x Hx. apply elem_of_seqZ in Hx. split; [lia |].
      unfold Forum.tids, many_threads, or_empty. rewrite <- list_fmap_compose.
      apply list_elem_of_fmap. exists x. split; [done |]. apply elem_of_seqZ. lia.
Qed.

End WatcherOps.

(** ** Cache counters: [src/HFCache.py] *)

Module CacheStats.
Import Cache CacheOps.

Section Values.
Context {V : Type}.

(** [hit_rate] *)
Definition hit_rate (c : HFCache V) : Q :=
  let total := (_hits c + _misses c)%nat in
  if decide (total = 0%nat) then 0%Q else (Z.of_nat (_hits c) # Pos.of_nat total).

(** The requests that look a key up. *)
Definition is_lookup (r : request (V := V)) : bool :=
  match r with
  | DoGet _ _ _ _ | DoGetOrFetch _ _ _ _ _ _ _ => true
  | _ => false
  end.

Definition lookups (rs : list (request (V := V))) : nat := length (filter is_lookup rs).

Lemma set_keeps_counters (c c' : HFCache V) ns key value ttl now :
  set c ns key value ttl now = Ret c' → _hits c' = _hits c ∧ _misses c' = _misses c.
Proof.
  unfold set, set_until. destruct (_ && _).
  - destruct (min_expire_at _); [| discriminate]. by intros [= <-].
  - by intros [= <-].
Qed.

(** A lookup adds one to exactly one of the counters; no other request
    touches them. *)
Lemma serve_counts (c : HFCache V) r :
  (_hits c ≤ _hits (serve c r))%nat
  ∧ (_hits (serve c r) + _misses (serve c r)
     = _hits c + _misses c + if is_lookup r then 1 else 0)%nat.
Proof.
  destruct r as [ns key dflt now | ns key value ttl now | ns key | ns | | now
                 | ns key fetch_fn ttl none_ttl now now_set]; cbn [serve is_lookup].
  - unfold get. destruct (dict_get _ _) as [[value expire_at] |]; cbn; [| lia].
    destruct (decide _); cbn; lia.
  - destruct (set c ns key value ttl now) as [c' | e] eqn:E; [| lia].
    apply set_keeps_counters in E as [-> ->]. lia.
  - unfold delete. destruct (dict_get _ _); cbn; lia.
  - cbn. lia.
  - cbn. lia.
  - cbn. lia.
  - unfold get_or_fetch. cbn zeta.
    destruct (dict_get _ _) as [[value expire_at] |];
      [destruct (decide _); [cbn; lia |] |];
      destruct (fetch_fn tt); try destruct (decide (0 < none_ttl));
      try (cbn; lia);
      match goal with
      | |- context [set ?c0 ?a ?b ?v ?t ?n] =>
          destruct (set c0 a b v t n) as [c2 | e] eqn:E;
            [apply set_keeps_counters in E as [Hh Hm]; cbn [fst snd] in *;
             rewrite Hh, Hm; cbn; lia
            | cbn; lia]
      end.
Qed.

Lemma serve_all_counts rs : ∀ c : HFCache V,
  (_hits c ≤ _hits (serve_all c rs))%nat
  ∧ (_hits (serve_all c rs) + _misses (serve_all c rs)
     = _hits c + _misses c + lookups rs)%nat.
Proof.
  unfold serve_all, lookups. induction rs as [| r rs IH]; intros c; [cbn; lia |].
  cbn [foldl]. destruct (IH (serve c r)) as [Hh Hsum].
  destruct (serve_counts c r) as [Hh1 Hsum1].
  rewrite filter_cons.
  destruct (is_lookup r); [rewrite decide_True by done | rewrite decide_False by (cbn; tauto)];
    cbn [length]; lia.
Qed.

(** Over any run of requests, every lookup is counted once, as a hit or as
    a miss, and nothing else is counted; the hit rate lies between 0 and 1. *)
Theorem lookups_are_counted_once (ttl maxsize : Z) (rs : list request) :
  let c := serve_all (init ttl maxsize) rs in
  (_hits c + _misses c)%nat = lookups rs
  ∧ (0 <= hit_rate c)%Q ∧ (hit_rate c <= 1)%Q.
Proof.
  cbn zeta. destruct (serve_all_counts rs (init ttl maxsize)) as [_ Hsum].
  cbn in Hsum. split; [done |]. unfold hit_rate. cbn zeta.
  destruct (decide _) as [| Hpos]; [done |].
  unfold Qle. cbn.
  assert (Z.pos (Pos.of_nat (_hits (serve_all (init ttl maxsize) rs)
                             + _misses (serve_all (init ttl maxsize) rs)))
          = Z.of_nat (_hits (serve_all (init ttl maxsize) rs)
                      + _misses (serve_all (init ttl maxsize) rs))) as ->.
  { by rewrite <- positive_nat_Z, Nat2Pos.id. }
  lia.
Qed.

End Values.

End CacheStats.

(** ** Page arithmetic: [src/HFPosts.py] *)

Module Posts.

(** [get_last_page(tid, numreplies, perpage)]; [None] stands for the
    [ZeroDivisionError] of a zero [perpage]. *)
Definition get_last_page (tid numreplies perpage : Z) : option Z :=
  if decide (perpage = 0) then None
  else Some (Z.max 1 ((numreplies + 1 + perpage - 1) / perpage)).

(** A thread with [numreplies] replies has [numreplies + 1] posts; with a
    positive page size the last page is at least 1, and it is the page on
    which the newest post falls. *)
Theorem last_page_holds_the_newest_post (tid numreplies perpage : Z) :
  0 < perpage →
  ∃ page, get_last_page tid numreplies perpage = Some page
    ∧ 1 ≤ page
    ∧ (0 ≤ numreplies → (page - 1) * perpage < numreplies + 1 ≤ page * perpage).
Proof.
  intros Hper. unfold get_last_page. rewrite decide_False by lia.
  eexists. split; [reflexivity |]. split; [lia |]. intros Hn.
  pose proof (Z.div_mod (numreplies + 1 + perpage - 1) perpage ltac:(lia)) as Hdm.
  pose proof (Z.mod_pos_bound (numreplies + 1 + perpage - 1) perpage Hper) as Hmod.
  assert (1 ≤ (numreplies + 1 + perpage - 1) / perpage) as Hq.
  { apply Z.div_le_lower_bound; lia. }
  rewrite Z.max_r by lia. nia.
Qed.

Lemma last_page_holds_the_newest_post_witness :
  ∃ page, get_last_page 6083735 25 10 = Some page
    ∧ 1 ≤ page ∧ (0 ≤ 25 → (page - 1) * 10 < 25 + 1 ≤ page * 10).
Proof. apply (last_page_holds_the_newest_post 6083735 25 10). lia. Defined.

End Posts.
